(** * StateGraph: a shallow embedding of [state_graph.py] and of the bulk
    tools of [server.py], with the properties of the graph store.

    The workflow graph is a [networkx.DiGraph] owned by a [StateGraph]
    object.  Python dictionaries keep insertion order, and that order is
    observable (the order of [list_nodes], the tie-break of
    [get_execution_sequence]), so every dictionary is an association list
    with unique keys, updated in place.

    The later parts embed the registry of stores and the import and
    export tools of [server.py], the loader of [app.py], and what
    [visualization.py] computes for a file and for a drawing. *)

From Stdlib Require Import String ZArith Bool Lia Arith PeanoNat List Permutation Sorted.
Import ListNotations.
Open Scope string_scope.

(** ** Python dictionaries with string keys *)

Definition dict (V : Type) := list (string * V).

Module PyDict.
Section Ops.
Context {V : Type}.

(** [d.get(k)] *)
Fixpoint get (k : string) (d : dict V) : option V :=
  match d with
  | [] => None
  | (k', v) :: r => if String.eqb k k' then Some v else get k r
  end.

(** [k in d] *)
Definition contains (k : string) (d : dict V) : bool :=
  match get k d with Some _ => true | None => false end.

(** [d[k] = v]: an existing key keeps its position, a new key goes last. *)
Fixpoint set (k : string) (v : V) (d : dict V) : dict V :=
  match d with
  | [] => [(k, v)]
  | (k', v') :: r =>
      if String.eqb k k' then (k', v) :: r else (k', v') :: set k v r
  end.

(** [del d[k]], used only where the key is known to be present. *)
Fixpoint del (k : string) (d : dict V) : dict V :=
  match d with
  | [] => []
  | (k', v') :: r => if String.eqb k k' then r else (k', v') :: del k r
  end.

(** [list(d)], the keys in insertion order *)
Definition keys (d : dict V) : list string := map fst d.

(** [d.update(e)] *)
Definition update (d e : dict V) : dict V :=
  fold_left (fun acc kv => set (fst kv) (snd kv) acc) e d.
End Ops.
End PyDict.
Import PyDict.

(** ** JSON-like attribute values *)

#[local] Set Warnings "-register-all".

Inductive value : Type :=
| VNone
| VBool (b : bool)
| VInt (z : Z)
| VStr (s : string)
| VList (l : list value)
| VDict (d : list (string * value)).

(** An attribute mapping: a node's or an edge's data dictionary, a result
    record. *)
Definition attrs := dict value.

(** [v == s] for a string literal [s] *)
Definition value_is_str (v : option value) (s : string) : bool :=
  match v with Some (VStr t) => String.eqb t s | _ => false end.

(** [x in l] for a list or a set of strings *)
Definition mem (x : string) (l : list string) : bool :=
  existsb (String.eqb x) l.

(** ** The part of [networkx.DiGraph] that [StateGraph] drives

    A DiGraph keeps three dictionaries: [_node] (node -> attribute dict),
    [_succ] (node -> successor -> edge data dict) and [_pred]
    (node -> predecessor -> edge data dict).  The data dict of an edge is
    one object, referenced from both [_succ[u][v]] and [_pred[v][u]]; the
    model stores it once, under [_succ], and [_pred] holds the key only, so
    a write through one view is seen through the other. *)

Record DiGraph : Type := mkDiGraph {
  _node : dict attrs;
  _succ : dict (dict attrs);
  _pred : dict (dict unit)
}.

Module NX.

(** [nx.DiGraph()] *)
Definition empty : DiGraph := mkDiGraph [] [] [].

(** [n in G] *)
Definition has_node (G : DiGraph) (n : string) : bool := contains n (_node G).

(** [G.nodes()], in insertion order *)
Definition nodes (G : DiGraph) : list string := keys (_node G).

(** [G.number_of_nodes()] *)
Definition number_of_nodes (G : DiGraph) : nat := length (_node G).

(** The successors of [u], in insertion order (empty for an absent node) *)
Definition succ_of (G : DiGraph) (u : string) : dict attrs :=
  match get u (_succ G) with Some nbrs => nbrs | None => [] end.

Definition pred_of (G : DiGraph) (v : string) : dict unit :=
  match get v (_pred G) with Some ps => ps | None => [] end.

(** [G.has_edge(u, v)]: [v in G._adj[u]], [False] on a [KeyError] *)
Definition has_edge (G : DiGraph) (u v : string) : bool :=
  match get u (_succ G) with
  | Some nbrs => contains v nbrs
  | None => false
  end.

(** The shared data dict of the edge [(u, v)] *)
Definition edge_data (G : DiGraph) (u v : string) : attrs :=
  match get v (succ_of G u) with Some dd => dd | None => [] end.

(** The first half of [add_node] and of [add_edge]: a node that is not
    yet a key of [_succ] gets empty adjacency dicts and an empty
    attribute dict. *)
Definition ensure_node (n : string) (G : DiGraph) : DiGraph :=
  if contains n (_succ G) then G
  else mkDiGraph (set n [] (_node G)) (set n [] (_succ G)) (set n [] (_pred G)).

(** [G.add_node(n, **attr)]: creates the node, or updates the attributes
    of an existing one. *)
Definition add_node (n : string) (attr : attrs) (G : DiGraph) : DiGraph :=
  let G1 := ensure_node n G in
  let old := match get n (_node G1) with Some a => a | None => [] end in
  mkDiGraph (set n (update old attr) (_node G1)) (_succ G1) (_pred G1).

(** [G.add_edge(u, v, **attr)]:
    [datadict = self._adj[u].get(v, {}); datadict.update(attr);
     self._succ[u][v] = datadict; self._pred[v][u] = datadict].
    The data of an existing edge is updated, not replaced. *)
Definition add_edge (u v : string) (attr : attrs) (G : DiGraph) : DiGraph :=
  let G2 := ensure_node v (ensure_node u G) in
  let datadict :=
    match get v (succ_of G2 u) with Some dd => dd | None => [] end in
  let datadict := update datadict attr in
  mkDiGraph (_node G2)
            (set u (set v datadict (succ_of G2 u)) (_succ G2))
            (set v (set u tt (pred_of G2 v)) (_pred G2)).

(** One turn of the loops of [remove_node]: [del p[u][n]] *)
Definition del_in {W} (n : string) (p : dict (dict W)) (u : string)
  : dict (dict W) :=
  set u (del n (match get u p with Some x => x | None => [] end)) p.

(** [G.remove_node(n)] for a present node:
    [nbrs = self._succ[n]; del self._node[n];
     for u in nbrs: del self._pred[u][n]
     del self._succ[n]
     for u in self._pred[n]: del self._succ[u][n]
     del self._pred[n]] *)
Definition remove_node (n : string) (G : DiGraph) : DiGraph :=
  let nbrs := succ_of G n in
  let node1 := del n (_node G) in
  let pred1 := fold_left (del_in n) (keys nbrs) (_pred G) in
  let succ1 := del n (_succ G) in
  let ps := match get n pred1 with Some x => x | None => [] end in
  let succ2 := fold_left (del_in n) (keys ps) succ1 in
  let pred2 := del n pred1 in
  mkDiGraph node1 succ2 pred2.

(** [G.remove_edge(u, v)] for a present edge:
    [del self._succ[u][v]; del self._pred[v][u]] *)
Definition remove_edge (u v : string) (G : DiGraph) : DiGraph :=
  mkDiGraph (_node G)
            (set u (del v (succ_of G u)) (_succ G))
            (set v (del u (pred_of G v)) (_pred G)).

(** [G.edges[u, v][key] = val] for a present edge: a write to the shared
    data dict *)
Definition set_edge_attr (u v key : string) (val : value) (G : DiGraph)
  : DiGraph :=
  mkDiGraph (_node G)
            (set u (set v (set key val (edge_data G u v)) (succ_of G u))
                 (_succ G))
            (_pred G).

(** [del G.edges[u, v][key]] *)
Definition del_edge_attr (u v key : string) (G : DiGraph) : DiGraph :=
  mkDiGraph (_node G)
            (set u (set v (del key (edge_data G u v)) (succ_of G u))
                 (_succ G))
            (_pred G).

(** [G.nodes[n][key] = val] for a present node *)
Definition set_node_attr (n key : string) (val : value) (G : DiGraph)
  : DiGraph :=
  let a := match get n (_node G) with Some a => a | None => [] end in
  mkDiGraph (set n (set key val a) (_node G)) (_succ G) (_pred G).

(** [G.out_edges(n, data=True)] for a present node: [(n, v, data)] for
    each successor [v], in the order of [_succ[n]] *)
Definition out_edges (G : DiGraph) (n : string)
  : list (string * string * attrs) :=
  map (fun kv => (n, fst kv, snd kv)) (succ_of G n).

(** [G.in_edges(n, data=True)] for a present node: [(u, n, data)] for
    each predecessor [u], in the order of [_pred[n]] *)
Definition in_edges (G : DiGraph) (n : string)
  : list (string * string * attrs) :=
  map (fun kv => (fst kv, n, edge_data G (fst kv) n)) (pred_of G n).

(** [G.edges(data=True)]: every node's out-edges, nodes in the order of
    [_succ] *)
Definition edges (G : DiGraph) : list (string * string * attrs) :=
  flat_map (fun un => map (fun kv => (fst un, fst kv, snd kv)) (snd un))
           (_succ G).

(** [G.degree(n)] of a directed graph: in-degree plus out-degree *)
Definition degree (G : DiGraph) (n : string) : nat :=
  length (pred_of G n) + length (succ_of G n).

(** [G.size()]: [sum(d for v, d in self.degree()) // 2] *)
Definition size (G : DiGraph) : nat :=
  list_sum (map (degree G) (nodes G)) / 2.

(** [G.number_of_edges()]: [int(self.size())] *)
Definition number_of_edges (G : DiGraph) : nat := size G.

(** *** [networkx.shortest_path] *)

(** What a search returns: a path, [NetworkXNoPath], or an exhausted
    budget of the model. *)
Inductive search : Type :=
| Found (path : list string)
| NoPath
| OutOfFuel.

(** A frontier entry: a node and the path that reached it, last node
    first (the node itself left out). *)
Definition entry : Type := (string * list string)%type.

(** The entries whose node is new, each node once, first come first *)
Fixpoint fresh (seen : list string) (l : list entry) : list entry :=
  match l with
  | [] => []
  | q :: r => if mem (fst q) seen then fresh seen r
              else q :: fresh (fst q :: seen) r
  end.

(** Every successor of every frontier node, with the path to it *)
Definition candidates (G : DiGraph) (frontier : list entry) : list entry :=
  flat_map (fun q => map (fun v => (v, fst q :: snd q))
                         (keys (succ_of G (fst q))))
           frontier.

(** Breadth-first search, one level per unit of fuel *)
Fixpoint bfs (fuel : nat) (G : DiGraph) (target : string)
    (frontier : list entry) (seen : list string) : search :=
  match fuel with
  | O => OutOfFuel
  | S fuel' =>
      match find (fun q => String.eqb (fst q) target) frontier with
      | Some q => Found (rev (fst q :: snd q))
      | None =>
          match frontier with
          | [] => NoPath
          | _ :: _ =>
              let next := fresh seen (candidates G frontier) in
              bfs fuel' G target next (seen ++ map fst next)
          end
      end
  end.

(** Modelled from the spec: [networkx.shortest_path] is library code and
    not among the repository sources; the spec describes the call as an
    unweighted breadth-first shortest-path search over directed edges
    from the source to the target, inclusive, with no path as a distinct
    outcome.  A level adds at least one new node or ends the search, so
    one level more than there are nodes is budget enough (proved
    below). *)
Definition shortest_path (G : DiGraph) (source target : string) : search :=
  bfs (S (number_of_nodes G)) G target [(source, [])] [source].

(** [G.in_degree(n)]: the number of predecessors *)
Definition in_degree (G : DiGraph) (n : string) : nat :=
  length (pred_of G n).

(** [nx.isolates(G)]: [(n for n, d in G.degree() if d == 0)] *)
Definition isolates (G : DiGraph) : list string :=
  filter (fun n => Nat.eqb (degree G n) 0) (nodes G).

End NX.

(** ** Exceptions and the state of a store

    Every failure of [StateGraph] is a Python [ValueError]; the three
    messages it uses are the three kinds of the error taxonomy.  A failed
    dictionary lookup inside a method is a [KeyError], an index past the
    end of a list an [IndexError]. *)

Inductive error : Type :=
| AlreadyExists (id : string)      (* "Node 'id' already exists" *)
| InvalidArgument (ty : string)    (* "Invalid node type: ty" *)
| NotFound (what : string)         (* "... 'what' does not exist" *)
| KeyError (key : string)
| IndexError.

Inductive result (A : Type) : Type :=
| Ok (a : A)
| Raise (e : error).
Arguments Ok {A} a.
Arguments Raise {A} e.

(** A method call: it reads and writes [self.graph] and returns or raises.
    What was written before a [raise] stays written. *)
Definition M (A : Type) : Type := DiGraph -> result A * DiGraph.

Definition ret {A} (a : A) : M A := fun G => (Ok a, G).
Definition raise {A} (e : error) : M A := fun G => (Raise e, G).
Definition bind {A B} (m : M A) (k : A -> M B) : M B :=
  fun G => match m G with
           | (Ok a, G') => k a G'
           | (Raise e, G') => (Raise e, G')
           end.
Definition graph : M DiGraph := fun G => (Ok G, G).
Definition modify (f : DiGraph -> DiGraph) : M unit := fun G => (Ok tt, f G).

Notation "x <- m ;; k" := (bind m (fun x => k))
  (at level 61, m at next level, right associativity).
Notation "m ;;; k" := (bind m (fun _ => k))
  (at level 61, right associativity).

(** The graph a call leaves behind, and what it returns *)
Definition state_after {A} (m : M A) (G : DiGraph) : DiGraph := snd (m G).
Definition outcome {A} (m : M A) (G : DiGraph) : result A := fst (m G).

(** Python truthiness of a string and of the [x or default] idiom *)
Definition truthy (s : string) : bool := negb (String.eqb s "").

Definition or_str (x : option string) (default : string) : string :=
  match x with
  | Some s => if truthy s then s else default
  | None => default
  end.

Definition or_dict (x : option attrs) : attrs :=
  match x with Some d => d | None => [] end.

(** [list.sort(key=...)] is stable: insertion sort, an element going before
    the first one whose key is not smaller. *)
Fixpoint insert_by {A} (key : A -> Z) (x : A) (l : list A) : list A :=
  match l with
  | [] => [x]
  | y :: r => if (key x <=? key y)%Z then x :: y :: r
              else y :: insert_by key x r
  end.

Definition sort_by {A} (key : A -> Z) (l : list A) : list A :=
  fold_right (insert_by key) [] l.

(** ** The methods of [StateGraph] (state_graph.py)

    The class body binds most method names twice; a Python class body is
    executed top to bottom into a namespace dictionary, so the binding in
    effect is the last one.  The bodies below are the effective ones.
    Every method runs under the object's re-entrant lock, so calls on one
    store do not interleave: a call is a function of the state. *)

Module StateGraph.

Definition node_types : list string :=
  ["action"; "decision"; "verification"; "loop"; "success"; "failure"].

(** The dictionary [node_attrs] that [add_node] builds (lines 404-413) *)
Definition node_attrs (node_id node_type : string) (label : option string)
    (phase : option Z) (tool : option string) (properties : option attrs)
  : attrs :=
  let node_attrs :=
    [("node_type", VStr node_type);
     ("label", VStr (or_str label node_id));
     ("properties", VDict (or_dict properties))] in
  let node_attrs :=
    match phase with
    | Some p => set "phase" (VInt p) node_attrs
    | None => node_attrs
    end in
  match tool with
  | Some t => set "tool" (VStr t) node_attrs
  | None => node_attrs
  end.

(** [add_node] (lines 374-421) *)
Definition add_node (node_id node_type : string) (label : option string)
    (phase : option Z) (tool : option string) (properties : option attrs)
  : M attrs :=
  G <- graph ;;
  if NX.has_node G node_id then raise (AlreadyExists node_id)
  else if negb (mem node_type node_types) then
    raise (InvalidArgument node_type)
  else
    modify (NX.add_node node_id
              (node_attrs node_id node_type label phase tool properties)) ;;;
    ret [("node_id", VStr node_id); ("node_type", VStr node_type);
         ("status", VStr "added")].

(** A conditional store [if x is not None: G.nodes[n][key] = f x] *)
Definition set_if_given {A} (n key : string) (f : A -> value)
    (x : option A) : M unit :=
  match x with
  | Some a => modify (NX.set_node_attr n key (f a))
  | None => ret tt
  end.

(** [update_node] (lines 423-461).  The existing [properties] value is
    always a dictionary: [add_node] stores one and nothing else writes
    the key. *)
Definition update_node (node_id : string) (label : option string)
    (phase : option Z) (tool : option string) (properties : option attrs)
  : M attrs :=
  G <- graph ;;
  if negb (NX.has_node G node_id) then raise (NotFound node_id)
  else
    set_if_given node_id "label" VStr label ;;;
    set_if_given node_id "phase" VInt phase ;;;
    set_if_given node_id "tool" VStr tool ;;;
    match properties with
    | Some props =>
        G1 <- graph ;;
        let stored :=
          match get node_id (_node G1) with Some a => a | None => [] end in
        let existing_props :=
          match get "properties" stored with
          | Some (VDict d) => d
          | _ => []
          end in
        modify (NX.set_node_attr node_id "properties"
                  (VDict (update existing_props props)))
    | None => ret tt
    end ;;;
    ret [("node_id", VStr node_id); ("status", VStr "updated")].

(** [remove_node] (lines 463-481) *)
Definition remove_node (node_id : string) : M attrs :=
  G <- graph ;;
  if negb (NX.has_node G node_id) then raise (NotFound node_id)
  else
    modify (NX.remove_node node_id) ;;;
    ret [("node_id", VStr node_id); ("status", VStr "removed")].

(** The dictionary [edge_attrs] that [add_edge] builds (lines 509-515) *)
Definition edge_attrs (order : Z) (condition : option string)
    (properties : option attrs) : attrs :=
  let edge_attrs :=
    [("order", VInt order); ("properties", VDict (or_dict properties))] in
  match condition with
  | Some c => set "condition" (VStr c) edge_attrs
  | None => edge_attrs
  end.

(** [add_edge] (lines 483-523) *)
Definition add_edge (from_node to_node : string) (order : Z)
    (condition : option string) (properties : option attrs) : M attrs :=
  G <- graph ;;
  if negb (NX.has_node G from_node) then raise (NotFound from_node)
  else if negb (NX.has_node G to_node) then raise (NotFound to_node)
  else
    modify (NX.add_edge from_node to_node
              (edge_attrs order condition properties)) ;;;
    ret [("from", VStr from_node); ("to", VStr to_node);
         ("status", VStr "added")].

(** [remove_edge] (lines 525-545) *)
Definition remove_edge (from_node to_node : string) : M attrs :=
  G <- graph ;;
  if negb (NX.has_edge G from_node to_node) then
    raise (NotFound (from_node ++ "->" ++ to_node))
  else
    modify (NX.remove_edge from_node to_node) ;;;
    ret [("from", VStr from_node); ("to", VStr to_node);
         ("status", VStr "removed")].

(** [set_edge_order] (lines 547-569) *)
Definition set_edge_order (from_node to_node : string) (order : Z)
  : M attrs :=
  G <- graph ;;
  if negb (NX.has_edge G from_node to_node) then
    raise (NotFound (from_node ++ "->" ++ to_node))
  else
    modify (NX.set_edge_attr from_node to_node "order" (VInt order)) ;;;
    ret [("from", VStr from_node); ("to", VStr to_node);
         ("order", VInt order); ("status", VStr "updated")].

(** [set_edge_condition] (lines 571-597) *)
Definition set_edge_condition (from_node to_node : string)
    (condition : option string) : M attrs :=
  G <- graph ;;
  if negb (NX.has_edge G from_node to_node) then
    raise (NotFound (from_node ++ "->" ++ to_node))
  else
    match condition with
    | None =>
        if contains "condition" (NX.edge_data G from_node to_node) then
          modify (NX.del_edge_attr from_node to_node "condition")
        else ret tt
    | Some c =>
        modify (NX.set_edge_attr from_node to_node "condition" (VStr c))
    end ;;;
    ret [("from", VStr from_node); ("to", VStr to_node);
         ("condition", match condition with
                       | Some c => VStr c | None => VNone end);
         ("status", VStr "updated")].

(** The [def] statements of the class body, in textual order, each with
    the line it starts on. *)
Definition class_body : list (string * nat) :=
  [("__init__", 12%nat); ("create_graph", 17%nat); ("add_node", 27%nat);
   ("update_node", 63%nat); ("remove_node", 92%nat); ("add_edge", 105%nat);
   ("remove_edge", 136%nat); ("set_edge_order", 150%nat);
   ("set_edge_condition", 165%nat); ("get_graph_info", 186%nat);
   ("validate_graph", 217%nat); ("get_node", 244%nat);
   ("list_nodes", 253%nat); ("get_edges", 263%nat);
   ("get_node_edges", 288%nat); ("find_path", 314%nat);
   ("get_execution_sequence", 328%nat); ("add_node", 374%nat);
   ("update_node", 423%nat); ("remove_node", 463%nat);
   ("add_edge", 483%nat); ("remove_edge", 525%nat);
   ("set_edge_order", 547%nat); ("set_edge_condition", 571%nat);
   ("get_graph_info", 599%nat); ("validate_graph", 634%nat);
   ("get_node", 666%nat); ("list_nodes", 681%nat); ("get_edges", 695%nat);
   ("get_node_edges", 728%nat); ("find_path", 761%nat)].

(** Executing the class body: each [def] stores into the namespace, a
    later one over the earlier. *)
Definition namespace : dict nat := update [] class_body.

(** How many [def] statements bind [name] *)
Definition times_defined (name : string) : nat :=
  List.length (filter (fun d => String.eqb (fst d) name) class_body).

(** The [get_node] of lines 244-251 *)
Definition get_node_at_244 (node_id : string) : M attrs :=
  G <- graph ;;
  match get node_id (_node G) with
  | None => raise (NotFound node_id)
  | Some a => ret (set "node_id" (VStr node_id) a)
  end.

(** The [get_node] of lines 666-679: [dict(self.graph.nodes[node_id])] *)
Definition get_node_at_666 (node_id : string) : M attrs :=
  G <- graph ;;
  match get node_id (_node G) with
  | None => raise (NotFound node_id)
  | Some a => ret a
  end.

(** [self.get_node]: the function the class namespace holds under the
    name *)
Definition get_node (node_id : string) : M attrs :=
  match get "get_node" namespace with
  | Some 244%nat => get_node_at_244 node_id
  | _ => get_node_at_666 node_id
  end.

(** [list_nodes] (lines 681-693) *)
Definition list_nodes : M (list attrs) :=
  G <- graph ;;
  ret (map (fun na => set "node_id" (VStr (fst na)) (snd na)) (_node G)).

(** The record built from one [(from, to, attrs)] triple of an edge view:
    [edge_data = dict(attrs); edge_data["from"] = ...; edge_data["to"] = ...] *)
Definition edge_record (e : string * string * attrs) : attrs :=
  match e with
  | (from_node, to_node, a) =>
      set "to" (VStr to_node) (set "from" (VStr from_node) a)
  end.

(** [get_edges] (lines 695-726) *)
Definition get_edges (node_id : option string) : M (list attrs) :=
  G <- graph ;;
  match node_id with
  | Some n =>
      if negb (NX.has_node G n) then raise (NotFound n)
      else ret (map edge_record (NX.in_edges G n)
                ++ map edge_record (NX.out_edges G n))%list
  | None => ret (map edge_record (NX.edges G))
  end.

(** The sort key [e.get("order", 0)]; [order] is an [int] by the
    signatures of [add_edge] and [set_edge_order]. *)
Definition order_key (e : attrs) : Z :=
  match get "order" e with Some (VInt z) => z | _ => 0%Z end.

(** The [while] loop of [get_execution_sequence] (lines 346-372), one
    unit of fuel per evaluation of the loop condition; [None] is an
    exhausted budget. *)
Fixpoint walk (fuel : nat) (G : DiGraph) (until_decision : bool)
    (current : string) (visited : list string) (sequence : list attrs)
  : option (result (list attrs)) :=
  match fuel with
  | O => None
  | S fuel' =>
      if negb (truthy current && negb (mem current visited)) then
        Some (Ok sequence)
      else
        let visited := current :: visited in
        match get current (_node G) with
        | None => Some (Raise (KeyError current))
        | Some a =>
            let node_data := set "node_id" (VStr current) a in
            let sequence := (sequence ++ [node_data])%list in
            if until_decision
               && value_is_str (get "node_type" node_data) "decision"
            then Some (Ok sequence)
            else
              let outgoing := map edge_record (NX.out_edges G current) in
              match outgoing with
              | [] => Some (Ok sequence)
              | _ :: _ =>
                  match sort_by order_key outgoing with
                  | [] => Some (Raise IndexError)
                  | next_edge :: _ =>
                      match get "to" next_edge with
                      | Some (VStr t) =>
                          walk fuel' G until_decision t visited sequence
                      | _ => Some (Raise (KeyError "to"))
                      end
                  end
              end
        end
  end.

(** [get_execution_sequence] (lines 328-372), bound once in the class
    body.  The loop adds a new node to [visited] on every turn, so one
    more turn than there are nodes is budget enough (proved below). *)
Definition get_execution_sequence (from_node : string)
    (until_decision : bool) : M (option (list attrs)) :=
  G <- graph ;;
  if negb (NX.has_node G from_node) then raise (NotFound from_node)
  else
    match walk (S (NX.number_of_nodes G)) G until_decision from_node [] []
    with
    | Some (Ok s) => ret (Some s)
    | Some (Raise e) => raise e
    | None => ret None
    end.

(** [find_path] (lines 761-781); [None] is the exhausted budget of the
    search model. *)
Definition find_path (from_node to_node : string)
  : M (option (list string)) :=
  G <- graph ;;
  if negb (NX.has_node G from_node) then raise (NotFound from_node)
  else if negb (NX.has_node G to_node) then raise (NotFound to_node)
  else
    match NX.shortest_path G from_node to_node with
    | NX.Found path => ret (Some path)
    | NX.NoPath => ret (Some [])
    | NX.OutOfFuel => ret None
    end.

(** [create_graph] (lines 17-25); [graph_id] is [self.graph_id]. *)
Definition create_graph (graph_id : string) : M attrs :=
  ret [("graph_id", VStr graph_id); ("status", VStr "created");
       ("num_nodes", VInt 0); ("num_edges", VInt 0)].

(** The dictionary [get_node_edges] returns *)
Record node_edges : Type := mkNodeEdges {
  edges_node_id : string;
  incoming : list attrs;
  outgoing : list attrs
}.

(** [get_node_edges] (lines 728-759) *)
Definition get_node_edges (node_id : string) : M node_edges :=
  G <- graph ;;
  if negb (NX.has_node G node_id) then raise (NotFound node_id)
  else ret (mkNodeEdges node_id
              (map edge_record (NX.in_edges G node_id))
              (map edge_record (NX.out_edges G node_id))).

(** The dictionary [get_graph_info] returns *)
Record graph_info : Type := mkGraphInfo {
  info_graph_id : string;
  info_num_nodes : nat;
  info_num_edges : nat;
  info_node_types : dict nat;
  info_phases : list Z;
  info_decision_points : nat;
  info_loops : nat
}.

(** [self.graph.nodes[node]] for a node of the graph *)
Definition node_data_of (G : DiGraph) (node : string) : attrs :=
  match get node (_node G) with Some a => a | None => [] end.

(** [node_data.get("node_type", "unknown")]; the stored type is a string,
    [add_node] being the only writer of the key. *)
Definition stored_type (node_data : attrs) : string :=
  match get "node_type" node_data with
  | Some (VStr t) => t
  | _ => "unknown"
  end.

(** [phases.add(p)] on a set of integers *)
Definition set_add (p : Z) (phases : list Z) : list Z :=
  if existsb (Z.eqb p) phases then phases else (phases ++ [p])%list.

(** The counters of [get_graph_info]: [node_types], [phases],
    [decision_count], [loop_count] *)
Definition counters : Type := (dict nat * list Z * nat * nat)%type.

(** One turn of the loop of [get_graph_info] (lines 611-622); a phase is
    an [int] by the signatures of [add_node] and [update_node]. *)
Definition count_node (G : DiGraph) (acc : counters) (node : string)
  : counters :=
  match acc with
  | (node_types, phases, decision_count, loop_count) =>
      let node_data := node_data_of G node in
      let node_type := stored_type node_data in
      let node_types :=
        set node_type
            (match get node_type node_types with Some c => c | None => 0 end
             + 1)
            node_types in
      let phases :=
        match get "phase" node_data with
        | Some (VInt p) => set_add p phases
        | _ => phases
        end in
      if String.eqb node_type "decision" then
        (node_types, phases, decision_count + 1, loop_count)
      else if String.eqb node_type "loop" then
        (node_types, phases, decision_count, loop_count + 1)
      else (node_types, phases, decision_count, loop_count)
  end.

(** [get_graph_info] (lines 599-632); [sorted] is the stable sort. *)
Definition get_graph_info (graph_id : string) : M graph_info :=
  G <- graph ;;
  match fold_left (count_node G) (NX.nodes G) ([], [], 0, 0) with
  | (node_types, phases, decision_count, loop_count) =>
      ret (mkGraphInfo graph_id
             (NX.number_of_nodes G) (NX.number_of_edges G)
             node_types
             (match phases with
              | [] => []
              | _ :: _ => sort_by (fun p => p) phases
              end)
             decision_count loop_count)
  end.

(** A warning of [validate_graph], by its kind and the data its text
    embeds *)
Inductive warning : Type :=
| IsolatedNodes (isolated : list string)
| MultipleEntryPoints (entry_points : list string)
| ContainsCycles (count : nat).

(** The list comprehension of line 649: the nodes with no incoming edge,
    in the order of the nodes *)
Definition entry_points (G : DiGraph) : list string :=
  filter (fun n => Nat.eqb (NX.in_degree G n) 0) (NX.nodes G).

Section Validate.
(** [nx.simple_cycles], the enumeration of the elementary cycles, is
    library code; it is a parameter here, [None] standing for a call
    that raises, which the [try] of lines 654-659 passes over. *)
Variable simple_cycles : DiGraph -> option (list (list string)).

(** [validate_graph] (lines 634-664): the value under ["valid"] and the
    list under ["warnings"] *)
Definition validate_graph : M (bool * list warning) :=
  G <- graph ;;
  let warnings := [] in
  let isolated := NX.isolates G in
  let warnings :=
    match isolated with
    | [] => warnings
    | _ :: _ => (warnings ++ [IsolatedNodes isolated])%list
    end in
  let entry_points := entry_points G in
  let warnings :=
    if Nat.ltb 1 (length entry_points)
    then (warnings ++ [MultipleEntryPoints entry_points])%list
    else warnings in
  let warnings :=
    match simple_cycles G with
    | Some ((_ :: _) as cycles) =>
        (warnings ++ [ContainsCycles (length cycles)])%list
    | _ => warnings
    end in
  ret (true, warnings).
End Validate.

End StateGraph.

(** ** The bulk tools of [GraphMCPServer._call_tool] (server.py)

    [g] is the store [_get_graph] returned; the loop calls the single-item
    method on it once per item, and an exception leaves the loop. *)

Module Server.

(** An item of [args["nodes"]] *)
Record node_spec : Type := mkNodeSpec {
  node_id : string;
  node_type : string;
  label : option string;
  phase : option Z;
  tool : option string;
  node_properties : option attrs
}.

(** An item of [args["edges"]]; [order] is [edge.get("order", 0)] *)
Record edge_spec : Type := mkEdgeSpec {
  from_node : string;
  to_node : string;
  order : Z;
  condition : option string;
  edge_properties : option attrs
}.

Definition add_node_item (node : node_spec) : M attrs :=
  StateGraph.add_node (node_id node) (node_type node) (label node)
    (phase node) (tool node) (node_properties node).

Definition add_edge_item (edge : edge_spec) : M attrs :=
  StateGraph.add_edge (from_node edge) (to_node edge) (order edge)
    (condition edge) (edge_properties edge).

(** The records [add_node] and [add_edge] return for an item *)
Definition node_confirmation (node : node_spec) : attrs :=
  [("node_id", VStr (node_id node)); ("node_type", VStr (node_type node));
   ("status", VStr "added")].

Definition edge_confirmation (edge : edge_spec) : attrs :=
  [("from", VStr (from_node edge)); ("to", VStr (to_node edge));
   ("status", VStr "added")].

(** [for x in items: created.append(call(x))] *)
Fixpoint for_each {A} (call : A -> M attrs) (items : list A)
    (created : list attrs) : M (list attrs) :=
  match items with
  | [] => ret created
  | x :: rest =>
      r <- call x ;;
      for_each call rest (created ++ [r])%list
  end.

(** [bulk_add_nodes] (lines 593-608); the result is the list under the
    key ["created"]. *)
Definition bulk_add_nodes (nodes : list node_spec) : M (list attrs) :=
  for_each add_node_item nodes [].

(** [bulk_add_edges] (lines 610-624) *)
Definition bulk_add_edges (edges : list edge_spec) : M (list attrs) :=
  for_each add_edge_item edges [].

End Server.

(** ** Histories of a store *)

(** The mutating operations of a store, with their arguments *)
Inductive op : Type :=
| AddNode (node_id node_type : string) (label : option string)
    (phase : option Z) (tool : option string) (properties : option attrs)
| UpdateNode (node_id : string) (label : option string) (phase : option Z)
    (tool : option string) (properties : option attrs)
| RemoveNode (node_id : string)
| AddEdge (from_node to_node : string) (order : Z)
    (condition : option string) (properties : option attrs)
| RemoveEdge (from_node to_node : string)
| SetEdgeOrder (from_node to_node : string) (order : Z)
| SetEdgeCondition (from_node to_node : string) (condition : option string).

Definition call (o : op) : M attrs :=
  match o with
  | AddNode n t l p tl pr => StateGraph.add_node n t l p tl pr
  | UpdateNode n l p tl pr => StateGraph.update_node n l p tl pr
  | RemoveNode n => StateGraph.remove_node n
  | AddEdge u v o c pr => StateGraph.add_edge u v o c pr
  | RemoveEdge u v => StateGraph.remove_edge u v
  | SetEdgeOrder u v o => StateGraph.set_edge_order u v o
  | SetEdgeCondition u v c => StateGraph.set_edge_condition u v c
  end.

(** The state after a sequence of calls, failed ones included *)
Definition run (ops : list op) (G : DiGraph) : DiGraph :=
  fold_left (fun G o => state_after (call o) G) ops G.

(** A state a store can be in: [StateGraph(graph_id)] followed by calls *)
Definition reachable (G : DiGraph) : Prop :=
  exists ops, G = run ops NX.empty.

(** ** The representation invariant of a DiGraph

    What networkx maintains between its three dictionaries: the same keys
    in each, no key twice, and [_pred] the mirror image of [_succ]. *)

Record wf (G : DiGraph) : Prop := mkWf {
  wf_node_nodup : NoDup (keys (_node G));
  wf_succ_nodup : NoDup (keys (_succ G));
  wf_pred_nodup : NoDup (keys (_pred G));
  wf_succ_keys : forall n, In n (keys (_succ G)) <-> In n (keys (_node G));
  wf_pred_keys : forall n, In n (keys (_pred G)) <-> In n (keys (_node G));
  wf_succ_inner : forall u, NoDup (keys (NX.succ_of G u));
  wf_pred_inner : forall v, NoDup (keys (NX.pred_of G v));
  wf_mirror : forall u v,
    In v (keys (NX.succ_of G u)) <-> In u (keys (NX.pred_of G v))
}.

(** ** The state changes of the methods, as functions *)

(** Writing the data of the edge [(u, v)], new or not *)
Definition put_edge (u v : string) (dd : attrs) (G : DiGraph) : DiGraph :=
  mkDiGraph (_node G)
            (set u (set v dd (NX.succ_of G u)) (_succ G))
            (set v (set u tt (NX.pred_of G v)) (_pred G)).

(** The stores of [update_node], in the order the method makes them *)
Definition store_if {A} (n key : string) (f : A -> value) (x : option A)
    (G : DiGraph) : DiGraph :=
  match x with Some a => NX.set_node_attr n key (f a) G | None => G end.

Definition merge_properties (n : string) (props : attrs) (G : DiGraph)
  : value :=
  VDict (update
           match get "properties"
                     (match get n (_node G) with Some a => a | None => [] end)
           with
           | Some (VDict d) => d
           | _ => []
           end props).

Definition updated (n : string) (l : option string) (p : option Z)
    (tl : option string) (pr : option attrs) (G : DiGraph) : DiGraph :=
  let G3 := store_if n "tool" VStr tl
              (store_if n "phase" VInt p (store_if n "label" VStr l G)) in
  match pr with
  | Some props =>
      NX.set_node_attr n "properties" (merge_properties n props G3) G3
  | None => G3
  end.

Definition condition_set (u v : string) (c : option string) (G : DiGraph)
  : DiGraph :=
  match c with
  | Some x => NX.set_edge_attr u v "condition" (VStr x) G
  | None => if contains "condition" (NX.edge_data G u v)
            then NX.del_edge_attr u v "condition" G else G
  end.


(** [_pred] after the first loop of [remove_node], and the predecessors the
    second loop runs over *)
Definition removal_pred1 (n : string) (G : DiGraph) : dict (dict unit) :=
  fold_left (NX.del_in n) (keys (NX.succ_of G n)) (_pred G).

Definition removal_ps (n : string) (G : DiGraph) : dict unit :=
  match get n (removal_pred1 n G) with Some x => x | None => [] end.

(** ** What a store keeps about a node *)

(** The keys [add_node] and [update_node] write *)
Definition node_keys : list string :=
  ["node_type"; "label"; "properties"; "phase"; "tool"].

(** A stored attribute mapping: keys among [node_keys]; a type, a label and
    a properties dictionary always there *)
Definition node_ok (a : attrs) : Prop :=
  (forall k, In k (keys a) -> In k node_keys)
  /\ (exists t, get "node_type" a = Some (VStr t)
                /\ In t StateGraph.node_types)
  /\ (exists l, get "label" a = Some (VStr l))
  /\ (exists d, get "properties" a = Some (VDict d)).

Definition nodes_ok (G : DiGraph) : Prop :=
  forall n a, get n (_node G) = Some a -> node_ok a.

(** ** Example histories *)

(** The workflow of the spec's examples: A (action) -> B (decision) ->
    C (action), both edges of order 0 *)
Definition ops_workflow : list op :=
  [AddNode "A" "action" None None None None;
   AddNode "B" "decision" None None None None;
   AddNode "C" "action" None None None None;
   AddEdge "A" "B" 0 None None;
   AddEdge "B" "C" 0 None None].

(** The two-node cycle A -> B -> A, both action nodes *)
Definition ops_cycle : list op :=
  [AddNode "A" "action" None None None None;
   AddNode "B" "action" None None None None;
   AddEdge "A" "B" 0 None None;
   AddEdge "B" "A" 0 None None].

(** One edge A -> B carrying the condition "yes" *)
Definition ops_conditional : list op :=
  [AddNode "A" "action" None None None None;
   AddNode "B" "action" None None None None;
   AddEdge "A" "B" 0 (Some "yes") None].

(** A self-loop on A and an edge A -> B *)
Definition ops_self_loop : list op :=
  [AddNode "A" "action" None None None None;
   AddNode "B" "action" None None None None;
   AddEdge "A" "A" 0 None None;
   AddEdge "A" "B" 1 None None].

(** A single node whose id is the empty string *)
Definition ops_empty_id : list op :=
  [AddNode "" "action" None None None None].

(** ** The execution sequence, in the words of the spec *)

(** The record the walk emits for a node: its data with its id embedded *)
Definition node_record (G : DiGraph) (c : string) : option attrs :=
  option_map (set "node_id" (VStr c)) (get c (_node G)).

Definition is_decision (r : attrs) : bool :=
  value_is_str (get "node_type" r) "decision".

(** [x] has the least key of [l] and is the first to have it. *)
Definition first_min {A} (key : A -> Z) (l : list A) (x : A) : Prop :=
  exists l1 l2,
    l = (l1 ++ x :: l2)%list
    /\ (forall y, In y l1 -> (key x < key y)%Z)
    /\ (forall y, In y l2 -> (key x <= key y)%Z).

(** The [order] of an edge of an edge view *)
Definition edge_order (e : string * string * attrs) : Z :=
  StateGraph.order_key (snd e).

(** The walk of section 4.1: from the current node, with the ids emitted so
    far, to the records emitted from here on.  [stop] is the condition
    under which the walk halts before emitting the current node. *)
Inductive sequence_from (stop : string -> list string -> Prop)
    (G : DiGraph) (until_decision : bool)
  : string -> list string -> list attrs -> Prop :=
| seq_halt c emitted :
    stop c emitted ->
    sequence_from stop G until_decision c emitted []
| seq_decision c emitted r :
    ~ stop c emitted ->
    node_record G c = Some r ->
    until_decision = true -> is_decision r = true ->
    sequence_from stop G until_decision c emitted [r]
| seq_dead_end c emitted r :
    ~ stop c emitted ->
    node_record G c = Some r ->
    until_decision && is_decision r = false ->
    NX.out_edges G c = [] ->
    sequence_from stop G until_decision c emitted [r]
| seq_advance c emitted r e rest :
    ~ stop c emitted ->
    node_record G c = Some r ->
    until_decision && is_decision r = false ->
    first_min edge_order (NX.out_edges G c) e ->
    sequence_from stop G until_decision (snd (fst e)) (c :: emitted) rest ->
    sequence_from stop G until_decision c emitted (r :: rest).

(** The cycle guard of the spec: the node was already emitted. *)
Definition revisit (c : string) (emitted : list string) : Prop :=
  In c emitted.

(** The loop condition of the code, negated: [not current] or
    [current in visited]. *)
Definition empty_or_revisit (c : string) (emitted : list string) : Prop :=
  c = "" \/ In c emitted.

(** ** Counting edges *)

(** The edge starts or ends at [n]. *)
Definition incident (n : string) (e : string * string * attrs) : bool :=
  String.eqb (fst (fst e)) n || String.eqb (snd (fst e)) n.

(** The edge record names [u] as its source and [v] as its target. *)
Definition record_joins (u v : string) (r : attrs) : bool :=
  value_is_str (get "from" r) u && value_is_str (get "to" r) v.

(** How many records of a result are the edge from [u] to [v] *)
Definition occurrences (u v : string) (rs : list attrs) : nat :=
  length (filter (record_joins u v) rs).

(** ** Directed paths *)

(** [path G a b l]: [l] lists the nodes of a directed path of [G] from [a]
    to [b], both included. *)
Inductive path (G : DiGraph) (a : string) : string -> list string -> Prop :=
| path_start : path G a a [a]
| path_step b c l :
    path G a b l -> NX.has_edge G b c = true -> path G a c (l ++ [c])%list.

(** The nodes a frontier holds *)
Definition heads (frontier : list NX.entry) : list string :=
  map fst frontier.

(** The state of the search from [s] for [t] after [k] levels: the frontier
    holds paths of [k] edges; what was seen before the frontier is closed
    under the edges, holds every node nearer than [k] edges, and does not
    hold the target. *)
Record bfs_inv (G : DiGraph) (s t : string) (k : nat)
    (frontier : list NX.entry) (seen : list string) : Prop := mkBfsInv {
  inv_paths : forall q, In q frontier ->
    path G s (fst q) (rev (fst q :: snd q))
    /\ length (fst q :: snd q) = S k;
  inv_nodup : NoDup seen;
  inv_nodes : incl seen (NX.nodes G);
  inv_heads : incl (heads frontier) seen;
  inv_source : In s seen;
  inv_closed : forall u v,
    In u seen -> ~ In u (heads frontier) ->
    NX.has_edge G u v = true -> In v seen;
  inv_near : forall v l,
    path G s v l -> length l <= k -> In v seen /\ ~ In v (heads frontier);
  inv_level : forall v l, path G s v l -> length l = S k -> In v seen;
  inv_target : In t seen -> In t (heads frontier)
}.

(** ** What a store keeps about an edge, and the types of stored values *)

(** The keys [add_edge] and the edge setters write *)
Definition edge_keys : list string := ["order"; "properties"; "condition"].

(** A stored edge data mapping: no key twice, keys among [edge_keys], an
    integer order and a properties dictionary always there, a string
    condition when there is one *)
Definition edge_ok (a : attrs) : Prop :=
  NoDup (keys a)
  /\ (forall k, In k (keys a) -> In k edge_keys)
  /\ (exists z, get "order" a = Some (VInt z))
  /\ (exists d, get "properties" a = Some (VDict d))
  /\ (forall x, get "condition" a = Some x -> exists s, x = VStr s).

(** A stored node attribute mapping has no key twice, its type is one of
    the six, its label a string, its properties a dictionary, and its
    phase and tool, when there, an integer and a string. *)
Definition node_typed (a : attrs) : Prop :=
  NoDup (keys a)
  /\ node_ok a
  /\ (forall x, get "phase" a = Some x -> exists z, x = VInt z)
  /\ (forall x, get "tool" a = Some x -> exists s, x = VStr s).

(** ** What [get_graph_info] counts *)

(** [d.get(t, 0)] on a dictionary of counts *)
Definition count_of (t : string) (d : dict nat) : nat :=
  match get t d with Some c => c | None => 0 end.

(** The nodes of a list whose stored type is [t] *)
Definition nodes_of_type (G : DiGraph) (t : string) (l : list string)
  : list string :=
  filter (fun n => String.eqb (StateGraph.stored_type
                                 (StateGraph.node_data_of G n)) t) l.

(** The counters after the loop of [get_graph_info] has been over the
    nodes [l] *)
Record info_inv (G : DiGraph) (l : list string) (acc : StateGraph.counters)
  : Prop := mkInfoInv {
  info_types_NoDup : NoDup (keys (fst (fst (fst acc))));
  info_types_count : forall t,
    count_of t (fst (fst (fst acc))) = length (nodes_of_type G t l);
  info_types_positive : forall t c,
    get t (fst (fst (fst acc))) = Some c -> 0 < c;
  info_types_sum : list_sum (map snd (fst (fst (fst acc)))) = length l;
  info_decisions : snd (fst acc) = length (nodes_of_type G "decision" l);
  info_loop_nodes : snd acc = length (nodes_of_type G "loop" l);
  info_phases_NoDup : NoDup (snd (fst (fst acc)));
  info_phases_In : forall p,
    In p (snd (fst (fst acc))) <->
    exists n, In n l
              /\ get "phase" (StateGraph.node_data_of G n) = Some (VInt p)
}.

(** ** Graph files: what the exporters write and the importers read
    (visualization.py, server.py, app.py)

    A graph file holds a dictionary with the keys ["graph_id"], ["nodes"]
    (a mapping from node ids, which are strings, to node dictionaries)
    and ["edges"] (a list of edge dictionaries).  The values inside the
    node and edge dictionaries of a file are of any type. *)

Module Files.

(** The parsed file, [data]: [data.get("graph_id")], [data.get("nodes", {})]
    and [data.get("edges", [])] *)
Record file_data : Type := mkFileData {
  data_graph_id : option string;
  data_nodes : dict attrs;
  data_edges : list attrs
}.

(** Python truthiness of a value *)
Definition truthy_value (v : value) : bool :=
  match v with
  | VNone => false
  | VBool b => b
  | VInt z => negb (Z.eqb z 0)
  | VStr s => truthy s
  | VList l => match l with [] => false | _ :: _ => true end
  | VDict d => match d with [] => false | _ :: _ => true end
  end.

(** [a or b] *)
Definition py_or (a b : value) : value := if truthy_value a then a else b.

(** [d.get(k)] and [d.get(k, default)] *)
Definition py_get (k : string) (d : attrs) : value :=
  match get k d with Some v => v | None => VNone end.

Definition py_get_default (k : string) (default : value) (d : attrs)
  : value :=
  match get k d with Some v => v | None => default end.

(** What [add_node] and [add_edge] raise, with the value they name *)
Inductive rejection : Type :=
| NodeExists (node_id : string)        (* "Node '...' already exists" *)
| InvalidNodeType (node_type : value)  (* "Invalid node type: ..." *)
| NoSuchNode (node : value).           (* "... node '...' does not exist" *)

(** A call on the store being filled: the rejection, if any, and the
    graph it leaves *)
Definition filling : Type := DiGraph -> option rejection * DiGraph.

(** [add_node] (state_graph.py lines 374-421) as an importer calls it,
    with values read from a file in the place of the typed arguments; the
    node id is a key of the ["nodes"] mapping. *)
Definition add_node (node_id : string)
    (node_type label phase tool properties : value) : filling :=
  fun G =>
    if NX.has_node G node_id then (Some (NodeExists node_id), G)
    else if negb (match node_type with
                  | VStr t => mem t StateGraph.node_types
                  | _ => false
                  end)
    then (Some (InvalidNodeType node_type), G)
    else
      let node_attrs :=
        [("node_type", node_type);
         ("label", py_or label (VStr node_id));
         ("properties", py_or properties (VDict []))] in
      let node_attrs :=
        match phase with
        | VNone => node_attrs
        | _ => set "phase" phase node_attrs
        end in
      let node_attrs :=
        match tool with
        | VNone => node_attrs
        | _ => set "tool" tool node_attrs
        end in
      (None, NX.add_node node_id node_attrs G).

(** [n in self.graph] for a value: a node of the graph is a string, and a
    value that cannot be hashed is in no graph. *)
Definition known (G : DiGraph) (n : value) : option string :=
  match n with
  | VStr s => if NX.has_node G s then Some s else None
  | _ => None
  end.

(** [add_edge] (state_graph.py lines 483-523) as an importer calls it *)
Definition add_edge (from_node to_node order condition properties : value)
  : filling :=
  fun G =>
    match known G from_node with
    | None => (Some (NoSuchNode from_node), G)
    | Some u =>
        match known G to_node with
        | None => (Some (NoSuchNode to_node), G)
        | Some v =>
            let edge_attrs :=
              [("order", order);
               ("properties", py_or properties (VDict []))] in
            let edge_attrs :=
              match condition with
              | VNone => edge_attrs
              | _ => set "condition" condition edge_attrs
              end in
            (None, NX.add_edge u v edge_attrs G)
        end
    end.

(** One turn of the node loop (server.py lines 663-671, app.py lines
    95-103) *)
Definition import_node (node_id : string) (node_data : attrs) : filling :=
  add_node node_id
    (py_or (py_get "node_type" node_data)
           (py_get_default "type" (VStr "action") node_data))
    (py_or (py_get "label" node_data) (py_get "name" node_data))
    (py_get "phase" node_data)
    (py_get "tool" node_data)
    (py_get "properties" node_data).

(** One turn of the edge loop (server.py lines 673-680, app.py lines
    106-113) *)
Definition import_edge (edge : attrs) : filling :=
  add_edge
    (py_or (py_get "from" edge) (py_get "parent" edge))
    (py_or (py_get "to" edge) (py_get "child" edge))
    (py_get_default "order" (VInt 0) edge)
    (py_get "condition" edge)
    (py_get "properties" edge).

(** [for x in items: call(x)]; a rejection leaves the loop. *)
Fixpoint each {A} (call : A -> filling) (items : list A) : filling :=
  fun G =>
    match items with
    | [] => (None, G)
    | x :: rest =>
        match call x G with
        | (None, G') => each call rest G'
        | (Some r, G') => (Some r, G')
        end
    end.

(** The two loops, on the store [g] *)
Definition populate (data : file_data) : filling :=
  fun G =>
    match each (fun kv => import_node (fst kv) (snd kv)) (data_nodes data) G
    with
    | (None, G') => each import_edge (data_edges data) G'
    | (Some r, G') => (Some r, G')
    end.

(** [_create_graph_from_data] (app.py lines 88-115): the graph id and the
    graph of the store it returns, or the exception that leaves it *)
Definition _create_graph_from_data (data : file_data)
    (default_graph_id : string) : option rejection * (string * DiGraph) :=
  let graph_id :=
    match data_graph_id data with
    | Some graph_id => graph_id
    | None => default_graph_id
    end in
  (fst (populate data NX.empty), (graph_id, snd (populate data NX.empty))).

(** The dictionary [data] of [export_graph_yaml] and [export_graph_json]
    (visualization.py lines 125-138 and 158-171) *)
Definition export_data (graph : DiGraph) (graph_id : string) : file_data :=
  mkFileData (Some graph_id)
    (fold_left
       (fun nodes n =>
          set n (set "node_id" (VStr n) (StateGraph.node_data_of graph n))
              nodes)
       (NX.nodes graph) [])
    (map StateGraph.edge_record (NX.edges graph)).

(** [s.endswith(suffix)] *)
Definition ends_with (s suffix : string) : bool :=
  Nat.leb (String.length suffix) (String.length s)
  && String.eqb (substring (String.length s - String.length suffix)
                           (String.length suffix) s)
                suffix.

(** The two file formats *)
Inductive format : Type := Yaml | Json.

(** The reader [import_graph] picks for a path (server.py lines 652-657);
    [None] is the unsupported format. *)
Definition format_of_path (path : string) : option format :=
  if ends_with path ".yaml" || ends_with path ".yml" then Some Yaml
  else if ends_with path ".json" then Some Json
  else None.

(** The writer and the file name [export_graph] picks (server.py lines
    630-646); [filename] is [args.get("filename")].  [None] is the
    unsupported format. *)
Definition export_file (fmt graph_id : string) (filename : option string)
  : option (format * string) :=
  if String.eqb fmt "yaml" then
    let fname := or_str filename (graph_id ++ ".yaml") in
    Some (Yaml,
          if negb (ends_with fname ".yaml" || ends_with fname ".yml")
          then fname ++ ".yaml" else fname)
  else if String.eqb fmt "json" then
    let fname := or_str filename (graph_id ++ ".json") in
    Some (Json,
          if negb (ends_with fname ".json") then fname ++ ".json" else fname)
  else None.

(** The file name [visualize_graph] picks (visualization.py lines
    102-105) *)
Definition png_file (graph_id : string) (filename : option string)
  : string :=
  let filename :=
    match filename with
    | Some f => f
    | None => graph_id ++ ".png"
    end in
  if negb (ends_with filename ".png") then filename ++ ".png" else filename.

End Files.

(** ** Drawing a graph (visualization.py)

    The layout and the drawing are the work of networkx and matplotlib;
    what [visualize_graph] computes itself is the check for an empty
    graph, the colour of each node and the file name. *)

Module Visualization.

(** [type_colors] (lines 39-46) *)
Definition type_colors : dict string :=
  [("action", "#93c5fd"); ("decision", "#fcd34d");
   ("verification", "#c4b5fd"); ("loop", "#fb7185");
   ("success", "#86efac"); ("failure", "#fca5a5")].

(** The colour for nodes of no known type *)
Definition fallback_color : string := "#cbd5e1".

(** [type_colors.get(graph.nodes[n].get("node_type", "action"), "#cbd5e1")]
    (lines 49-50); [None] is the [TypeError] of a dictionary lookup with
    a value that cannot be hashed. *)
Definition node_color (node_data : attrs) : option string :=
  match Files.py_get_default "node_type" (VStr "action") node_data with
  | VStr t =>
      Some (match get t type_colors with
            | Some c => c
            | None => fallback_color
            end)
  | VList _ | VDict _ => None
  | VNone | VBool _ | VInt _ => Some fallback_color
  end.

(** The loop of lines 47-50 *)
Fixpoint node_colors (graph : DiGraph) (nodes : list string)
  : option (list string) :=
  match nodes with
  | [] => Some []
  | n :: rest =>
      match node_color (StateGraph.node_data_of graph n) with
      | None => None
      | Some c =>
          match node_colors graph rest with
          | None => None
          | Some cs => Some (c :: cs)
          end
      end
  end.

(** What a call comes to *)
Inductive drawing : Type :=
| EmptyGraph                     (* "Graph is empty, cannot visualize" *)
| Unhashable                     (* the [TypeError] of the colour lookup *)
| Drawn (node_colors : list string) (file : string).

(** [visualize_graph] (lines 14-120): the colours handed to networkx and
    the name of the file written *)
Definition visualize_graph (graph : DiGraph) (graph_id : string)
    (filename : option string) : drawing :=
  if Nat.eqb (NX.number_of_nodes graph) 0 then EmptyGraph
  else
    match node_colors graph (NX.nodes graph) with
    | None => Unhashable
    | Some cs => Drawn cs (Files.png_file graph_id filename)
    end.

End Visualization.

(** ** The registry of stores ([graphs], server.py line 27) and the tools
    that go through it *)

Module Registry.

(** [graphs: Dict[str, StateGraph]].  The store under an id was made by
    [StateGraph(graph_id)] with that id; it is represented by its graph. *)
Definition graphs : Type := dict DiGraph.

(** What makes a tool call fail: the two messages of the registry, or an
    exception of the store *)
Inductive failure : Type :=
| GraphExists (graph_id : string)    (* "Graph 'id' already exists" *)
| GraphMissing (graph_id : string)   (* "Graph 'id' does not exist" *)
| StoreError (e : error)
| Unsupported (what : string)        (* "Unsupported ... format ..." *)
| ReadFailed (path : string)         (* the exception of a reader *)
| Rejected (r : Files.rejection).

Inductive reply (A : Type) : Type :=
| Done (a : A)
| Failed (f : failure).
Arguments Done {A} a.
Arguments Failed {A} f.

(** A tool call: it reads and writes the registry and returns or raises. *)
Definition T (A : Type) : Type := graphs -> reply A * graphs.

(** [_get_graph] (lines 721-724) *)
Definition _get_graph (graph_id : string) (gs : graphs) : reply DiGraph :=
  match get graph_id gs with
  | Some g => Done g
  | None => Failed (GraphMissing graph_id)
  end.

(** [g = self._get_graph(graph_id); return g.method(...)]: the method runs
    on the registered store, which it changes in place. *)
Definition on_graph {A} (graph_id : string) (m : M A) : T A :=
  fun gs =>
    match _get_graph graph_id gs with
    | Failed f => (Failed f, gs)
    | Done G =>
        match m G with
        | (Ok a, G') => (Done a, set graph_id G' gs)
        | (Raise e, G') => (Failed (StoreError e), set graph_id G' gs)
        end
    end.

(** [create_state_graph] (lines 462-468) *)
Definition create_state_graph (graph_id : string) : T attrs :=
  fun gs =>
    if contains graph_id gs then (Failed (GraphExists graph_id), gs)
    else on_graph graph_id (StateGraph.create_graph graph_id)
                  (set graph_id NX.empty gs).

(** [delete_state_graph] (lines 470-474) *)
Definition delete_state_graph (graph_id : string) : T attrs :=
  fun gs =>
    (Done [("graph_id", VStr graph_id); ("status", VStr "deleted")],
     if contains graph_id gs then del graph_id gs else gs).

(** [in_memory = list(graphs.keys())] of [list_state_graphs] (line 502) *)
Definition graphs_in_memory (gs : graphs) : list string := keys gs.

(** The tool calls that write: the two of the registry, the seven
    mutators of a store and the two bulk tools *)
Inductive request : Type :=
| CreateStateGraph (graph_id : string)
| DeleteStateGraph (graph_id : string)
| StoreCall (graph_id : string) (o : op)
| BulkAddNodes (graph_id : string) (nodes : list Server.node_spec)
| BulkAddEdges (graph_id : string) (edges : list Server.edge_spec).


(** [{"created": created}] *)
Definition created_reply (created : list attrs) : attrs :=
  [("created", VList (map VDict created))].

(** The branches of [_call_tool] (lines 458-719) for these tools *)
Definition _call_tool (r : request) : T attrs :=
  match r with
  | CreateStateGraph graph_id => create_state_graph graph_id
  | DeleteStateGraph graph_id => delete_state_graph graph_id
  | StoreCall graph_id o => on_graph graph_id (call o)
  | BulkAddNodes graph_id nodes =>
      on_graph graph_id
        (created <- Server.bulk_add_nodes nodes ;; ret (created_reply created))
  | BulkAddEdges graph_id edges =>
      on_graph graph_id
        (created <- Server.bulk_add_edges edges ;; ret (created_reply created))
  end.

(** The registry after a sequence of tool calls, failed ones included *)
Definition session (rs : list request) (gs : graphs) : graphs :=
  fold_left (fun gs r => snd (_call_tool r gs)) rs gs.

Section ImportGraph.
(** [import_graph_yaml] and [import_graph_json] (visualization.py lines
    187-196) open and parse a file; they are parameters here, [None]
    standing for a call that raises. *)
Variable import_graph_yaml import_graph_json
  : string -> option Files.file_data.

End ImportGraph.

(** [export_graph] (lines 627-646): the writer, the file name and the
    dictionary handed to the writer; the directory and the file system
    are left out. *)
Definition export_graph (graph_id fmt : string) (filename : option string)
    (gs : graphs) : reply (Files.format * string * Files.file_data) :=
  match _get_graph graph_id gs with
  | Failed f => Failed f
  | Done g =>
      match Files.export_file fmt graph_id filename with
      | None => Failed (Unsupported fmt)
      | Some (writer, fname) =>
          Done (writer, fname, Files.export_data g graph_id)
      end
  end.

End Registry.

(** The registry keeps each id once, and every store in it is in a state
    a store can be in. *)
Definition registry_ok (gs : Registry.graphs) : Prop :=
  NoDup (keys gs) /\ forall graph_id G, get graph_id gs = Some G -> reachable G.

(** A session with two stores *)
Definition rs_two_stores : list Registry.request :=
  [Registry.CreateStateGraph "g1";
   Registry.StoreCall "g1" (AddNode "A" "action" None None None None);
   Registry.CreateStateGraph "g2";
   Registry.BulkAddNodes "g2"
     [Server.mkNodeSpec "X" "action" None None None None;
      Server.mkNodeSpec "Y" "oops" None None None None;
      Server.mkNodeSpec "Z" "action" None None None None]].

(** ** What an imported graph is sure to satisfy *)

Record imported_ok (G : DiGraph) : Prop := mkImportedOk {
  imported_wf : wf G;
  imported_types : forall n a,
    get n (_node G) = Some a ->
    exists s, get "node_type" a = Some (VStr s)
              /\ In s StateGraph.node_types
}.

(** A file with a node of an unknown type between two good ones *)
Definition file_bad_type : Files.file_data :=
  Files.mkFileData None
    [("A", [("type", VStr "action"); ("name", VStr "first")]);
     ("B", [("node_type", VStr "step")]);
     ("C", [])]
    [[("from", VStr "A"); ("to", VStr "C")]].


(** The shape of a stored edge data mapping: the order, the properties
    and, last, the condition when there is one *)
Definition edge_shaped (a : attrs) : Prop :=
  exists o c d, a = StateGraph.edge_attrs o c (Some d).

(** The nodes of a file as the exporters write them *)
Definition exported_nodes (nodes : dict attrs) : dict attrs :=
  map (fun na => (fst na, set "node_id" (VStr (fst na)) (snd na))) nodes.

(** The edges that leave the nodes of an adjacency, in its order *)
Definition edges_of_adjacency (s : dict (dict attrs))
  : list (string * string * attrs) :=
  flat_map (fun un => map (fun kv => (fst un, fst kv, snd kv)) (snd un)) s.

(** The three dictionaries of a graph list the nodes in the same order. *)
Definition aligned (G : DiGraph) : Prop :=
  keys (_succ G) = keys (_node G) /\ keys (_pred G) = keys (_node G).

(** A list of node ids in which each id is joined to the next by an edge *)
Fixpoint chained (G : DiGraph) (cs : list string) : Prop :=
  match cs with
  | c :: rest =>
      match rest with
      | c' :: _ => NX.has_edge G c c' = true /\ chained G rest
      | [] => True
      end
  | [] => True
  end.

(** The records of a list of node ids *)
Definition records_of (G : DiGraph) (cs : list string) (s : list attrs)
  : Prop :=
  Forall2 (fun c r => node_record G c = Some r) cs s.

(** An edge from the node with the empty id *)
Definition ops_empty_edge : list op :=
  [AddNode "" "action" None None None None;
   AddNode "A" "action" None None None None;
   AddEdge "" "A" 0 None None].

(** * Properties *)

(** ** Dictionaries *)

Section DictFacts.
Context {V : Type}.
Implicit Types (d : dict V) (k : string) (v : V).

Lemma mem_In x l : mem x l = true <-> In x l.
Proof.
  unfold mem. rewrite existsb_exists. split.
  - intros (y & Hy & E). apply String.eqb_eq in E. now subst.
  - intros H. exists x. split; [assumption | apply String.eqb_refl].
Qed.

Lemma mem_false x l : mem x l = false <-> ~ In x l.
Proof.
  rewrite <- mem_In. destruct (mem x l); split; congruence.
Qed.

Lemma contains_keys k d : contains k d = true <-> In k (keys d).
Proof.
  unfold contains, keys. induction d as [|[k' v'] r IH]; simpl.
  - split; [discriminate | tauto].
  - destruct (String.eqb_spec k k') as [->|N].
    + split; auto.
    + rewrite IH. split; [auto | intros [E|H]; congruence].
Qed.

Lemma contains_false k d : contains k d = false <-> ~ In k (keys d).
Proof.
  rewrite <- contains_keys. destruct (contains k d); split; congruence.
Qed.

Lemma get_None k d : get k d = None <-> ~ In k (keys d).
Proof.
  rewrite <- contains_false. unfold contains.
  destruct (get k d); split; congruence.
Qed.

Lemma get_Some_keys k v d : get k d = Some v -> In k (keys d).
Proof.
  intros H. apply contains_keys. unfold contains. now rewrite H.
Qed.

Lemma keys_get k d : In k (keys d) -> exists v, get k d = Some v.
Proof.
  intros H. apply contains_keys in H. unfold contains in H.
  destruct (get k d) as [v|]; [now exists v | discriminate].
Qed.

Lemma get_In k v d : get k d = Some v -> In (k, v) d.
Proof.
  induction d as [|[k' v'] r IH]; simpl; [discriminate|].
  destruct (String.eqb_spec k k') as [->|N].
  - intros [= ->]. now left.
  - intros H. right. auto.
Qed.

Lemma In_get k v d : NoDup (keys d) -> In (k, v) d -> get k d = Some v.
Proof.
  induction d as [|[k' v'] r IH]; simpl; [tauto|].
  intros ND [E|H].
  - injection E as -> ->. now rewrite String.eqb_refl.
  - inversion ND as [|? ? NI ND']; subst.
    destruct (String.eqb_spec k k') as [->|N].
    + exfalso. apply NI. change (In k' (keys r)).
      unfold keys. now apply (in_map fst) in H.
    + auto.
Qed.

Lemma get_set_eq k v d : get k (set k v d) = Some v.
Proof.
  induction d as [|[k' v'] r IH]; simpl.
  - now rewrite String.eqb_refl.
  - destruct (String.eqb_spec k k') as [->|N]; simpl.
    + now rewrite String.eqb_refl.
    + destruct (String.eqb_spec k k'); [contradiction | assumption].
Qed.

Lemma get_set_neq k k' v d : k <> k' -> get k' (set k v d) = get k' d.
Proof.
  intros N. induction d as [|[k0 v0] r IH]; simpl.
  - destruct (String.eqb_spec k' k); [congruence | reflexivity].
  - destruct (String.eqb_spec k k0) as [->|N0]; simpl.
    + destruct (String.eqb_spec k' k0); [congruence | reflexivity].
    + destruct (String.eqb_spec k' k0); [reflexivity | assumption].
Qed.

Lemma get_set k k' v d :
  get k' (set k v d) = if String.eqb k k' then Some v else get k' d.
Proof.
  destruct (String.eqb_spec k k') as [->|N].
  - apply get_set_eq.
  - now apply get_set_neq.
Qed.

Lemma keys_set_in k v d : In k (keys d) -> keys (set k v d) = keys d.
Proof.
  induction d as [|[k' v'] r IH]; simpl; [tauto|].
  intros H. destruct (String.eqb_spec k k') as [->|N]; simpl.
  - reflexivity.
  - f_equal. apply IH. destruct H; [congruence | assumption].
Qed.

Lemma keys_set_new k v d :
  ~ In k (keys d) -> keys (set k v d) = (keys d ++ [k])%list.
Proof.
  induction d as [|[k' v'] r IH]; simpl; [reflexivity|].
  intros H. destruct (String.eqb_spec k k') as [->|N]; simpl.
  - exfalso. auto.
  - f_equal. apply IH. tauto.
Qed.

Lemma In_keys_set k k' v d :
  In k' (keys (set k v d)) <-> k' = k \/ In k' (keys d).
Proof.
  rewrite <- !contains_keys. unfold contains. rewrite get_set.
  destruct (String.eqb_spec k k') as [->|N].
  - split; auto.
  - split; [auto | intros [E|H]; congruence].
Qed.

Lemma NoDup_keys_set k v d : NoDup (keys d) -> NoDup (keys (set k v d)).
Proof.
  intros ND. destruct (in_dec string_dec k (keys d)) as [I|NI].
  - now rewrite keys_set_in.
  - rewrite keys_set_new by assumption.
    apply NoDup_app; [assumption | repeat constructor; simpl; tauto |].
    intros x Hx [<-|[]]. contradiction.
Qed.

Lemma del_absent k d : ~ In k (keys d) -> del k d = d.
Proof.
  induction d as [|[k' v'] r IH]; simpl; [reflexivity|].
  intros H. destruct (String.eqb_spec k k') as [->|N].
  - exfalso. auto.
  - f_equal. apply IH. tauto.
Qed.

Lemma get_del_neq k k' d : k <> k' -> get k' (del k d) = get k' d.
Proof.
  intros N. induction d as [|[k0 v0] r IH]; simpl; [reflexivity|].
  destruct (String.eqb_spec k k0) as [->|N0]; simpl.
  - destruct (String.eqb_spec k' k0); [congruence | reflexivity].
  - destruct (String.eqb_spec k' k0); [reflexivity | assumption].
Qed.

Lemma In_keys_del_incl k k' d : In k' (keys (del k d)) -> In k' (keys d).
Proof.
  induction d as [|[k0 v0] r IH]; simpl; [tauto|].
  destruct (String.eqb_spec k k0) as [->|N0]; simpl; tauto.
Qed.

Lemma NoDup_keys_del k d : NoDup (keys d) -> NoDup (keys (del k d)).
Proof.
  induction d as [|[k0 v0] r IH]; simpl; [auto|].
  intros ND. inversion ND as [|? ? NI ND']; subst.
  destruct (String.eqb_spec k k0) as [->|N0]; simpl; [assumption|].
  constructor; [|auto]. intros H. apply NI. eapply In_keys_del_incl, H.
Qed.

Lemma get_del_eq k d : NoDup (keys d) -> get k (del k d) = None.
Proof.
  induction d as [|[k0 v0] r IH]; simpl; [reflexivity|].
  intros ND. inversion ND as [|? ? NI ND']; subst.
  destruct (String.eqb_spec k k0) as [->|N0]; simpl.
  - now apply get_None.
  - destruct (String.eqb_spec k k0); [contradiction | auto].
Qed.

Lemma get_del k k' d :
  NoDup (keys d) ->
  get k' (del k d) = if String.eqb k k' then None else get k' d.
Proof.
  intros ND. destruct (String.eqb_spec k k') as [->|N].
  - now apply get_del_eq.
  - now apply get_del_neq.
Qed.

Lemma In_keys_del k k' d :
  NoDup (keys d) -> In k' (keys (del k d)) <-> k' <> k /\ In k' (keys d).
Proof.
  intros ND. rewrite <- !contains_keys. unfold contains.
  rewrite get_del by assumption.
  destruct (String.eqb_spec k k') as [->|N].
  - split; [discriminate | tauto].
  - split; [intros H; split; [congruence | assumption] | tauto].
Qed.

Lemma length_del k d : In k (keys d) -> S (length (del k d)) = length d.
Proof.
  induction d as [|[k0 v0] r IH]; simpl; [tauto|].
  intros H. destruct (String.eqb_spec k k0) as [->|N0]; simpl.
  - reflexivity.
  - f_equal. apply IH. destruct H; [congruence | assumption].
Qed.

Lemma keys_length d : length (keys d) = length d.
Proof. apply length_map. Qed.

(** [update] writes the keys of its argument, later entries last. *)
Lemma get_update_other k d e :
  ~ In k (keys e) -> get k (update d e) = get k d.
Proof.
  unfold update. revert d.
  induction e as [|[k0 v0] r IH]; simpl; intros d H; [reflexivity|].
  rewrite IH by tauto. apply get_set_neq. intros ->. tauto.
Qed.

Lemma get_update_in k v d e :
  NoDup (keys e) -> In (k, v) e -> get k (update d e) = Some v.
Proof.
  unfold update. revert d.
  induction e as [|[k0 v0] r IH]; simpl; intros d ND H; [tauto|].
  inversion ND as [|? ? NI ND']; subst.
  destruct H as [E|H].
  - injection E as -> ->.
    change (get k (update (set k v d) r) = Some v).
    rewrite get_update_other by assumption. apply get_set_eq.
  - now apply IH.
Qed.

Lemma In_keys_update k d e :
  In k (keys (update d e)) <-> In k (keys d) \/ In k (keys e).
Proof.
  unfold update. revert d.
  induction e as [|[k0 v0] r IH]; simpl; intros d; [tauto|].
  rewrite IH, In_keys_set. intuition congruence.
Qed.

Lemma NoDup_keys_update d e : NoDup (keys d) -> NoDup (keys (update d e)).
Proof.
  unfold update. revert d.
  induction e as [|[k0 v0] r IH]; simpl; intros d ND; [assumption|].
  apply IH. now apply NoDup_keys_set.
Qed.

End DictFacts.

(** ** The DiGraph operations on a well-formed graph *)

Section FoldDel.
Context {W : Type}.
Implicit Types (p : dict (dict W)).

(** The loops of [remove_node]: [for u in us: del p[u][n]] *)
Lemma get_fold_del_in n us p x :
  NoDup us ->
  get x (fold_left (NX.del_in n) us p)
  = if mem x us
    then Some (del n (match get x p with Some d => d | None => [] end))
    else get x p.
Proof.
  revert p. induction us as [|u r IH]; simpl; intros p ND; [reflexivity|].
  inversion ND as [|? ? NI ND']; subst.
  rewrite IH by assumption. unfold NX.del_in.
  destruct (String.eqb_spec x u) as [->|N]; simpl.
  - apply mem_false in NI. rewrite NI. apply get_set_eq.
  - rewrite get_set_neq by congruence. reflexivity.
Qed.

Lemma In_keys_fold_del_in n us p x :
  In x (keys (fold_left (NX.del_in n) us p)) <-> In x (keys p) \/ In x us.
Proof.
  revert p. induction us as [|u r IH]; simpl; intros p; [tauto|].
  rewrite IH. unfold NX.del_in. rewrite In_keys_set. intuition congruence.
Qed.

Lemma NoDup_keys_fold_del_in n us p :
  NoDup (keys p) -> NoDup (keys (fold_left (NX.del_in n) us p)).
Proof.
  revert p. induction us as [|u r IH]; simpl; intros p ND; [assumption|].
  apply IH. unfold NX.del_in. now apply NoDup_keys_set.
Qed.
End FoldDel.

Lemma has_node_In G n : NX.has_node G n = true <-> In n (NX.nodes G).
Proof. apply contains_keys. Qed.

Lemma has_node_false G n : NX.has_node G n = false <-> ~ In n (NX.nodes G).
Proof. apply contains_false. Qed.

Lemma has_edge_In G u v :
  NX.has_edge G u v = true <-> In v (keys (NX.succ_of G u)).
Proof.
  unfold NX.has_edge, NX.succ_of. destruct (get u (_succ G)).
  - apply contains_keys.
  - simpl. split; [discriminate | tauto].
Qed.

Lemma succ_of_nonempty_node G u v :
  wf G -> In v (keys (NX.succ_of G u)) -> In u (NX.nodes G).
Proof.
  intros H Hv. apply (wf_succ_keys G H). unfold NX.succ_of in Hv.
  destruct (get u (_succ G)) eqn:E; [|contradiction].
  eapply get_Some_keys, E.
Qed.

Lemma pred_of_nonempty_node G u v :
  wf G -> In u (keys (NX.pred_of G v)) -> In v (NX.nodes G).
Proof.
  intros H Hu. apply (wf_pred_keys G H). unfold NX.pred_of in Hu.
  destruct (get v (_pred G)) eqn:E; [|contradiction].
  eapply get_Some_keys, E.
Qed.

(** Referential integrity, from the representation invariant *)
Lemma wf_edge_endpoints G u v :
  wf G -> NX.has_edge G u v = true ->
  In u (NX.nodes G) /\ In v (NX.nodes G).
Proof.
  intros H E. apply has_edge_In in E. split.
  - eapply succ_of_nonempty_node; eauto.
  - apply (wf_mirror G H) in E. eapply pred_of_nonempty_node; eauto.
Qed.

Lemma wf_empty : wf NX.empty.
Proof.
  constructor; simpl; try constructor; try tauto; intros; constructor.
Qed.

Lemma wf_add_node G n a :
  wf G -> ~ In n (NX.nodes G) -> wf (NX.add_node n a G).
Proof.
  intros H NI. unfold NX.add_node, NX.ensure_node.
  assert (C : contains n (_succ G) = false).
  { apply contains_false. now rewrite (wf_succ_keys G H). }
  rewrite C. simpl.
  assert (NS : ~ In n (keys (_succ G))) by now rewrite (wf_succ_keys G H).
  assert (NP : ~ In n (keys (_pred G))) by now rewrite (wf_pred_keys G H).
  assert (S0 : NX.succ_of G n = []).
  { unfold NX.succ_of. apply get_None in NS. now rewrite NS. }
  assert (P0 : NX.pred_of G n = []).
  { unfold NX.pred_of. apply get_None in NP. now rewrite NP. }
  constructor; simpl.
  - apply NoDup_keys_set, NoDup_keys_set, H.
  - apply NoDup_keys_set, H.
  - apply NoDup_keys_set, H.
  - intros x. rewrite !In_keys_set, (wf_succ_keys G H). tauto.
  - intros x. rewrite !In_keys_set, (wf_pred_keys G H). tauto.
  - intros u. unfold NX.succ_of; simpl. rewrite get_set.
    destruct (String.eqb n u); [constructor | apply (wf_succ_inner G H)].
  - intros v. unfold NX.pred_of; simpl. rewrite get_set.
    destruct (String.eqb n v); [constructor | apply (wf_pred_inner G H)].
  - intros u v. unfold NX.succ_of, NX.pred_of; simpl. rewrite !get_set.
    destruct (String.eqb_spec n u) as [<-|Nu];
      destruct (String.eqb_spec n v) as [<-|Nv]; simpl; try tauto.
    + split; [tauto|]. intros Hu. apply (wf_mirror G H) in Hu.
      now rewrite S0 in Hu.
    + split; [|tauto]. intros Hv. apply (wf_mirror G H) in Hv.
      now rewrite P0 in Hv.
    + apply (wf_mirror G H).
Qed.

Lemma set_same {V} k (v : V) d : get k d = Some v -> set k v d = d.
Proof.
  induction d as [|[k' v'] r IH]; simpl; [discriminate|].
  destruct (String.eqb_spec k k') as [->|N].
  - now intros [= ->].
  - intros E. f_equal. auto.
Qed.

Lemma get_unit k (d : dict unit) : In k (keys d) -> get k d = Some tt.
Proof.
  intros H. destruct (keys_get _ _ H) as [[] E]. exact E.
Qed.

Lemma ensure_node_present G n :
  wf G -> In n (NX.nodes G) -> NX.ensure_node n G = G.
Proof.
  intros H I. unfold NX.ensure_node.
  apply (wf_succ_keys G H), contains_keys in I. now rewrite I.
Qed.

Lemma wf_set_node_attr G n k v :
  wf G -> In n (NX.nodes G) -> wf (NX.set_node_attr n k v G).
Proof.
  intros H I. unfold NX.set_node_attr.
  constructor; simpl; try apply H.
  - apply NoDup_keys_set, H.
  - intros x. rewrite In_keys_set, (wf_succ_keys G H).
    unfold NX.nodes in I. intuition congruence.
  - intros x. rewrite In_keys_set, (wf_pred_keys G H).
    unfold NX.nodes in I. intuition congruence.
Qed.

Lemma succ_of_put_edge G u v dd x :
  NX.succ_of (put_edge u v dd G) x
  = if String.eqb u x then set v dd (NX.succ_of G u) else NX.succ_of G x.
Proof.
  unfold NX.succ_of at 1; simpl. rewrite get_set.
  now destruct (String.eqb u x).
Qed.

Lemma pred_of_put_edge G u v dd y :
  NX.pred_of (put_edge u v dd G) y
  = if String.eqb v y then set u tt (NX.pred_of G v) else NX.pred_of G y.
Proof.
  unfold NX.pred_of at 1; simpl. rewrite get_set.
  now destruct (String.eqb v y).
Qed.

Lemma wf_put_edge G u v dd :
  wf G -> In u (NX.nodes G) -> In v (NX.nodes G) -> wf (put_edge u v dd G).
Proof.
  intros H Iu Iv. unfold NX.nodes in *.
  constructor; try (simpl; apply H).
  - simpl. apply NoDup_keys_set, H.
  - simpl. apply NoDup_keys_set, H.
  - intros x. simpl. rewrite In_keys_set, (wf_succ_keys G H).
    intuition congruence.
  - intros x. simpl. rewrite In_keys_set, (wf_pred_keys G H).
    intuition congruence.
  - intros x. rewrite succ_of_put_edge.
    destruct (String.eqb u x); [apply NoDup_keys_set|]; apply H.
  - intros y. rewrite pred_of_put_edge.
    destruct (String.eqb v y); [apply NoDup_keys_set|]; apply H.
  - intros x y. rewrite succ_of_put_edge, pred_of_put_edge.
    pose proof (wf_mirror G H x y) as M.
    destruct (String.eqb_spec u x) as [<-|Nu];
      destruct (String.eqb_spec v y) as [<-|Nv];
      rewrite ?In_keys_set; intuition congruence.
Qed.

Lemma add_edge_put_edge G u v a :
  wf G -> In u (NX.nodes G) -> In v (NX.nodes G) ->
  NX.add_edge u v a G = put_edge u v (update (NX.edge_data G u v) a) G.
Proof.
  intros H Iu Iv. unfold NX.add_edge.
  rewrite (ensure_node_present G u H Iu), (ensure_node_present G v H Iv).
  reflexivity.
Qed.

Lemma put_edge_existing G u v dd :
  wf G -> NX.has_edge G u v = true ->
  put_edge u v dd G
  = mkDiGraph (_node G) (set u (set v dd (NX.succ_of G u)) (_succ G))
              (_pred G).
Proof.
  intros H E. unfold put_edge. f_equal.
  apply has_edge_In, (wf_mirror G H) in E.
  rewrite (set_same u tt) by now apply get_unit.
  apply set_same. unfold NX.pred_of in *.
  destruct (get v (_pred G)); [reflexivity | contradiction].
Qed.

Lemma wf_set_edge_attr G u v k x :
  wf G -> NX.has_edge G u v = true -> wf (NX.set_edge_attr u v k x G).
Proof.
  intros H E. unfold NX.set_edge_attr.
  rewrite <- put_edge_existing by assumption.
  destruct (wf_edge_endpoints G u v H E). now apply wf_put_edge.
Qed.

Lemma wf_del_edge_attr G u v k :
  wf G -> NX.has_edge G u v = true -> wf (NX.del_edge_attr u v k G).
Proof.
  intros H E. unfold NX.del_edge_attr.
  rewrite <- put_edge_existing by assumption.
  destruct (wf_edge_endpoints G u v H E). now apply wf_put_edge.
Qed.

Lemma succ_of_remove_edge G u v x :
  NX.succ_of (NX.remove_edge u v G) x
  = if String.eqb u x then del v (NX.succ_of G u) else NX.succ_of G x.
Proof.
  unfold NX.succ_of at 1; simpl. rewrite get_set.
  now destruct (String.eqb u x).
Qed.

Lemma pred_of_remove_edge G u v y :
  NX.pred_of (NX.remove_edge u v G) y
  = if String.eqb v y then del u (NX.pred_of G v) else NX.pred_of G y.
Proof.
  unfold NX.pred_of at 1; simpl. rewrite get_set.
  now destruct (String.eqb v y).
Qed.

Lemma wf_remove_edge G u v :
  wf G -> NX.has_edge G u v = true -> wf (NX.remove_edge u v G).
Proof.
  intros H E. destruct (wf_edge_endpoints G u v H E) as [Iu Iv].
  unfold NX.nodes in *.
  constructor; try (simpl; apply H).
  - simpl. apply NoDup_keys_set, H.
  - simpl. apply NoDup_keys_set, H.
  - intros x. simpl. rewrite In_keys_set, (wf_succ_keys G H).
    intuition congruence.
  - intros x. simpl. rewrite In_keys_set, (wf_pred_keys G H).
    intuition congruence.
  - intros x. rewrite succ_of_remove_edge.
    destruct (String.eqb u x); [apply NoDup_keys_del|]; apply H.
  - intros y. rewrite pred_of_remove_edge.
    destruct (String.eqb v y); [apply NoDup_keys_del|]; apply H.
  - intros x y. rewrite succ_of_remove_edge, pred_of_remove_edge.
    pose proof (wf_mirror G H x y) as M.
    pose proof (wf_succ_inner G H u) as N1.
    pose proof (wf_pred_inner G H v) as N2.
    destruct (String.eqb_spec u x) as [<-|Nu];
      destruct (String.eqb_spec v y) as [<-|Nv];
      rewrite ?In_keys_del by assumption; intuition congruence.
Qed.

Section RemoveNode.
Variables (G : DiGraph) (n : string).
Hypothesis H : wf G.


Lemma remove_node_pred1 y :
  match get y (removal_pred1 n G) with Some x => x | None => [] end
  = del n (NX.pred_of G y).
Proof.
  unfold removal_pred1. rewrite get_fold_del_in by apply H.
  fold (NX.pred_of G y).
  destruct (mem y (keys (NX.succ_of G n))) eqn:E; [reflexivity|].
  apply mem_false in E. rewrite (wf_mirror G H) in E.
  rewrite del_absent by assumption. reflexivity.
Qed.

Lemma remove_node_ps : (removal_ps n G) = del n (NX.pred_of G n).
Proof. apply remove_node_pred1. Qed.

Lemma In_remove_node_ps x :
  In x (keys (removal_ps n G)) <-> x <> n /\ In n (keys (NX.succ_of G x)).
Proof.
  rewrite remove_node_ps, In_keys_del by apply H.
  now rewrite (wf_mirror G H).
Qed.

Lemma succ_of_remove_node x :
  NX.succ_of (NX.remove_node n G) x
  = if String.eqb n x then [] else del n (NX.succ_of G x).
Proof.
  unfold NX.succ_of at 1, NX.remove_node. simpl.
  fold (removal_pred1 n G). fold (removal_ps n G).
  rewrite get_fold_del_in
    by (rewrite remove_node_ps; apply NoDup_keys_del, H).
  rewrite !get_del by apply H.
  destruct (String.eqb_spec n x) as [<-|N].
  - destruct (mem n (keys (removal_ps n G))) eqn:E; [|reflexivity].
    apply mem_In, In_remove_node_ps in E. tauto.
  - fold (NX.succ_of G x).
    destruct (mem x (keys (removal_ps n G))) eqn:E; [reflexivity|].
    apply mem_false in E. rewrite In_remove_node_ps in E.
    rewrite del_absent; [reflexivity|]. intros I. apply E. split; congruence.
Qed.

Lemma pred_of_remove_node y :
  NX.pred_of (NX.remove_node n G) y
  = if String.eqb n y then [] else del n (NX.pred_of G y).
Proof.
  unfold NX.pred_of at 1, NX.remove_node. simpl. fold (removal_pred1 n G).
  assert (ND : NoDup (keys (removal_pred1 n G)))
    by (apply NoDup_keys_fold_del_in, H).
  rewrite get_del by assumption.
  destruct (String.eqb_spec n y) as [<-|N]; [reflexivity|].
  apply remove_node_pred1.
Qed.

Lemma nodes_remove_node x :
  In x (NX.nodes (NX.remove_node n G)) <-> x <> n /\ In x (NX.nodes G).
Proof.
  unfold NX.nodes, NX.remove_node. simpl. apply In_keys_del, H.
Qed.

Lemma wf_remove_node : wf (NX.remove_node n G).
Proof.
  assert (ND1 : NoDup (keys (removal_pred1 n G)))
    by (apply NoDup_keys_fold_del_in, H).
  constructor.
  - apply NoDup_keys_del, H.
  - simpl. apply NoDup_keys_fold_del_in, NoDup_keys_del, H.
  - simpl. apply NoDup_keys_del, ND1.
  - intros x. rewrite nodes_remove_node. simpl. fold (removal_pred1 n G). fold (removal_ps n G).
    rewrite In_keys_fold_del_in, In_remove_node_ps,
      In_keys_del, (wf_succ_keys G H) by apply H.
    split; [|tauto]. intros [?|[N I]]; [assumption|].
    split; [assumption|]. eapply succ_of_nonempty_node; eauto.
  - intros x. rewrite nodes_remove_node. simpl. fold (removal_pred1 n G).
    rewrite In_keys_del by assumption. unfold removal_pred1.
    rewrite In_keys_fold_del_in, (wf_pred_keys G H).
    split; [|tauto]. intros [N [?|I]]; [tauto|].
    split; [assumption|]. apply (wf_mirror G H) in I.
    eapply pred_of_nonempty_node; eauto.
  - intros x. rewrite succ_of_remove_node.
    destruct (String.eqb n x); [constructor | apply NoDup_keys_del, H].
  - intros y. rewrite pred_of_remove_node.
    destruct (String.eqb n y); [constructor | apply NoDup_keys_del, H].
  - intros x y. rewrite succ_of_remove_node, pred_of_remove_node.
    pose proof (wf_mirror G H x y) as M.
    destruct (String.eqb_spec n x) as [<-|Nx];
      destruct (String.eqb_spec n y) as [<-|Ny];
      rewrite ?In_keys_del by apply H; simpl; intuition congruence.
Qed.
End RemoveNode.


(** ** The methods, call by call *)

Ltac run_monad :=
  unfold bind, graph, raise, ret, modify; cbv beta.

Lemma add_node_eq n t l p tl pr G :
  StateGraph.add_node n t l p tl pr G
  = if NX.has_node G n then (Raise (AlreadyExists n), G)
    else if mem t StateGraph.node_types
    then (Ok [("node_id", VStr n); ("node_type", VStr t);
              ("status", VStr "added")],
          NX.add_node n (StateGraph.node_attrs n t l p tl pr) G)
    else (Raise (InvalidArgument t), G).
Proof.
  unfold StateGraph.add_node. run_monad.
  destruct (NX.has_node G n); [reflexivity|].
  destruct (mem t StateGraph.node_types); reflexivity.
Qed.

Lemma update_node_eq n l p tl pr G :
  StateGraph.update_node n l p tl pr G
  = if NX.has_node G n
    then (Ok [("node_id", VStr n); ("status", VStr "updated")],
          updated n l p tl pr G)
    else (Raise (NotFound n), G).
Proof.
  unfold StateGraph.update_node, updated, StateGraph.set_if_given. run_monad.
  destruct (NX.has_node G n); [|reflexivity].
  destruct l, p, tl, pr; reflexivity.
Qed.

Lemma remove_node_eq n G :
  StateGraph.remove_node n G
  = if NX.has_node G n
    then (Ok [("node_id", VStr n); ("status", VStr "removed")],
          NX.remove_node n G)
    else (Raise (NotFound n), G).
Proof.
  unfold StateGraph.remove_node. run_monad.
  destruct (NX.has_node G n); reflexivity.
Qed.

Lemma add_edge_eq u v o c pr G :
  StateGraph.add_edge u v o c pr G
  = if NX.has_node G u
    then if NX.has_node G v
         then (Ok [("from", VStr u); ("to", VStr v); ("status", VStr "added")],
               NX.add_edge u v (StateGraph.edge_attrs o c pr) G)
         else (Raise (NotFound v), G)
    else (Raise (NotFound u), G).
Proof.
  unfold StateGraph.add_edge. run_monad.
  destruct (NX.has_node G u); [|reflexivity].
  destruct (NX.has_node G v); reflexivity.
Qed.

Lemma remove_edge_eq u v G :
  StateGraph.remove_edge u v G
  = if NX.has_edge G u v
    then (Ok [("from", VStr u); ("to", VStr v); ("status", VStr "removed")],
          NX.remove_edge u v G)
    else (Raise (NotFound (u ++ "->" ++ v)), G).
Proof.
  unfold StateGraph.remove_edge. run_monad.
  destruct (NX.has_edge G u v); reflexivity.
Qed.

Lemma set_edge_order_eq u v o G :
  StateGraph.set_edge_order u v o G
  = if NX.has_edge G u v
    then (Ok [("from", VStr u); ("to", VStr v); ("order", VInt o);
              ("status", VStr "updated")],
          NX.set_edge_attr u v "order" (VInt o) G)
    else (Raise (NotFound (u ++ "->" ++ v)), G).
Proof.
  unfold StateGraph.set_edge_order. run_monad.
  destruct (NX.has_edge G u v); reflexivity.
Qed.

Lemma set_edge_condition_eq u v c G :
  StateGraph.set_edge_condition u v c G
  = if NX.has_edge G u v
    then (Ok [("from", VStr u); ("to", VStr v);
              ("condition", match c with Some x => VStr x | None => VNone end);
              ("status", VStr "updated")],
          condition_set u v c G)
    else (Raise (NotFound (u ++ "->" ++ v)), G).
Proof.
  unfold StateGraph.set_edge_condition, condition_set. run_monad.
  destruct (NX.has_edge G u v); [|reflexivity].
  destruct c; [reflexivity|].
  destruct (contains "condition" (NX.edge_data G u v)); reflexivity.
Qed.

Lemma nodes_set_node_attr G n k v :
  In n (NX.nodes G) ->
  NX.nodes (NX.set_node_attr n k v G) = NX.nodes G.
Proof.
  intros I. unfold NX.nodes, NX.set_node_attr; simpl. now apply keys_set_in.
Qed.

Lemma wf_store_if {A} G n k (f : A -> value) x :
  wf G /\ In n (NX.nodes G) ->
  wf (store_if n k f x G) /\ In n (NX.nodes (store_if n k f x G)).
Proof.
  intros [H I]. destruct x; simpl; [|tauto]. split.
  - now apply wf_set_node_attr.
  - now rewrite nodes_set_node_attr.
Qed.

Lemma wf_updated G n l p tl pr :
  wf G -> In n (NX.nodes G) -> wf (updated n l p tl pr G).
Proof.
  intros H I. unfold updated.
  pose proof (wf_store_if _ n "tool" VStr tl
                (wf_store_if _ n "phase" VInt p
                   (wf_store_if G n "label" VStr l (conj H I)))) as [H3 I3].
  destruct pr; [now apply wf_set_node_attr | exact H3].
Qed.

Lemma wf_condition_set G u v c :
  wf G -> NX.has_edge G u v = true -> wf (condition_set u v c G).
Proof.
  intros H E. unfold condition_set. destruct c.
  - now apply wf_set_edge_attr.
  - destruct (contains "condition" (NX.edge_data G u v));
      [now apply wf_del_edge_attr | exact H].
Qed.

Lemma wf_call o G : wf G -> wf (state_after (call o) G).
Proof.
  intros H. unfold state_after.
  destruct o as [n t l p tl pr|n l p tl pr|n|u v o c pr|u v|u v o|u v c];
    simpl call.
  - rewrite add_node_eq.
    destruct (NX.has_node G n) eqn:E; [exact H|].
    destruct (mem t StateGraph.node_types); [|exact H].
    apply wf_add_node; [exact H | now apply has_node_false].
  - rewrite update_node_eq.
    destruct (NX.has_node G n) eqn:E; [|exact H].
    apply wf_updated; [exact H | now apply has_node_In].
  - rewrite remove_node_eq.
    destruct (NX.has_node G n); [now apply wf_remove_node | exact H].
  - rewrite add_edge_eq.
    destruct (NX.has_node G u) eqn:Eu; [|exact H].
    destruct (NX.has_node G v) eqn:Ev; [|exact H].
    apply has_node_In in Eu, Ev. simpl.
    rewrite add_edge_put_edge by assumption. now apply wf_put_edge.
  - rewrite remove_edge_eq.
    destruct (NX.has_edge G u v) eqn:E; [now apply wf_remove_edge | exact H].
  - rewrite set_edge_order_eq.
    destruct (NX.has_edge G u v) eqn:E;
      [now apply wf_set_edge_attr | exact H].
  - rewrite set_edge_condition_eq.
    destruct (NX.has_edge G u v) eqn:E;
      [now apply wf_condition_set | exact H].
Qed.

Lemma wf_run ops G : wf G -> wf (run ops G).
Proof.
  revert G. induction ops as [|o r IH]; simpl; intros G H; [exact H|].
  apply IH, wf_call, H.
Qed.

Lemma reachable_wf G : reachable G -> wf G.
Proof. intros [ops ->]. apply wf_run, wf_empty. Qed.

(** ** Edge views of a well-formed graph *)

Lemma In_edges_of (s : dict (dict attrs)) u v a :
  In (u, v, a)
     (flat_map (fun un => map (fun kv => (fst un, fst kv, snd kv)) (snd un)) s)
  <-> exists nbrs, In (u, nbrs) s /\ In (v, a) nbrs.
Proof.
  rewrite in_flat_map. split.
  - intros ([u' nbrs] & I & M). simpl in M. apply in_map_iff in M.
    destruct M as ([v' a'] & E & I'). simpl in E. injection E as -> -> ->.
    now exists nbrs.
  - intros (nbrs & I & I'). exists (u, nbrs). split; [assumption|].
    simpl. apply in_map_iff. now exists (v, a).
Qed.

Lemma In_edges G u v a :
  wf G -> In (u, v, a) (NX.edges G) <-> get v (NX.succ_of G u) = Some a.
Proof.
  intros H. unfold NX.edges. rewrite In_edges_of. unfold NX.succ_of. split.
  - intros (nbrs & I & I').
    apply In_get in I; [|apply H]. rewrite I.
    apply In_get; [|assumption].
    pose proof (wf_succ_inner G H u) as N. unfold NX.succ_of in N.
    now rewrite I in N.
  - destruct (get u (_succ G)) as [nbrs|] eqn:E; [|discriminate].
    intros E'. exists nbrs. split; now apply get_In.
Qed.

Lemma In_edges_has_edge G u v a :
  wf G -> In (u, v, a) (NX.edges G) -> NX.has_edge G u v = true.
Proof.
  intros H I. apply has_edge_In. apply In_edges in I; [|assumption].
  eapply get_Some_keys, I.
Qed.

Lemma In_out_edges G n e :
  In e (NX.out_edges G n)
  <-> exists v a, e = (n, v, a) /\ In (v, a) (NX.succ_of G n).
Proof.
  unfold NX.out_edges. rewrite in_map_iff. split.
  - intros ([v a] & <- & I). now exists v, a.
  - intros (v & a & -> & I). now exists (v, a).
Qed.

(** ** C1: referential integrity *)

(** C1.  After any sequence of calls on a new store, the two endpoints of
    every edge are nodes of the graph; [add_edge] raises the not-found
    error and changes nothing when an endpoint is missing; and after
    [remove_node] of a present node no edge of the graph starts or ends at
    the removed node, every remaining edge still joining two nodes. *)
Theorem referential_integrity :
  (forall ops e, In e (NX.edges (run ops NX.empty)) ->
     NX.has_node (run ops NX.empty) (fst (fst e)) = true
     /\ NX.has_node (run ops NX.empty) (snd (fst e)) = true)
  /\ (forall G u v o c pr,
        NX.has_node G u = false \/ NX.has_node G v = false ->
        exists w, (w = u \/ w = v)
                  /\ StateGraph.add_edge u v o c pr G = (Raise (NotFound w), G))
  /\ (forall ops n e,
        NX.has_node (run ops NX.empty) n = true ->
        In e (NX.edges (state_after (StateGraph.remove_node n)
                          (run ops NX.empty))) ->
        fst (fst e) <> n /\ snd (fst e) <> n
        /\ NX.has_node (state_after (StateGraph.remove_node n)
                          (run ops NX.empty)) (fst (fst e)) = true
        /\ NX.has_node (state_after (StateGraph.remove_node n)
                          (run ops NX.empty)) (snd (fst e)) = true).
Proof.
  assert (RI : forall G e, wf G -> In e (NX.edges G) ->
               NX.has_node G (fst (fst e)) = true
               /\ NX.has_node G (snd (fst e)) = true).
  { intros G [[u v] a] H I. simpl.
    apply In_edges_has_edge in I; [|assumption].
    rewrite !has_node_In. now apply wf_edge_endpoints. }
  split; [|split].
  - intros ops e. apply RI, wf_run, wf_empty.
  - intros G u v o c pr Hm. rewrite add_edge_eq.
    destruct (NX.has_node G u) eqn:Eu.
    + destruct (NX.has_node G v) eqn:Ev.
      * destruct Hm; discriminate.
      * exists v. auto.
    + exists u. auto.
  - intros ops n e Hn I.
    pose proof (wf_run ops NX.empty wf_empty) as H.
    set (G := run ops NX.empty) in *.
    pose proof (wf_call (RemoveNode n) G H) as H'. simpl in H'.
    destruct (RI _ _ H' I) as [A B].
    repeat split; try assumption.
    + intros E. apply has_node_In in A. revert A.
      unfold state_after. rewrite remove_node_eq, Hn. simpl.
      rewrite nodes_remove_node by assumption. tauto.
    + intros E. apply has_node_In in B. revert B.
      unfold state_after. rewrite remove_node_eq, Hn. simpl.
      rewrite nodes_remove_node by assumption. tauto.
Qed.

(** ** C6: the failures of [add_node] *)

(** C6.  On any graph, [add_node] with an id that is already a node raises
    the already-exists error whatever the other arguments are, and with a
    new id and a type outside the six node types it raises the
    invalid-argument error; in both cases the graph is left as it was. *)
Theorem add_node_failures G n t l p tl pr :
  (NX.has_node G n = true ->
   outcome (StateGraph.add_node n t l p tl pr) G = Raise (AlreadyExists n)
   /\ state_after (StateGraph.add_node n t l p tl pr) G = G)
  /\ (NX.has_node G n = false ->
      ~ In t ["action"; "decision"; "verification"; "loop"; "success";
              "failure"] ->
      outcome (StateGraph.add_node n t l p tl pr) G
      = Raise (InvalidArgument t)
      /\ state_after (StateGraph.add_node n t l p tl pr) G = G).
Proof.
  unfold outcome, state_after. rewrite add_node_eq. split.
  - intros ->. split; reflexivity.
  - intros -> NI. apply mem_false in NI.
    change (mem t StateGraph.node_types = false) in NI. rewrite NI.
    split; reflexivity.
Qed.

(** ** C9: the bulk tools *)

Section ForEach.
Context {A : Type} (item : A -> M attrs).

Lemma for_each_app pre post created G :
  Server.for_each item (pre ++ post) created G
  = match Server.for_each item pre created G with
    | (Ok created', G') => Server.for_each item post created' G'
    | (Raise e, G') => (Raise e, G')
    end.
Proof.
  revert created G. induction pre as [|x r IH]; intros created G; simpl.
  - reflexivity.
  - unfold bind. destruct (item x G) as [[c|e] G1]; [apply IH|].
    reflexivity.
Qed.

(** A run that stops at the first failing item *)
Lemma for_each_stops pre x post created created' G e :
  outcome (Server.for_each item pre created) G = Ok created' ->
  outcome (item x) (state_after (Server.for_each item pre created) G)
  = Raise e ->
  outcome (Server.for_each item (pre ++ x :: post) created) G = Raise e
  /\ state_after (Server.for_each item (pre ++ x :: post) created) G
     = state_after (item x) (state_after (Server.for_each item pre created) G).
Proof.
  unfold outcome, state_after. rewrite for_each_app.
  destruct (Server.for_each item pre created G) as [[c|e'] G1]; simpl;
    [|discriminate].
  intros _ E. unfold bind. destruct (item x G1) as [[c'|e''] G2]; simpl in *;
    [discriminate|]. injection E as ->. split; reflexivity.
Qed.

(** A run that completes returns one record per item, in input order. *)
Lemma for_each_completes (conf : A -> attrs) items created created' G :
  (forall x G0 r, outcome (item x) G0 = Ok r -> r = conf x) ->
  outcome (Server.for_each item items created) G = Ok created' ->
  created' = (created ++ map conf items)%list.
Proof.
  intros Hc. revert created G.
  induction items as [|x r IH]; intros created G; unfold outcome; simpl.
  - intros [= <-]. now rewrite app_nil_r.
  - unfold bind. destruct (item x G) as [[c|e] G1] eqn:E; simpl;
      [|discriminate].
    intros E'. apply IH in E'. rewrite <- app_assoc in E'. simpl in E'.
    rewrite (Hc x G c) in E'; [assumption|]. unfold outcome. now rewrite E.
Qed.
End ForEach.

Lemma add_node_item_fails node G e :
  outcome (Server.add_node_item node) G = Raise e ->
  state_after (Server.add_node_item node) G = G.
Proof.
  unfold outcome, state_after, Server.add_node_item. rewrite add_node_eq.
  destruct (NX.has_node G _); [reflexivity|].
  destruct (mem _ _); [discriminate | reflexivity].
Qed.

Lemma add_edge_item_fails edge G e :
  outcome (Server.add_edge_item edge) G = Raise e ->
  state_after (Server.add_edge_item edge) G = G.
Proof.
  unfold outcome, state_after, Server.add_edge_item. rewrite add_edge_eq.
  destruct (NX.has_node G (Server.from_node edge)); [|reflexivity].
  destruct (NX.has_node G (Server.to_node edge)); [discriminate | reflexivity].
Qed.

Lemma add_node_item_conf node G r :
  outcome (Server.add_node_item node) G = Ok r ->
  r = Server.node_confirmation node.
Proof.
  unfold outcome, Server.add_node_item. rewrite add_node_eq.
  destruct (NX.has_node G _); [discriminate|].
  destruct (mem _ _); [|discriminate]. now intros [= <-].
Qed.

Lemma add_edge_item_conf edge G r :
  outcome (Server.add_edge_item edge) G = Ok r ->
  r = Server.edge_confirmation edge.
Proof.
  unfold outcome, Server.add_edge_item. rewrite add_edge_eq.
  destruct (NX.has_node G (Server.from_node edge)); [|discriminate].
  destruct (NX.has_node G (Server.to_node edge)); [|discriminate].
  now intros [= <-].
Qed.

(** What a completed run has applied: each item leaves a mark [Q] that
    later items do not undo. *)
Lemma for_each_applied {A} (item : A -> M attrs) (Q : A -> DiGraph -> Prop) :
  (forall x G r, outcome (item x) G = Ok r -> Q x (state_after (item x) G)) ->
  (forall x y G r, outcome (item x) G = Ok r ->
                   Q y G -> Q y (state_after (item x) G)) ->
  forall items created created' G y,
    outcome (Server.for_each item items created) G = Ok created' ->
    In y items \/ Q y G ->
    Q y (state_after (Server.for_each item items created) G).
Proof.
  intros Ha Hb. induction items as [|x r IH]; intros created created' G y.
  - intros _ [[]|H]. exact H.
  - unfold outcome, state_after. simpl. unfold bind.
    pose proof (Ha x G) as Hax. pose proof (fun z => Hb x z G) as Hbx.
    unfold outcome, state_after in Hax, Hbx.
    destruct (item x G) as [[c|e] G1]; simpl in *; [|discriminate].
    intros E Hy. apply (IH _ created' G1 y E).
    destruct Hy as [[<-|I]|H]; eauto.
Qed.

Lemma succ_of_ensure_node n G x :
  NX.succ_of (NX.ensure_node n G) x = NX.succ_of G x.
Proof.
  unfold NX.ensure_node, NX.succ_of.
  destruct (contains n (_succ G)) eqn:C; [reflexivity|]. simpl.
  rewrite get_set. destruct (String.eqb_spec n x) as [<-|N]; [|reflexivity].
  unfold contains in C. now destruct (get n (_succ G)).
Qed.

Lemma has_node_ensure_node n G m :
  NX.has_node G m = true -> NX.has_node (NX.ensure_node n G) m = true.
Proof.
  unfold NX.ensure_node. destruct (contains n (_succ G)); [auto|].
  rewrite !has_node_In. unfold NX.nodes. simpl. rewrite In_keys_set. auto.
Qed.

Lemma has_node_add_node n a G m :
  m = n \/ NX.has_node G m = true ->
  NX.has_node (NX.add_node n a G) m = true.
Proof.
  intros H. apply has_node_In. unfold NX.nodes, NX.add_node. simpl.
  apply In_keys_set. destruct H as [->|H]; [now left | right].
  now apply has_node_In, has_node_ensure_node.
Qed.

Lemma succ_of_add_edge u v a G x :
  NX.succ_of (NX.add_edge u v a G) x
  = if String.eqb u x
    then set v (update (NX.edge_data G u v) a) (NX.succ_of G u)
    else NX.succ_of G x.
Proof.
  unfold NX.add_edge.
  set (G2 := NX.ensure_node v (NX.ensure_node u G)).
  assert (E : forall y, NX.succ_of G2 y = NX.succ_of G y)
    by (intros y; unfold G2; now rewrite !succ_of_ensure_node).
  unfold NX.succ_of at 1. simpl. rewrite get_set.
  destruct (String.eqb u x).
  - unfold NX.edge_data. now rewrite E.
  - apply E.
Qed.

Lemma has_edge_add_edge u v a G u' v' :
  (u' = u /\ v' = v) \/ NX.has_edge G u' v' = true ->
  NX.has_edge (NX.add_edge u v a G) u' v' = true.
Proof.
  intros H. apply has_edge_In. rewrite succ_of_add_edge.
  destruct (String.eqb_spec u u') as [<-|N].
  - apply In_keys_set. destruct H as [[_ ->]|H]; [now left | right].
    now apply has_edge_In.
  - destruct H as [[-> _]|H]; [congruence | now apply has_edge_In].
Qed.

Lemma add_node_item_applied x G r :
  outcome (Server.add_node_item x) G = Ok r ->
  state_after (Server.add_node_item x) G
  = NX.add_node (Server.node_id x)
      (StateGraph.node_attrs (Server.node_id x) (Server.node_type x)
         (Server.label x) (Server.phase x) (Server.tool x)
         (Server.node_properties x)) G.
Proof.
  unfold outcome, state_after, Server.add_node_item. rewrite add_node_eq.
  destruct (NX.has_node G _); [discriminate|].
  destruct (mem _ _); [reflexivity | discriminate].
Qed.

Lemma add_edge_item_applied x G r :
  outcome (Server.add_edge_item x) G = Ok r ->
  state_after (Server.add_edge_item x) G
  = NX.add_edge (Server.from_node x) (Server.to_node x)
      (StateGraph.edge_attrs (Server.order x) (Server.condition x)
         (Server.edge_properties x)) G.
Proof.
  unfold outcome, state_after, Server.add_edge_item. rewrite add_edge_eq.
  destruct (NX.has_node G (Server.from_node x)); [|discriminate].
  destruct (NX.has_node G (Server.to_node x)); [reflexivity | discriminate].
Qed.

(** C9.  When the items before position [i] of a bulk call all succeed and
    the item at position [i] fails, the call raises that item's error and
    leaves the graph exactly as the items before [i] made it: they stay
    applied, and neither the failing item nor any later one is.  A bulk
    call that succeeds returns the confirmation records of its items in
    input order, and leaves every node, or every edge, of its items in the
    graph.  This holds for [bulk_add_nodes] and [bulk_add_edges]. *)
Theorem bulk_no_rollback :
  (forall G pre x post created e,
     outcome (Server.bulk_add_nodes pre) G = Ok created ->
     outcome (Server.add_node_item x)
             (state_after (Server.bulk_add_nodes pre) G) = Raise e ->
     outcome (Server.bulk_add_nodes (pre ++ x :: post)) G = Raise e
     /\ state_after (Server.bulk_add_nodes (pre ++ x :: post)) G
        = state_after (Server.bulk_add_nodes pre) G)
  /\ (forall G pre x post created e,
        outcome (Server.bulk_add_edges pre) G = Ok created ->
        outcome (Server.add_edge_item x)
                (state_after (Server.bulk_add_edges pre) G) = Raise e ->
        outcome (Server.bulk_add_edges (pre ++ x :: post)) G = Raise e
        /\ state_after (Server.bulk_add_edges (pre ++ x :: post)) G
           = state_after (Server.bulk_add_edges pre) G)
  /\ (forall G nodes created,
        outcome (Server.bulk_add_nodes nodes) G = Ok created ->
        created = map Server.node_confirmation nodes)
  /\ (forall G edges created,
        outcome (Server.bulk_add_edges edges) G = Ok created ->
        created = map Server.edge_confirmation edges)
  /\ (forall G nodes created x,
        outcome (Server.bulk_add_nodes nodes) G = Ok created ->
        In x nodes ->
        NX.has_node (state_after (Server.bulk_add_nodes nodes) G)
                    (Server.node_id x) = true)
  /\ (forall G edges created x,
        outcome (Server.bulk_add_edges edges) G = Ok created ->
        In x edges ->
        NX.has_edge (state_after (Server.bulk_add_edges edges) G)
                    (Server.from_node x) (Server.to_node x) = true).
Proof.
  unfold Server.bulk_add_nodes, Server.bulk_add_edges.
  split; [|split; [|split; [|split; [|split]]]].
  - intros G pre x post created e Hp Hx.
    destruct (for_each_stops _ pre x post [] created G e Hp Hx) as [A B].
    split; [assumption|]. rewrite B. eapply add_node_item_fails, Hx.
  - intros G pre x post created e Hp Hx.
    destruct (for_each_stops _ pre x post [] created G e Hp Hx) as [A B].
    split; [assumption|]. rewrite B. eapply add_edge_item_fails, Hx.
  - intros G nodes created Hc.
    apply (for_each_completes _ Server.node_confirmation) in Hc;
      [assumption | apply add_node_item_conf].
  - intros G edges created Hc.
    apply (for_each_completes _ Server.edge_confirmation) in Hc;
      [assumption | apply add_edge_item_conf].
  - intros G nodes created x Hc I.
    apply (for_each_applied Server.add_node_item
             (fun y G0 => NX.has_node G0 (Server.node_id y) = true))
      with (created' := created); auto.
    + intros y G0 r E. rewrite (add_node_item_applied y G0 r E).
      apply has_node_add_node. now left.
    + intros y z G0 r E Hz. rewrite (add_node_item_applied y G0 r E).
      apply has_node_add_node. now right.
  - intros G edges created x Hc I.
    apply (for_each_applied Server.add_edge_item
             (fun y G0 => NX.has_edge G0 (Server.from_node y)
                                      (Server.to_node y) = true))
      with (created' := created); auto.
    + intros y G0 r E. rewrite (add_edge_item_applied y G0 r E).
      apply has_edge_add_edge. now left.
    + intros y z G0 r E Hz. rewrite (add_edge_item_applied y G0 r E).
      apply has_edge_add_edge. now right.
Qed.

(** ** Stored node attributes *)

Lemma node_ok_set a k v :
  node_ok a ->
  (k = "label" /\ (exists s, v = VStr s))
  \/ (k = "phase" /\ (exists z, v = VInt z))
  \/ (k = "tool" /\ (exists s, v = VStr s))
  \/ (k = "properties" /\ (exists d, v = VDict d)) ->
  node_ok (set k v a).
Proof.
  intros (K & (t & T & Tin) & (l & L) & (d & D)) Hk.
  assert (Kin : In k node_keys)
    by (unfold node_keys; simpl; intuition (subst; auto)).
  split; [|split; [|split]].
  - intros k'. rewrite In_keys_set. intros [->|I]; auto.
  - exists t. split; [|assumption]. rewrite get_set_neq; [assumption|].
    intuition (subst; discriminate).
  - destruct Hk as [[-> (s & ->)]|Hk].
    + exists s. apply get_set_eq.
    + exists l. rewrite get_set_neq; [assumption|].
      intuition (subst; discriminate).
  - destruct Hk as [Hk|[Hk|[Hk|[-> (d' & ->)]]]].
    1-3: exists d; rewrite get_set_neq; [assumption|];
         intuition (subst; discriminate).
    exists d'. apply get_set_eq.
Qed.

Lemma node_ok_new n t l p tl pr :
  In t StateGraph.node_types ->
  node_ok (update [] (StateGraph.node_attrs n t l p tl pr)).
Proof.
  intros Tin. unfold StateGraph.node_attrs, node_ok, node_keys.
  destruct p, tl; simpl; (split; [|split; [|split]]);
    try (intros k; tauto); eauto.
Qed.

Lemma nodes_ok_set_node_attr G n k v :
  nodes_ok G ->
  (k = "label" /\ (exists s, v = VStr s))
  \/ (k = "phase" /\ (exists z, v = VInt z))
  \/ (k = "tool" /\ (exists s, v = VStr s))
  \/ (k = "properties" /\ (exists d, v = VDict d)) ->
  In n (NX.nodes G) ->
  nodes_ok (NX.set_node_attr n k v G).
Proof.
  intros H Hk I x a. unfold NX.set_node_attr; simpl. rewrite get_set.
  destruct (String.eqb_spec n x) as [<-|N]; [|apply H].
  intros [= <-]. apply node_ok_set; [|assumption].
  destruct (keys_get _ _ I) as [a E]. rewrite E. eapply H, E.
Qed.

Lemma nodes_ok_store_if {A} G n k (f : A -> value) x :
  (forall a, (k = "label" /\ (exists s, f a = VStr s))
             \/ (k = "phase" /\ (exists z, f a = VInt z))
             \/ (k = "tool" /\ (exists s, f a = VStr s))
             \/ (k = "properties" /\ (exists d, f a = VDict d))) ->
  nodes_ok G /\ In n (NX.nodes G) ->
  nodes_ok (store_if n k f x G) /\ In n (NX.nodes (store_if n k f x G)).
Proof.
  intros Hf [H I]. destruct x; simpl; [|tauto]. split.
  - now apply nodes_ok_set_node_attr.
  - now rewrite nodes_set_node_attr.
Qed.

Lemma nodes_ok_updated G n l p tl pr :
  nodes_ok G -> In n (NX.nodes G) -> nodes_ok (updated n l p tl pr G).
Proof.
  intros H I. unfold updated.
  assert (H3 : nodes_ok (store_if n "tool" VStr tl
                 (store_if n "phase" VInt p (store_if n "label" VStr l G)))
               /\ In n (NX.nodes (store_if n "tool" VStr tl
                 (store_if n "phase" VInt p (store_if n "label" VStr l G))))).
  { apply nodes_ok_store_if; [intros a; right; right; left; eauto|].
    apply nodes_ok_store_if; [intros a; right; left; eauto|].
    apply nodes_ok_store_if; [intros a; left; eauto|]. tauto. }
  destruct H3 as [H3 I3]. destruct pr; [|exact H3].
  apply nodes_ok_set_node_attr; [assumption | | assumption].
  right; right; right. unfold merge_properties. eauto.
Qed.

Lemma nodes_ok_call o G :
  wf G -> nodes_ok G -> nodes_ok (state_after (call o) G).
Proof.
  intros W H. unfold state_after.
  destruct o as [n t l p tl pr|n l p tl pr|n|u v o c pr|u v|u v o|u v c];
    simpl call.
  - rewrite add_node_eq.
    destruct (NX.has_node G n) eqn:E; [exact H|].
    destruct (mem t StateGraph.node_types) eqn:T; [|exact H].
    apply mem_In in T. simpl. intros x a.
    unfold NX.add_node; simpl. rewrite get_set.
    destruct (String.eqb_spec n x) as [<-|N].
    + intros [= <-]. unfold NX.ensure_node.
      assert (C : contains n (_succ G) = false).
      { apply contains_false. rewrite (wf_succ_keys G W).
        now apply has_node_false. }
      rewrite C. simpl. rewrite get_set_eq. now apply node_ok_new.
    + unfold NX.ensure_node. destruct (contains n (_succ G)); simpl.
      * apply H.
      * rewrite get_set_neq by assumption. apply H.
  - rewrite update_node_eq.
    destruct (NX.has_node G n) eqn:E; [|exact H].
    apply nodes_ok_updated; [exact H | now apply has_node_In].
  - rewrite remove_node_eq.
    destruct (NX.has_node G n); [|exact H]. simpl. intros x a.
    unfold NX.remove_node; simpl. rewrite get_del by apply W.
    destruct (String.eqb n x); [discriminate | apply H].
  - rewrite add_edge_eq.
    destruct (NX.has_node G u) eqn:Eu; [|exact H].
    destruct (NX.has_node G v) eqn:Ev; [|exact H].
    apply has_node_In in Eu, Ev. simpl.
    rewrite add_edge_put_edge by assumption. exact H.
  - rewrite remove_edge_eq. destruct (NX.has_edge G u v); exact H.
  - rewrite set_edge_order_eq. destruct (NX.has_edge G u v); exact H.
  - rewrite set_edge_condition_eq.
    destruct (NX.has_edge G u v); [|exact H]. simpl.
    unfold condition_set. destruct c; [exact H|].
    destruct (contains "condition" (NX.edge_data G u v)); exact H.
Qed.

Lemma reachable_nodes_ok G : reachable G -> nodes_ok G.
Proof.
  intros [ops ->].
  enough (forall G, wf G -> nodes_ok G -> nodes_ok (run ops G)) as E.
  { apply E; [apply wf_empty | intros n a; discriminate]. }
  induction ops as [|o r IH]; simpl; intros G W H; [exact H|].
  apply IH; [now apply wf_call | now apply nodes_ok_call].
Qed.

(** ** C10: what [get_node] and [list_nodes] return *)

(** C10, the premise: the class body does not bind every method twice;
    [get_execution_sequence] has a single [def]. *)
Lemma not_every_method_defined_twice :
  ~ (forall name, In name (keys StateGraph.class_body) ->
                  StateGraph.times_defined name = 2).
Proof.
  intros H. specialize (H "get_execution_sequence").
  assert (I : In "get_execution_sequence" (keys StateGraph.class_body))
    by (apply contains_keys; reflexivity).
  apply H in I. vm_compute in I. discriminate.
Qed.

Lemma list_nodes_ids (d : dict attrs) :
  Forall2 (fun id r => get "node_id" r = Some (VStr id))
          (keys d)
          (map (fun na => set "node_id" (VStr (fst na)) (snd na)) d).
Proof.
  induction d as [|[n a] r IH]; simpl; constructor; [|assumption].
  simpl. apply get_set_eq.
Qed.

(** C10.  [get_node] is bound twice in the class body and the binding in
    effect is the later one, of line 666.  On a present node of
    any graph a store can hold it returns the stored attribute mapping
    itself: its keys are among node_type, label, properties, phase and
    tool, and there is no node_id key.  Each record of [list_nodes] has the
    node's id under node_id.  The earlier [get_node], of line 244, which
    would embed node_id, is not the function the name refers to. *)
Theorem get_node_payload :
  StateGraph.times_defined "get_node" = 2
  /\ get "get_node" StateGraph.namespace = Some 666
  /\ (forall n G, StateGraph.get_node n G = StateGraph.get_node_at_666 n G)
  /\ (forall G n,
        reachable G -> NX.has_node G n = true ->
        exists a, get n (_node G) = Some a
                  /\ StateGraph.get_node n G = (Ok a, G)
                  /\ get "node_id" a = None
                  /\ node_ok a)
  /\ (forall G, exists rs,
        StateGraph.list_nodes G = (Ok rs, G)
        /\ Forall2 (fun id r => get "node_id" r = Some (VStr id))
                   (NX.nodes G) rs)
  /\ (forall G n a,
        get n (_node G) = Some a ->
        exists r, StateGraph.get_node_at_244 n G = (Ok r, G)
                  /\ get "node_id" r = Some (VStr n)).
Proof.
  split; [reflexivity|]. split; [reflexivity|]. split; [reflexivity|].
  split; [|split].
  - intros G n R Hn. apply has_node_In, keys_get in Hn.
    destruct Hn as [a E]. exists a.
    pose proof (reachable_nodes_ok G R n a E) as Hok.
    repeat split; try apply Hok; try assumption.
    + change (StateGraph.get_node n G) with (StateGraph.get_node_at_666 n G).
      unfold StateGraph.get_node_at_666. run_monad. now rewrite E.
    + apply get_None. intros I. apply (proj1 Hok) in I.
      unfold node_keys in I. simpl in I.
      intuition discriminate.
  - intros G. eexists. split; [reflexivity|]. apply list_nodes_ids.
  - intros G n a E. eexists. split.
    + unfold StateGraph.get_node_at_244. run_monad. rewrite E. reflexivity.
    + apply get_set_eq.
Qed.

(** ** C4: adding an edge that is already there *)

Lemma edge_data_put_edge G u v dd : NX.edge_data (put_edge u v dd G) u v = dd.
Proof.
  unfold NX.edge_data. rewrite succ_of_put_edge, String.eqb_refl.
  now rewrite get_set_eq.
Qed.

Lemma has_edge_put_edge G u v dd : NX.has_edge (put_edge u v dd G) u v = true.
Proof.
  apply has_edge_In. rewrite succ_of_put_edge, String.eqb_refl.
  apply In_keys_set. now left.
Qed.

Lemma get_edge_attrs o c pr :
  get "order" (StateGraph.edge_attrs o c pr) = Some (VInt o)
  /\ get "properties" (StateGraph.edge_attrs o c pr)
     = Some (VDict (or_dict pr))
  /\ get "condition" (StateGraph.edge_attrs o c pr) = option_map VStr c
  /\ NoDup (keys (StateGraph.edge_attrs o c pr)).
Proof.
  unfold StateGraph.edge_attrs. destruct c; simpl; repeat split;
    repeat constructor; simpl; intuition discriminate.
Qed.

(** [d.update(e)], key by key *)
Lemma get_update {V} k (d e : dict V) :
  NoDup (keys e) ->
  get k (update d e) = match get k e with Some v => Some v | None => get k d end.
Proof.
  intros ND. destruct (get k e) as [v|] eqn:E.
  - apply get_update_in; [assumption | now apply get_In].
  - apply get_update_other. now apply get_None.
Qed.

(** C4, the condition: a second [add_edge] that supplies no condition
    leaves the old one in place; the edge has a condition although the
    call gave none. *)
Lemma re_add_edge_keeps_condition :
  NX.has_edge (run ops_conditional NX.empty) "A" "B" = true
  /\ ~ (contains "condition"
          (NX.edge_data
             (state_after (StateGraph.add_edge "A" "B" 1 None None)
                          (run ops_conditional NX.empty)) "A" "B") = true
        <-> (@None string) <> None).
Proof.
  split; [reflexivity|]. intros [H _].
  apply H; [vm_compute|]; reflexivity.
Qed.

(** C4.  On a graph a store can hold, [add_edge] on a pair that is
    already an edge succeeds, raises nothing and keeps the edge;
    afterwards the edge's order is the new order and its properties
    mapping is the new one; its condition is the new condition when the
    call supplies one, and the condition it had before, if any, when the
    call supplies none. *)
Theorem re_add_edge_overwrites G u v o c pr :
  reachable G -> NX.has_edge G u v = true ->
  outcome (StateGraph.add_edge u v o c pr) G
  = Ok [("from", VStr u); ("to", VStr v); ("status", VStr "added")]
  /\ NX.has_edge (state_after (StateGraph.add_edge u v o c pr) G) u v = true
  /\ get "order"
         (NX.edge_data (state_after (StateGraph.add_edge u v o c pr) G) u v)
     = Some (VInt o)
  /\ get "properties"
         (NX.edge_data (state_after (StateGraph.add_edge u v o c pr) G) u v)
     = Some (VDict (or_dict pr))
  /\ get "condition"
         (NX.edge_data (state_after (StateGraph.add_edge u v o c pr) G) u v)
     = match c with
       | Some x => Some (VStr x)
       | None => get "condition" (NX.edge_data G u v)
       end.
Proof.
  intros R E. pose proof (reachable_wf G R) as W.
  destruct (wf_edge_endpoints G u v W E) as [Iu Iv].
  unfold outcome, state_after. rewrite add_edge_eq.
  rewrite (proj2 (has_node_In G u) Iu), (proj2 (has_node_In G v) Iv). simpl.
  rewrite add_edge_put_edge by assumption.
  rewrite edge_data_put_edge, has_edge_put_edge.
  destruct (get_edge_attrs o c pr) as (A1 & A2 & A3 & ND).
  rewrite !get_update by assumption. rewrite A1, A2, A3.
  repeat split. now destruct c.
Qed.

(** ** The stable sort and its first element *)

Lemma first_min_unique {A} (key : A -> Z) l x y :
  first_min key l x -> first_min key l y -> x = y.
Proof.
  intros (a1 & a2 & Ea & La & Ra) (b1 & b2 & Eb & Lb & Rb).
  rewrite Ea in Eb. clear Ea. revert b1 Eb Lb.
  induction a1 as [|h t IH]; intros [|h' t'] Eb Lb; simpl in Eb.
  - congruence.
  - injection Eb as -> ->.
    assert (key y < key h')%Z by (apply Lb; now left).
    assert (key h' <= key y)%Z by (apply Ra, in_elt). lia.
  - injection Eb as <- <-.
    assert (key x < key h)%Z by (apply La; now left).
    assert (key h <= key x)%Z by (apply Rb, in_elt). lia.
  - injection Eb as <- Eb.
    apply (IH (fun z I => La z (or_intror I)) t' Eb).
    intros z I. apply Lb. now right.
Qed.

Lemma sort_by_map_head {A B} (key : B -> Z) (g : A -> B) (l : list A) :
  match sort_by key (map g l) with
  | [] => l = []
  | x :: _ => exists e, x = g e /\ first_min (fun e => key (g e)) l e
  end.
Proof.
  induction l as [|a r IH]; simpl; [reflexivity|].
  destruct (sort_by key (map g r)) as [|x t]; simpl.
  - subst r. exists a. split; [reflexivity|].
    exists [], []. simpl. repeat split; intros ? [].
  - destruct IH as (e & -> & l1 & l2 & -> & L & R).
    destruct (Z.leb_spec (key (g a)) (key (g e))) as [Le|Gt].
    + exists a. split; [reflexivity|]. exists [], (l1 ++ e :: l2)%list.
      repeat split; [intros ? []|].
      intros y I. apply in_app_iff in I. destruct I as [I|[<-|I]].
      * specialize (L y I). lia.
      * assumption.
      * specialize (R y I). lia.
    + exists e. split; [reflexivity|]. exists (a :: l1), l2.
      repeat split; [|assumption].
      intros y [<-|I]; [lia | now apply L].
Qed.

Lemma order_key_edge_record e :
  StateGraph.order_key (StateGraph.edge_record e) = edge_order e.
Proof.
  destruct e as [[u v] a]. unfold StateGraph.order_key, edge_order. simpl.
  now rewrite !get_set_neq by discriminate.
Qed.

Lemma get_to_edge_record e :
  get "to" (StateGraph.edge_record e) = Some (VStr (snd (fst e))).
Proof. destruct e as [[u v] a]. simpl. apply get_set_eq. Qed.

Lemma get_from_edge_record e :
  get "from" (StateGraph.edge_record e) = Some (VStr (fst (fst e))).
Proof.
  destruct e as [[u v] a]. simpl.
  rewrite get_set_neq by discriminate. apply get_set_eq.
Qed.

(** The edge the walk follows *)
Lemma next_edge_spec G c :
  match sort_by StateGraph.order_key
          (map StateGraph.edge_record (NX.out_edges G c)) with
  | [] => NX.out_edges G c = []
  | x :: _ => exists e, x = StateGraph.edge_record e
                        /\ first_min edge_order (NX.out_edges G c) e
  end.
Proof.
  pose proof (sort_by_map_head StateGraph.order_key StateGraph.edge_record
                (NX.out_edges G c)) as H.
  destruct (sort_by _ _); [assumption|].
  destruct H as (e & -> & l1 & l2 & E & L & R). exists e.
  split; [reflexivity|]. exists l1, l2.
  split; [assumption|]. split; intros y I.
  - rewrite <- !order_key_edge_record. now apply L.
  - rewrite <- !order_key_edge_record. now apply R.
Qed.

(** ** The walk of [get_execution_sequence] *)

Lemma visited_bound (G : DiGraph) (visited : list string) :
  NoDup visited -> incl visited (NX.nodes G) ->
  length visited <= NX.number_of_nodes G.
Proof.
  intros ND I. unfold NX.number_of_nodes. rewrite <- (keys_length (_node G)).
  now apply NoDup_incl_length.
Qed.

Lemma loop_guard current visited :
  negb (truthy current && negb (mem current visited)) = true
  <-> empty_or_revisit current visited.
Proof.
  unfold empty_or_revisit, truthy. rewrite negb_true_iff, andb_false_iff,
    !negb_false_iff, String.eqb_eq, mem_In. tauto.
Qed.

(** The loop always comes to an end within its budget, on any graph. *)
Lemma walk_terminates G until_decision :
  forall fuel current visited sequence,
    NoDup visited -> incl visited (NX.nodes G) ->
    NX.number_of_nodes G < fuel + length visited ->
    exists r, StateGraph.walk fuel G until_decision current visited sequence
              = Some r.
Proof.
  induction fuel as [|fuel IH]; intros current visited sequence ND I B.
  - pose proof (visited_bound G visited ND I). simpl in B. lia.
  - simpl.
    destruct (negb (truthy current && negb (mem current visited))) eqn:Gd;
      [eauto|].
    assert (NI : ~ In current visited).
    { intros X. apply not_true_iff_false in Gd. apply Gd, loop_guard.
      now right. }
    destruct (get current (_node G)) as [a|] eqn:E; [|eauto].
    destruct (until_decision && _); [eauto|].
    destruct (map _ _) as [|r0 rs]; [eauto|].
    destruct (sort_by _ _) as [|next_edge rest]; [eauto|].
    destruct (get "to" next_edge) as [[| | |t| |]|]; eauto.
    apply IH.
    + now constructor.
    + intros x [<-|X]; [eapply get_Some_keys, E | now apply I].
    + simpl. lia.
Qed.

(** On a well-formed graph the loop computes the walk of the spec, with
    the halting condition of the code. *)
Lemma walk_refines G until_decision :
  wf G ->
  forall fuel current visited sequence,
    In current (NX.nodes G) ->
    NoDup visited -> incl visited (NX.nodes G) ->
    NX.number_of_nodes G < fuel + length visited ->
    exists s,
      StateGraph.walk fuel G until_decision current visited sequence
      = Some (Ok (sequence ++ s)%list)
      /\ sequence_from empty_or_revisit G until_decision current visited s.
Proof.
  intros W.
  induction fuel as [|fuel IH]; intros current visited sequence Ic ND I B.
  - pose proof (visited_bound G visited ND I). simpl in B. lia.
  - simpl.
    destruct (negb (truthy current && negb (mem current visited))) eqn:Gd.
    { exists []. rewrite app_nil_r. split; [reflexivity|].
      apply seq_halt. now apply loop_guard. }
    assert (NS : ~ empty_or_revisit current visited).
    { intros X. apply loop_guard in X. congruence. }
    destruct (keys_get _ _ Ic) as [a E]. rewrite E.
    set (r := set "node_id" (VStr current) a).
    assert (Er : node_record G current = Some r)
      by (unfold node_record; now rewrite E).
    fold (is_decision r).
    destruct (until_decision && is_decision r) eqn:D.
    { exists [r]. split; [reflexivity|].
      apply andb_true_iff in D. now apply seq_decision. }
    pose proof (next_edge_spec G current) as Hn.
    destruct (map StateGraph.edge_record (NX.out_edges G current))
      as [|r0 rs] eqn:Em.
    { exists [r]. split; [reflexivity|].
      apply map_eq_nil in Em. now apply seq_dead_end. }
    destruct (sort_by _ _) as [|next_edge others].
    { rewrite Hn in Em. discriminate. }
    destruct Hn as (e & -> & Hmin). rewrite get_to_edge_record.
    assert (It : In (snd (fst e)) (NX.nodes G)).
    { destruct Hmin as (l1 & l2 & El & _).
      assert (Ie : In e (NX.out_edges G current))
        by (rewrite El; apply in_elt).
      apply In_out_edges in Ie. destruct Ie as (v & d & -> & Iv). simpl.
      apply (wf_edge_endpoints G current v W), has_edge_In.
      unfold keys. now apply (in_map fst) in Iv. }
    destruct (IH (snd (fst e)) (current :: visited) (sequence ++ [r])%list)
      as (s & Es & Hs).
    + assumption.
    + constructor; [|assumption]. intros X. apply NS. now right.
    + intros x [<-|X]; [assumption | now apply I].
    + simpl. lia.
    + exists (r :: s). rewrite Es, <- app_assoc. split; [reflexivity|].
      now apply seq_advance with (e := e).
Qed.

(** The walk of the spec is a function of where it starts. *)
Lemma sequence_from_unique stop G until_decision c emitted s1 s2 :
  sequence_from stop G until_decision c emitted s1 ->
  sequence_from stop G until_decision c emitted s2 ->
  s1 = s2.
Proof.
  intros H1. revert s2.
  induction H1 as [c em S|c em r NS R U D|c em r NS R D O
                   |c em r e rest NS R D M H1 IH];
    intros s2 H2; inversion H2; subst; try reflexivity; try contradiction;
    try congruence.
  - match goal with
    | U : _ && _ = false, T : is_decision _ = true |- _ =>
        replace r0 with r in * by congruence; rewrite T in U; discriminate
    end.
  - match goal with
    | X : first_min _ _ _, O : NX.out_edges _ _ = [] |- _ =>
        rewrite O in X; destruct X as ([|? ?] & ? & ? & _); discriminate
    end.
  - match goal with
    | T : is_decision _ = true |- _ =>
        replace r0 with r in * by congruence; rewrite T in D; discriminate
    end.
  - match goal with
    | O : NX.out_edges _ _ = [] |- _ =>
        rewrite O in M; destruct M as ([|? ?] & ? & ? & _); discriminate
    end.
  - match goal with
    | X : first_min _ _ e0 |- _ =>
        pose proof (first_min_unique _ _ _ _ M X) as <-
    end.
    f_equal; [congruence | auto].
Qed.

(** No node is emitted twice. *)
Lemma sequence_from_distinct G until_decision c emitted s :
  sequence_from empty_or_revisit G until_decision c emitted s ->
  exists cs, map (get "node_id") s = map (fun x => Some (VStr x)) cs
             /\ NoDup cs /\ (forall x, In x cs -> ~ In x emitted)
             /\ incl cs (NX.nodes G).
Proof.
  assert (Rec : forall c r, node_record G c = Some r ->
                get "node_id" r = Some (VStr c) /\ In c (NX.nodes G)).
  { intros c0 r0. unfold node_record.
    destruct (get c0 (_node G)) eqn:E; [|discriminate].
    intros [= <-]. split; [apply get_set_eq | eapply get_Some_keys, E]. }
  induction 1 as [c em S|c em r NS R U D|c em r NS R D O
                  |c em r e rest NS R D M H1 IH].
  - exists []. repeat split; [constructor | intros ? [] | intros ? []].
  - destruct (Rec _ _ R) as [Ei Ic]. exists [c]. simpl. rewrite Ei.
    repeat split.
    + repeat constructor. intros [].
    + intros x [<-|[]] X. apply NS. now right.
    + intros x [<-|[]]. assumption.
  - destruct (Rec _ _ R) as [Ei Ic]. exists [c]. simpl. rewrite Ei.
    repeat split.
    + repeat constructor. intros [].
    + intros x [<-|[]] X. apply NS. now right.
    + intros x [<-|[]]. assumption.
  - destruct (Rec _ _ R) as [Ei Ic].
    destruct IH as (cs & Em & ND & Dis & Inc).
    exists (c :: cs). simpl. rewrite Ei, Em. repeat split.
    + constructor; [|assumption]. intros X. apply (Dis c X). now left.
    + intros x [<-|X] Y.
      * apply NS. now right.
      * apply (Dis x X). now right.
    + intros x [<-|X]; [assumption | now apply Inc].
Qed.

Lemma get_execution_sequence_eq from_node until_decision G :
  NX.has_node G from_node = true ->
  outcome (StateGraph.get_execution_sequence from_node until_decision) G
  = match StateGraph.walk (S (NX.number_of_nodes G)) G until_decision
            from_node [] [] with
    | Some (Ok s) => Ok (Some s)
    | Some (Raise e) => Raise e
    | None => Ok None
    end.
Proof.
  intros E. unfold outcome, StateGraph.get_execution_sequence. run_monad.
  rewrite E. cbv [negb].
  destruct (StateGraph.walk _ _ _ _ _ _) as [[s|e]|]; reflexivity.
Qed.

Lemma execution_sequence_refines G from_node until_decision :
  reachable G -> NX.has_node G from_node = true ->
  exists s,
    outcome (StateGraph.get_execution_sequence from_node until_decision) G
    = Ok (Some s)
    /\ sequence_from empty_or_revisit G until_decision from_node [] s.
Proof.
  intros R E. pose proof (reachable_wf G R) as W.
  rewrite get_execution_sequence_eq by assumption.
  destruct (walk_refines G until_decision W (S (NX.number_of_nodes G))
              from_node [] []) as (s & Es & Hs).
  - now apply has_node_In.
  - constructor.
  - intros ? [].
  - simpl. lia.
  - exists s. rewrite Es. split; [reflexivity | assumption].
Qed.

(** ** C2: the execution sequence follows the least order *)

(** C2, the empty id: a node whose id is the empty string is never
    emitted, not even as the start node; the walk described by the spec,
    which halts only on a node already emitted, is not what the call
    returns there. *)
Lemma empty_id_is_not_walked :
  NX.has_node (run ops_empty_id NX.empty) "" = true
  /\ ~ (exists s,
          outcome (StateGraph.get_execution_sequence "" false)
                  (run ops_empty_id NX.empty) = Ok (Some s)
          /\ sequence_from revisit (run ops_empty_id NX.empty) false "" [] s).
Proof.
  split; [reflexivity|]. intros (s & E & H).
  vm_compute in E. injection E as <-.
  inversion H as [c em S| | |]; subst. exact S.
Qed.

(** C2.  On every graph a store can hold and for every start node
    present in it, [get_execution_sequence] returns the walk of the spec:
    it emits the current node's data with its id; it stops after emitting
    a decision node when [until_decision] is true; otherwise it stops when
    the node has no outgoing edge, and else moves along the outgoing edge
    of least order, the first such in the insertion order of the node's
    out-edges.  The walk halts before emitting when the current
    id is the empty string or was already emitted.  That walk is unique.
    On A (action) -> B (decision) -> C (action) with both orders 0 the
    result is [A, B] with [until_decision] true and [A, B, C] with it
    false. *)
Theorem execution_sequence_follows_least_order :
  (forall G from_node until_decision,
     reachable G -> NX.has_node G from_node = true ->
     exists s,
       outcome (StateGraph.get_execution_sequence from_node until_decision) G
       = Ok (Some s)
       /\ sequence_from empty_or_revisit G until_decision from_node [] s
       /\ (forall s', sequence_from empty_or_revisit G until_decision
                        from_node [] s' -> s' = s))
  /\ outcome (StateGraph.get_execution_sequence "A" true)
             (run ops_workflow NX.empty)
     = Ok (Some [[("node_type", VStr "action"); ("label", VStr "A");
                  ("properties", VDict []); ("node_id", VStr "A")];
                 [("node_type", VStr "decision"); ("label", VStr "B");
                  ("properties", VDict []); ("node_id", VStr "B")]])
  /\ outcome (StateGraph.get_execution_sequence "A" false)
             (run ops_workflow NX.empty)
     = Ok (Some [[("node_type", VStr "action"); ("label", VStr "A");
                  ("properties", VDict []); ("node_id", VStr "A")];
                 [("node_type", VStr "decision"); ("label", VStr "B");
                  ("properties", VDict []); ("node_id", VStr "B")];
                 [("node_type", VStr "action"); ("label", VStr "C");
                  ("properties", VDict []); ("node_id", VStr "C")]]).
Proof.
  split; [|split; reflexivity].
  intros G from_node until_decision R E.
  destruct (execution_sequence_refines G from_node until_decision R E)
    as (s & Es & Hs).
  exists s. repeat split; try assumption.
  intros s' Hs'. eapply sequence_from_unique; eassumption.
Qed.

(** ** C3: the execution sequence terminates *)

Lemma NoDup_map_Some_VStr (cs : list string) :
  NoDup cs -> NoDup (map (fun x => Some (VStr x)) cs).
Proof.
  induction 1 as [|c cs NI ND IH]; simpl; constructor; [|assumption].
  intros X. apply in_map_iff in X. destruct X as (y & [= ->] & I). auto.
Qed.

(** C3.  The loop of [get_execution_sequence] comes to an end within one
    turn more than the graph has nodes, on any graph, from any start node
    and for both values of [until_decision], so the call never exhausts
    its budget.  On a graph a store can hold
    and from a present start node the call returns a sequence, raises
    nothing, and emits no node twice, so at most as many records as there
    are nodes: the walk stops when it comes back to a node it has emitted
    and does not append it again.  On the cycle A -> B -> A of two action
    nodes with [until_decision] false it returns exactly [A, B]. *)
Theorem execution_sequence_terminates :
  (forall G from_node until_decision,
     exists r, StateGraph.walk (S (NX.number_of_nodes G)) G until_decision
                 from_node [] [] = Some r)
  /\ (forall G from_node until_decision,
        outcome (StateGraph.get_execution_sequence from_node until_decision)
                G <> Ok None)
  /\ (forall G from_node until_decision,
        reachable G -> NX.has_node G from_node = true ->
        exists s,
          outcome (StateGraph.get_execution_sequence from_node until_decision)
                  G = Ok (Some s)
          /\ NoDup (map (get "node_id") s)
          /\ length s <= NX.number_of_nodes G)
  /\ outcome (StateGraph.get_execution_sequence "A" false)
             (run ops_cycle NX.empty)
     = Ok (Some [[("node_type", VStr "action"); ("label", VStr "A");
                  ("properties", VDict []); ("node_id", VStr "A")];
                 [("node_type", VStr "action"); ("label", VStr "B");
                  ("properties", VDict []); ("node_id", VStr "B")]]).
Proof.
  assert (T : forall G from_node until_decision,
            exists r, StateGraph.walk (S (NX.number_of_nodes G)) G
                        until_decision from_node [] [] = Some r).
  { intros G from_node until_decision. apply walk_terminates.
    - constructor.
    - intros ? [].
    - simpl. lia. }
  split; [exact T|]. split; [|split; [|reflexivity]].
  - intros G from_node until_decision.
    destruct (NX.has_node G from_node) eqn:E.
    + rewrite get_execution_sequence_eq by assumption.
      destruct (T G from_node until_decision) as [[s|e] ->]; discriminate.
    + unfold outcome, StateGraph.get_execution_sequence. run_monad.
      rewrite E. discriminate.
  - intros G from_node until_decision R E.
    destruct (execution_sequence_refines G from_node until_decision R E)
      as (s & Es & Hs).
    exists s. split; [assumption|].
    destruct (sequence_from_distinct _ _ _ _ _ Hs) as (cs & Em & ND & _ & Inc).
    split.
    + rewrite Em. now apply NoDup_map_Some_VStr.
    + assert (L : length s = length cs).
      { transitivity (length (map (get "node_id") s));
          [symmetry; apply length_map | rewrite Em; apply length_map]. }
      rewrite L. now apply visited_bound.
Qed.

(** ** The edge views of one node *)

Lemma In_in_edges G n u v a :
  wf G ->
  In (u, v, a) (NX.in_edges G n) <-> v = n /\ get n (NX.succ_of G u) = Some a.
Proof.
  intros W. unfold NX.in_edges. rewrite in_map_iff. split.
  - intros ([u' []] & [= -> <- <-] & I). split; [reflexivity|].
    apply (in_map fst) in I. simpl in I.
    apply (wf_mirror G W), keys_get in I.
    destruct I as [a' E]. unfold NX.edge_data. now rewrite E.
  - intros [-> E]. exists (u, tt). simpl. split.
    + unfold NX.edge_data. now rewrite E.
    + apply get_In, get_unit, (wf_mirror G W). eapply get_Some_keys, E.
Qed.

Lemma In_out_edges_wf G n u v a :
  wf G ->
  In (u, v, a) (NX.out_edges G n) <-> u = n /\ get v (NX.succ_of G n) = Some a.
Proof.
  intros W. rewrite In_out_edges. split.
  - intros (v' & a' & [= -> -> ->] & I). split; [reflexivity|].
    apply In_get; [apply W | assumption].
  - intros [-> E]. exists v, a. split; [reflexivity | now apply get_In].
Qed.

Lemma count_key (u : string) (ks : list string) :
  NoDup ks ->
  length (filter (fun k => String.eqb k u) ks) = if mem u ks then 1 else 0.
Proof.
  induction 1 as [|k ks NI ND IH]; simpl; [reflexivity|].
  rewrite (String.eqb_sym u k).
  destruct (String.eqb_spec k u) as [->|N]; simpl; [|assumption].
  rewrite IH. apply mem_false in NI. now rewrite NI.
Qed.

Lemma filter_map_length {A B} (p : B -> bool) (f : A -> B) l :
  length (filter p (map f l)) = length (filter (fun x => p (f x)) l).
Proof.
  induction l as [|x r IH]; simpl; [reflexivity|].
  destruct (p (f x)); simpl; now rewrite IH.
Qed.

Lemma filter_keys_length {V} (p : string -> bool) (d : dict V) :
  length (filter (fun kv => p (fst kv)) d) = length (filter p (keys d)).
Proof. unfold keys. now rewrite filter_map_length. Qed.

Lemma record_joins_edge_record u v e :
  record_joins u v (StateGraph.edge_record e)
  = String.eqb (fst (fst e)) u && String.eqb (snd (fst e)) v.
Proof.
  unfold record_joins. now rewrite get_from_edge_record, get_to_edge_record.
Qed.

Lemma occurrences_in_edges G n u v :
  wf G ->
  occurrences u v (map StateGraph.edge_record (NX.in_edges G n))
  = if String.eqb v n && NX.has_edge G u v then 1 else 0.
Proof.
  intros W. unfold occurrences, NX.in_edges.
  rewrite !filter_map_length.
  rewrite (filter_ext _ (fun kv => String.eqb n v && String.eqb (fst kv) u))
    by (intros kv; rewrite record_joins_edge_record; simpl; apply andb_comm).
  rewrite (String.eqb_sym v n).
  destruct (String.eqb_spec n v) as [<-|N]; simpl.
  - rewrite (filter_keys_length (fun k => String.eqb k u)).
    rewrite count_key by apply W.
    destruct (mem u (keys (NX.pred_of G n))) eqn:E;
      destruct (NX.has_edge G u n) eqn:E'; try reflexivity; exfalso.
    + apply mem_In, (wf_mirror G W), has_edge_In in E. congruence.
    + apply has_edge_In, (wf_mirror G W), mem_In in E'. congruence.
  - induction (NX.pred_of G n); simpl; auto.
Qed.

Lemma occurrences_out_edges G n u v :
  wf G ->
  occurrences u v (map StateGraph.edge_record (NX.out_edges G n))
  = if String.eqb u n && NX.has_edge G u v then 1 else 0.
Proof.
  intros W. unfold occurrences, NX.out_edges.
  rewrite !filter_map_length.
  rewrite (filter_ext _ (fun kv => String.eqb n u && String.eqb (fst kv) v))
    by (intros kv; rewrite record_joins_edge_record; reflexivity).
  rewrite (String.eqb_sym u n).
  destruct (String.eqb_spec n u) as [<-|N]; simpl.
  - rewrite (filter_keys_length (fun k => String.eqb k v)).
    rewrite count_key by apply W.
    destruct (mem v (keys (NX.succ_of G n))) eqn:E;
      destruct (NX.has_edge G n v) eqn:E'; try reflexivity; exfalso.
    + apply mem_In, has_edge_In in E. congruence.
    + apply has_edge_In, mem_In in E'. congruence.
  - induction (NX.succ_of G n); simpl; auto.
Qed.

Lemma occurrences_app u v rs1 rs2 :
  occurrences u v (rs1 ++ rs2) = occurrences u v rs1 + occurrences u v rs2.
Proof. unfold occurrences. now rewrite filter_app, length_app. Qed.

(** ** C8: the edges of a node *)

Lemma get_edges_eq G n :
  NX.has_node G n = true ->
  outcome (StateGraph.get_edges (Some n)) G
  = Ok (map StateGraph.edge_record (NX.in_edges G n)
        ++ map StateGraph.edge_record (NX.out_edges G n))%list.
Proof.
  intros E. unfold outcome, StateGraph.get_edges. run_monad.
  now rewrite E.
Qed.

(** C8, the self-loop: a self-loop on the node is in the result twice,
    not once. *)
Lemma self_loop_listed_twice :
  NX.has_node (run ops_self_loop NX.empty) "A" = true
  /\ NX.has_edge (run ops_self_loop NX.empty) "A" "A" = true
  /\ ~ (forall rs,
          outcome (StateGraph.get_edges (Some "A"))
                  (run ops_self_loop NX.empty) = Ok rs ->
          occurrences "A" "A" rs = 1).
Proof.
  split; [reflexivity|]. split; [reflexivity|]. intros H.
  specialize (H _ eq_refl). vm_compute in H. discriminate.
Qed.

(** C8.  On a graph a store can hold, [get_edges] with a present node
    returns the records of the node's incoming edges followed by those of
    its outgoing edges.  Every record is an edge of the graph
    that starts or ends at the node, and holds both endpoints under from
    and to.  Every such edge is in the result: once when its endpoints
    differ, and twice, as an incoming and as an outgoing edge, when it is a
    self-loop on the node.  With no node, [get_edges] returns the record of
    every edge of the graph. *)
Theorem get_edges_of_node :
  (forall G n,
     reachable G -> NX.has_node G n = true ->
     exists rs,
       outcome (StateGraph.get_edges (Some n)) G = Ok rs
       /\ (forall r, In r rs ->
             exists u v a,
               In (u, v, a) (NX.edges G) /\ (u = n \/ v = n)
               /\ r = StateGraph.edge_record (u, v, a)
               /\ get "from" r = Some (VStr u)
               /\ get "to" r = Some (VStr v))
       /\ (forall u v a,
             In (u, v, a) (NX.edges G) -> u = n \/ v = n ->
             In (StateGraph.edge_record (u, v, a)) rs
             /\ occurrences u v rs = if String.eqb u v then 2 else 1))
  /\ (forall G,
        outcome (StateGraph.get_edges None) G
        = Ok (map StateGraph.edge_record (NX.edges G))).
Proof.
  split; [|reflexivity].
  intros G n R Hn. pose proof (reachable_wf G R) as W.
  eexists. split; [now apply get_edges_eq|]. split.
  - intros r I. apply in_app_iff in I.
    destruct I as [I|I]; apply in_map_iff in I;
      destruct I as ([[u v] a] & <- & I); exists u, v, a.
    + apply In_in_edges in I; [|assumption]. destruct I as [-> E].
      rewrite In_edges by assumption.
      repeat split; auto;
        [apply (get_from_edge_record (u, n, a))
        |apply (get_to_edge_record (u, n, a))].
    + apply In_out_edges_wf in I; [|assumption]. destruct I as [-> E].
      rewrite In_edges by assumption.
      repeat split; auto;
        [apply (get_from_edge_record (n, v, a))
        |apply (get_to_edge_record (n, v, a))].
  - intros u v a I Hi.
    pose proof (In_edges_has_edge G u v a W I) as He.
    apply In_edges in I; [|assumption]. split.
    + apply in_app_iff. destruct Hi as [->| ->].
      * right. apply in_map. now apply In_out_edges_wf.
      * left. apply in_map. now apply In_in_edges.
    + rewrite occurrences_app, occurrences_in_edges,
        occurrences_out_edges by assumption.
      rewrite He, !andb_true_r.
      destruct (String.eqb_spec u v) as [<-|N].
      * destruct Hi as [->| ->]; now rewrite String.eqb_refl.
      * destruct Hi as [->| ->]; rewrite String.eqb_refl.
        -- destruct (String.eqb_spec v n); [congruence | reflexivity].
        -- destruct (String.eqb_spec u n); [congruence | reflexivity].
Qed.

(** ** Counting the edges of a graph *)

Lemma NoDup_edges_of (s : dict (dict attrs)) :
  NoDup (keys s) ->
  (forall u nbrs, In (u, nbrs) s -> NoDup (keys nbrs)) ->
  NoDup (flat_map (fun un => map (fun kv => (fst un, fst kv, snd kv)) (snd un))
                  s).
Proof.
  induction s as [|[u nbrs] r IH]; simpl; intros ND Hin; [constructor|].
  inversion ND as [|? ? NI ND']; subst.
  apply NoDup_app.
  - apply (NoDup_map_inv (fun e => snd (fst e))).
    rewrite map_map. simpl. apply (Hin u nbrs). now left.
  - apply IH; [assumption|]. intros u' nbrs' I. apply (Hin u' nbrs'). now right.
  - intros [[u' v] a] I1 I2. apply in_map_iff in I1.
    destruct I1 as (kv & [= <- _ _] & _).
    apply In_edges_of in I2. destruct I2 as (nbrs' & I2 & _).
    apply NI. now apply (in_map fst) in I2.
Qed.

Lemma NoDup_edges G : wf G -> NoDup (NX.edges G).
Proof.
  intros W. apply NoDup_edges_of; [apply W|].
  intros u nbrs I. apply In_get in I; [|apply W].
  pose proof (wf_succ_inner G W u) as N. unfold NX.succ_of in N.
  now rewrite I in N.
Qed.

Lemma NoDup_in_edges G n : wf G -> NoDup (NX.in_edges G n).
Proof.
  intros W. apply (NoDup_map_inv (fun e => fst (fst e))).
  unfold NX.in_edges. rewrite map_map. simpl. apply (wf_pred_inner G W n).
Qed.

Lemma NoDup_out_edges G n : wf G -> NoDup (NX.out_edges G n).
Proof.
  intros W. apply (NoDup_map_inv (fun e => snd (fst e))).
  unfold NX.out_edges. rewrite map_map. simpl. apply (wf_succ_inner G W n).
Qed.

Lemma In_edges_remove_node G n e :
  wf G ->
  In e (NX.edges (NX.remove_node n G))
  <-> In e (NX.edges G) /\ incident n e = false.
Proof.
  intros W. destruct e as [[u v] a].
  rewrite !In_edges by (assumption || now apply wf_remove_node).
  rewrite succ_of_remove_node by assumption.
  unfold incident. simpl. rewrite orb_false_iff, !String.eqb_neq.
  destruct (String.eqb_spec n u) as [<-|Nu].
  - simpl. split; [discriminate | tauto].
  - rewrite get_del by apply W.
    destruct (String.eqb_spec n v) as [<-|Nv].
    + split; [discriminate | tauto].
    + split; [intros E; repeat split; congruence | tauto].
Qed.

Lemma NoDup_flat_map_disjoint {A B} (f : A -> list B) (l : list A) :
  NoDup l ->
  (forall x, In x l -> NoDup (f x)) ->
  (forall x y b, In x l -> In y l -> In b (f x) -> In b (f y) -> x = y) ->
  NoDup (flat_map f l).
Proof.
  induction 1 as [|x l NI ND IH]; simpl; intros Hn Hd; [constructor|].
  apply NoDup_app.
  - apply Hn. now left.
  - apply IH.
    + intros y I. apply Hn. now right.
    + intros y z b Iy Iz. apply Hd; now right.
  - intros b I1 I2. apply in_flat_map in I2. destruct I2 as (y & Iy & I2).
    assert (E : x = y) by (apply (Hd x y b); simpl; auto).
    apply NI. now rewrite E.
Qed.

(** Every edge is an incoming edge of exactly one node, and an outgoing
    edge of exactly one node. *)
Lemma edges_by_target G :
  wf G -> Permutation (flat_map (NX.in_edges G) (NX.nodes G)) (NX.edges G).
Proof.
  intros W. apply NoDup_Permutation.
  - apply NoDup_flat_map_disjoint.
    + apply W.
    + intros n _. now apply NoDup_in_edges.
    + intros n m [[u v] a] _ _ I1 I2.
      apply In_in_edges in I1, I2; try assumption.
      destruct I1 as [<- _], I2 as [<- _]. reflexivity.
  - now apply NoDup_edges.
  - intros [[u v] a]. rewrite in_flat_map, In_edges by assumption. split.
    + intros (n & _ & I). apply In_in_edges in I; [|assumption].
      now destruct I as [-> E].
    + intros E. exists v. split; [|now apply In_in_edges].
      apply (wf_edge_endpoints G u v W), has_edge_In.
      eapply get_Some_keys, E.
Qed.

Lemma edges_by_source G :
  wf G -> Permutation (flat_map (NX.out_edges G) (NX.nodes G)) (NX.edges G).
Proof.
  intros W. apply NoDup_Permutation.
  - apply NoDup_flat_map_disjoint.
    + apply W.
    + intros n _. now apply NoDup_out_edges.
    + intros n m [[u v] a] _ _ I1 I2.
      apply In_out_edges_wf in I1, I2; try assumption.
      destruct I1 as [<- _], I2 as [<- _]. reflexivity.
  - now apply NoDup_edges.
  - intros [[u v] a]. rewrite in_flat_map, In_edges by assumption. split.
    + intros (n & _ & I). apply In_out_edges_wf in I; [|assumption].
      now destruct I as [-> E].
    + intros E. exists u. split; [|now apply In_out_edges_wf].
      apply (wf_edge_endpoints G u v W), has_edge_In.
      eapply get_Some_keys, E.
Qed.

Lemma list_sum_add {A} (f g : A -> nat) (l : list A) :
  list_sum (map (fun x => f x + g x) l)
  = list_sum (map f l) + list_sum (map g l).
Proof. induction l as [|x r IH]; simpl; [reflexivity | lia]. Qed.

(** What networkx counts, half the sum of the degrees, is the number of
    edges of the edge view. *)
Lemma number_of_edges_length G :
  wf G -> NX.number_of_edges G = length (NX.edges G).
Proof.
  intros W. unfold NX.number_of_edges, NX.size.
  rewrite (map_ext (NX.degree G)
             (fun n => length (NX.in_edges G n) + length (NX.out_edges G n)))
    by (intros n; unfold NX.degree, NX.in_edges, NX.out_edges;
        now rewrite !length_map).
  rewrite list_sum_add, <- !length_flat_map.
  rewrite (Permutation_length (edges_by_target G W)).
  rewrite (Permutation_length (edges_by_source G W)).
  replace (length (NX.edges G) + length (NX.edges G))
    with (2 * length (NX.edges G)) by lia.
  rewrite Nat.mul_comm. now apply Nat.div_mul.
Qed.

Lemma number_of_edges_remove_node G n :
  wf G ->
  NX.number_of_edges (NX.remove_node n G)
  + length (filter (incident n) (NX.edges G))
  = NX.number_of_edges G.
Proof.
  intros W.
  rewrite !number_of_edges_length by (assumption || now apply wf_remove_node).
  rewrite <- (filter_length (incident n) (NX.edges G)).
  rewrite Nat.add_comm. f_equal.
  apply Permutation_length, NoDup_Permutation.
  - apply NoDup_edges. now apply wf_remove_node.
  - apply NoDup_filter. now apply NoDup_edges.
  - intros e. rewrite In_edges_remove_node by assumption.
    rewrite filter_In, negb_true_iff. tauto.
Qed.

(** The incident edges are the incoming ones and the outgoing ones, a
    self-loop being both. *)
Lemma incident_count G n :
  wf G ->
  length (filter (incident n) (NX.edges G))
  + (if NX.has_edge G n n then 1 else 0)
  = length (NX.in_edges G n) + length (NX.out_edges G n).
Proof.
  intros W.
  assert (P : Permutation
                (filter (incident n) (NX.edges G))
                (NX.in_edges G n
                 ++ filter (fun e => negb (String.eqb (snd (fst e)) n))
                           (NX.out_edges G n))).
  { apply NoDup_Permutation.
    - apply NoDup_filter. now apply NoDup_edges.
    - apply NoDup_app.
      + now apply NoDup_in_edges.
      + apply NoDup_filter. now apply NoDup_out_edges.
      + intros [[u v] a] I1 I2. apply filter_In in I2. simpl in I2.
        apply In_in_edges in I1; [|assumption].
        destruct I1 as [-> _]. rewrite String.eqb_refl in I2.
        destruct I2; discriminate.
    - intros [[u v] a]. rewrite filter_In, in_app_iff, filter_In.
      rewrite In_edges, In_in_edges, In_out_edges_wf by assumption.
      unfold incident. simpl.
      rewrite orb_true_iff, negb_true_iff, !String.eqb_eq, String.eqb_neq.
      split.
      + intros [E [->| ->]].
        * destruct (string_dec v n) as [->|N]; [now left | now right].
        * now left.
      + intros [[-> E]|[[-> E] N]]; auto. }
  apply Permutation_length in P. rewrite P, length_app.
  rewrite <- (filter_length (fun e => negb (String.eqb (snd (fst e)) n))
                            (NX.out_edges G n)).
  rewrite <- !Nat.add_assoc. do 2 f_equal.
  rewrite (filter_ext _ (fun e => String.eqb (snd (fst e)) n))
    by (intros e; apply negb_involutive).
  unfold NX.out_edges. rewrite filter_map_length. simpl.
  rewrite (filter_keys_length (fun k => String.eqb k n)).
  rewrite count_key by apply W.
  destruct (mem n (keys (NX.succ_of G n))) eqn:E;
    destruct (NX.has_edge G n n) eqn:E'; try reflexivity; exfalso.
  - apply mem_In, has_edge_In in E. congruence.
  - apply has_edge_In, mem_In in E'. congruence.
Qed.

(** ** C7: removing a node *)

(** C7.  On a graph a store can hold, let a present node have exactly [k]
    incident edges: [k] edges of the graph start or end at it, which is
    the number of its incoming edges plus the number of its outgoing
    edges, a self-loop counted once.  Then [remove_node] on it succeeds;
    afterwards there is one node less and there are [k] edges less, the
    edge count being the one networkx reports, which is the number of
    edges in the edge view; the nodes left are the other nodes, with their
    data; and the edges left are the edges that did not touch the node,
    with their data. *)
Theorem remove_node_counts G n k :
  reachable G -> NX.has_node G n = true ->
  length (filter (incident n) (NX.edges G)) = k ->
  k + (if NX.has_edge G n n then 1 else 0)
  = length (NX.in_edges G n) + length (NX.out_edges G n)
  /\ outcome (StateGraph.remove_node n) G
     = Ok [("node_id", VStr n); ("status", VStr "removed")]
  /\ S (NX.number_of_nodes (state_after (StateGraph.remove_node n) G))
     = NX.number_of_nodes G
  /\ NX.number_of_edges G = length (NX.edges G)
  /\ NX.number_of_edges (state_after (StateGraph.remove_node n) G) + k
     = NX.number_of_edges G
  /\ (forall x, In x (NX.nodes (state_after (StateGraph.remove_node n) G))
                <-> x <> n /\ In x (NX.nodes G))
  /\ (forall x, x <> n ->
        get x (_node (state_after (StateGraph.remove_node n) G))
        = get x (_node G))
  /\ (forall e, In e (NX.edges (state_after (StateGraph.remove_node n) G))
                <-> In e (NX.edges G) /\ incident n e = false).
Proof.
  intros R Hn <-. pose proof (reachable_wf G R) as W.
  unfold outcome, state_after. rewrite remove_node_eq, Hn. simpl.
  split; [now apply incident_count|]. split; [reflexivity|].
  split; [|split; [|split; [|split; [|split]]]].
  - unfold NX.number_of_nodes, NX.remove_node. simpl.
    apply length_del. now apply has_node_In.
  - now apply number_of_edges_length.
  - now apply number_of_edges_remove_node.
  - intros x. now apply nodes_remove_node.
  - intros x N. unfold NX.remove_node. simpl. apply get_del_neq. congruence.
  - intros e. now apply In_edges_remove_node.
Qed.

(** ** Breadth-first search *)

Lemma path_nonempty G a b l : path G a b l -> 1 <= length l.
Proof.
  induction 1; simpl; [lia|]. rewrite length_app. simpl. lia.
Qed.

Lemma fresh_In seen l q :
  In q (NX.fresh seen l) -> In q l /\ ~ In (fst q) seen.
Proof.
  revert seen. induction l as [|x r IH]; simpl; intros seen; [tauto|].
  destruct (mem (fst x) seen) eqn:E.
  - intros I. apply IH in I. tauto.
  - apply mem_false in E. intros [<-|I]; [tauto|].
    apply IH in I. simpl in I. tauto.
Qed.

Lemma fresh_covers seen l q :
  In q l -> In (fst q) seen \/ In (fst q) (heads (NX.fresh seen l)).
Proof.
  revert seen. induction l as [|x r IH]; simpl; intros seen; [tauto|].
  destruct (mem (fst x) seen) eqn:E.
  - apply mem_In in E. intros [<-|I]; [now left | now apply IH].
  - intros [<-|I]; [right; now left|].
    destruct (IH (fst x :: seen) I) as [[<-|J]|J].
    + right. now left.
    + now left.
    + right. now right.
Qed.

Lemma fresh_NoDup seen l : NoDup (heads (NX.fresh seen l)).
Proof.
  revert seen. induction l as [|x r IH]; simpl; intros seen; [constructor|].
  destruct (mem (fst x) seen); [apply IH|].
  simpl. constructor; [|apply IH].
  intros I. apply in_map_iff in I. destruct I as (q & E & I).
  apply fresh_In in I. destruct I as [_ I]. apply I. now left.
Qed.

Lemma In_candidates G frontier q :
  In q (NX.candidates G frontier)
  <-> exists p, In p frontier
                /\ NX.has_edge G (fst p) (fst q) = true
                /\ snd q = fst p :: snd p.
Proof.
  unfold NX.candidates. rewrite in_flat_map. split.
  - intros (p & I & M). apply in_map_iff in M. destruct M as (v & <- & Iv).
    exists p. simpl. repeat split; [assumption|]. now apply has_edge_In.
  - intros (p & I & E & Es). exists p. split; [assumption|].
    apply in_map_iff. exists (fst q). split.
    + destruct q as [v l]. simpl in *. now subst.
    + now apply has_edge_In.
Qed.

Section Search.
Variables (G : DiGraph) (s t : string).
Hypothesis W : wf G.

Lemma bfs_inv_start : In s (NX.nodes G) -> bfs_inv G s t 0 [(s, [])] [s].
Proof.
  intros Is. constructor; simpl.
  - intros q [<-|[]]. simpl. split; [constructor | reflexivity].
  - repeat constructor. intros [].
  - intros x [<-|[]]. assumption.
  - intros x I. exact I.
  - now left.
  - intros u v [<-|[]] N. exfalso. apply N. now left.
  - intros v l P L. apply path_nonempty in P. lia.
  - intros v l P L. left. destruct P as [|b c l P E]; [reflexivity|].
    apply path_nonempty in P. rewrite length_app in L. simpl in L. lia.
  - intros I. exact I.
Qed.

(** A successor of a frontier node is seen after the level. *)
Lemma level_covers frontier seen u v :
  In u (heads frontier) -> NX.has_edge G u v = true ->
  In v (seen ++ heads (NX.fresh seen (NX.candidates G frontier))).
Proof.
  intros Iu E. apply in_map_iff in Iu. destruct Iu as (p & <- & Ip).
  apply in_app_iff.
  apply (fresh_covers seen (NX.candidates G frontier) (v, fst p :: snd p)).
  apply In_candidates. exists p. auto.
Qed.

Lemma bfs_inv_step k frontier seen :
  bfs_inv G s t k frontier seen ->
  ~ In t (heads frontier) ->
  bfs_inv G s t (S k)
    (NX.fresh seen (NX.candidates G frontier))
    (seen ++ heads (NX.fresh seen (NX.candidates G frontier))).
Proof.
  intros I Nt. set (next := NX.fresh seen (NX.candidates G frontier)).
  assert (Hnext : forall q, In q next ->
            ~ In (fst q) seen
            /\ exists p, In p frontier
                         /\ NX.has_edge G (fst p) (fst q) = true
                         /\ snd q = fst p :: snd p).
  { intros q Iq. apply fresh_In in Iq. destruct Iq as [Iq Ns].
    split; [assumption | now apply In_candidates]. }
  assert (Dis : forall v, In v seen -> ~ In v (heads next)).
  { intros v Iv J. apply in_map_iff in J. destruct J as (q & <- & Iq).
    now apply Hnext in Iq. }
  constructor.
  - intros q Iq. destruct (Hnext q Iq) as (_ & p & Ip & E & Es).
    destruct (inv_paths _ _ _ _ _ _ I p Ip) as [P L].
    rewrite Es. split.
    + change (rev (fst q :: fst p :: snd p))
        with (rev (fst p :: snd p) ++ [fst q])%list.
      now apply path_step with (b := fst p).
    + simpl in *. now rewrite L.
  - apply NoDup_app;
      [apply (inv_nodup _ _ _ _ _ _ I) | apply fresh_NoDup | exact Dis].
  - intros x Ix. apply in_app_iff in Ix. destruct Ix as [Ix|Ix].
    + now apply (inv_nodes _ _ _ _ _ _ I).
    + apply in_map_iff in Ix. destruct Ix as (q & <- & Iq).
      destruct (Hnext q Iq) as (_ & p & _ & E & _).
      now apply (wf_edge_endpoints G _ _ W E).
  - intros x Ix. apply in_app_iff. now right.
  - apply in_app_iff. left. apply (inv_source _ _ _ _ _ _ I).
  - intros u v Iu Nu E. apply in_app_iff in Iu.
    destruct Iu as [Iu|Iu]; [|contradiction].
    destruct (in_dec string_dec u (heads frontier)) as [Hu|Hu].
    + now apply level_covers with (u := u).
    + apply in_app_iff. left. now apply (inv_closed _ _ _ _ _ _ I u v).
  - intros v l P L.
    assert (Iv : In v seen).
    { destruct (Nat.eq_dec (length l) (S k)) as [El|Nl].
      - now apply (inv_level _ _ _ _ _ _ I v l).
      - apply (inv_near _ _ _ _ _ _ I v l P). lia. }
    split; [apply in_app_iff; now left | now apply Dis].
  - intros v l P L. destruct P as [|b c l P E].
    + simpl in L. lia.
    + rewrite length_app in L. simpl in L.
      assert (Ib : In b seen)
        by (apply (inv_level _ _ _ _ _ _ I b l P); lia).
      destruct (in_dec string_dec b (heads frontier)) as [Hb|Hb].
      * now apply level_covers with (u := b).
      * apply in_app_iff. left. now apply (inv_closed _ _ _ _ _ _ I b c).
  - intros It. apply in_app_iff in It. destruct It as [It|It]; [|assumption].
    exfalso. apply Nt. now apply (inv_target _ _ _ _ _ _ I).
Qed.

(** With an empty frontier everything reachable was seen. *)
Lemma bfs_inv_done k seen v l :
  bfs_inv G s t k [] seen -> path G s v l -> In v seen.
Proof.
  intros I. induction 1 as [|b c l P IH E];
    [apply (inv_source _ _ _ _ _ _ I)|].
  apply (inv_closed _ _ _ _ _ _ I b c); [assumption | intros [] | assumption].
Qed.

Lemma find_head frontier :
  match find (fun q => String.eqb (fst q) t) frontier with
  | Some q => In q frontier /\ fst q = t
  | None => ~ In t (heads frontier)
  end.
Proof.
  destruct (find _ frontier) as [q|] eqn:E.
  - apply find_some in E. now rewrite String.eqb_eq in E.
  - intros I. apply in_map_iff in I. destruct I as (q & Eq & Iq).
    apply (find_none _ _ E) in Iq. simpl in Iq.
    rewrite Eq, String.eqb_refl in Iq. discriminate.
Qed.

(** The search within its budget: a shortest path, or none when there is
    none. *)
Lemma bfs_correct fuel :
  forall k frontier seen,
    bfs_inv G s t k frontier seen ->
    NX.number_of_nodes G + (match frontier with [] => 0 | _ => 1 end)
    < fuel + length seen ->
    match NX.bfs fuel G t frontier seen with
    | NX.Found p =>
        path G s t p /\ forall l, path G s t l -> length p <= length l
    | NX.NoPath => forall l, ~ path G s t l
    | NX.OutOfFuel => False
    end.
Proof.
  induction fuel as [|fuel IH]; intros k frontier seen I B.
  - pose proof (visited_bound G seen (inv_nodup _ _ _ _ _ _ I)
                  (inv_nodes _ _ _ _ _ _ I)).
    simpl in B. lia.
  - cbn [NX.bfs]. pose proof (find_head frontier) as Hf.
    match goal with
    | |- context [find ?f frontier] => destruct (find f frontier) as [q|]
    end.
    + destruct Hf as [Iq <-].
      destruct (inv_paths _ _ _ _ _ _ I q Iq) as [P L]. split; [assumption|].
      intros l Pl. rewrite length_rev, L.
      destruct (Nat.le_gt_cases (S k) (length l)) as [?|Lt]; [assumption|].
      exfalso. apply (inv_near _ _ _ _ _ _ I (fst q) l Pl); [lia|].
      now apply in_map.
    + destruct frontier as [|q0 rest].
      * intros l P. apply (bfs_inv_done _ _ _ _ I) in P.
        now apply (inv_target _ _ _ _ _ _ I) in P.
      * pose proof (bfs_inv_step _ _ _ I Hf) as I'.
        apply (IH (S k) _ _ I').
        pose proof (visited_bound G _ (inv_nodup _ _ _ _ _ _ I')
                      (inv_nodes _ _ _ _ _ _ I')) as Bd.
        rewrite length_app in *. unfold heads in *. rewrite length_map in *.
        destruct (NX.fresh seen (NX.candidates G (q0 :: rest))); simpl in *;
          lia.
Qed.

Lemma shortest_path_correct :
  In s (NX.nodes G) ->
  match NX.shortest_path G s t with
  | NX.Found p =>
      path G s t p /\ forall l, path G s t l -> length p <= length l
  | NX.NoPath => forall l, ~ path G s t l
  | NX.OutOfFuel => False
  end.
Proof.
  intros Is. unfold NX.shortest_path.
  apply (bfs_correct _ 0); [now apply bfs_inv_start|]. simpl. lia.
Qed.
End Search.

(** ** C5: [find_path] *)

Lemma find_path_eq G a b :
  NX.has_node G a = true -> NX.has_node G b = true ->
  outcome (StateGraph.find_path a b) G
  = match NX.shortest_path G a b with
    | NX.Found p => Ok (Some p)
    | NX.NoPath => Ok (Some [])
    | NX.OutOfFuel => Ok None
    end.
Proof.
  intros Ea Eb. unfold outcome, StateGraph.find_path. run_monad.
  rewrite Ea, Eb. cbv [negb].
  destruct (NX.shortest_path G a b); reflexivity.
Qed.

(** C5.  For a node present in the graph, [find_path] from the node to
    itself returns the one-node sequence.  On a graph a store can hold and
    for two present nodes: when no directed path leads from the first to
    the second the call returns the empty sequence and raises nothing; and
    when there is one it returns a directed path from the first to the
    second, both included, that no directed path between them is shorter
    than.  In every case the call returns a sequence and raises nothing,
    and the sequence is empty exactly when there is no directed path. *)
Theorem find_path_shortest :
  (forall G a,
     NX.has_node G a = true ->
     outcome (StateGraph.find_path a a) G = Ok (Some [a]))
  /\ (forall G a b,
        reachable G -> NX.has_node G a = true -> NX.has_node G b = true ->
        (forall l, ~ path G a b l) ->
        outcome (StateGraph.find_path a b) G = Ok (Some []))
  /\ (forall G a b l,
        reachable G -> NX.has_node G a = true -> NX.has_node G b = true ->
        path G a b l ->
        exists p,
          outcome (StateGraph.find_path a b) G = Ok (Some p)
          /\ path G a b p
          /\ forall l', path G a b l' -> length p <= length l')
  /\ (forall G a b,
        reachable G -> NX.has_node G a = true -> NX.has_node G b = true ->
        exists p,
          outcome (StateGraph.find_path a b) G = Ok (Some p)
          /\ (p = [] <-> forall l, ~ path G a b l)).
Proof.
  split; [|split; [|split]].
  - intros G a Ea. rewrite find_path_eq by assumption.
    unfold NX.shortest_path. cbn [NX.bfs find fst].
    now rewrite String.eqb_refl.
  - intros G a b R Ea Eb Hno. rewrite find_path_eq by assumption.
    pose proof (shortest_path_correct G a b (reachable_wf G R)
                  (proj1 (has_node_In G a) Ea)) as H.
    destruct (NX.shortest_path G a b) as [p| |].
    + destruct H as [P _]. now apply Hno in P.
    + reflexivity.
    + contradiction.
  - intros G a b l R Ea Eb P. rewrite find_path_eq by assumption.
    pose proof (shortest_path_correct G a b (reachable_wf G R)
                  (proj1 (has_node_In G a) Ea)) as H.
    destruct (NX.shortest_path G a b) as [p| |].
    + exists p. split; [reflexivity | exact H].
    + now apply H in P.
    + contradiction.
  - intros G a b R Ea Eb. rewrite find_path_eq by assumption.
    pose proof (shortest_path_correct G a b (reachable_wf G R)
                  (proj1 (has_node_In G a) Ea)) as H.
    destruct (NX.shortest_path G a b) as [p| |].
    + exists p. split; [reflexivity|]. destruct H as [P _]. split.
      * intros ->. apply path_nonempty in P. simpl in P. lia.
      * intros Hno. now apply Hno in P.
    + exists []. split; [reflexivity|]. tauto.
    + contradiction.
Qed.

(** ** The theorems at work on the example graphs *)

Lemma reachable_run ops : reachable (run ops NX.empty).
Proof. now exists ops. Qed.

(** C1 on the workflow graph: the edge A -> B joins two nodes, [add_edge]
    to a missing node Z fails, and removing B leaves the one edge free of
    B none. *)
Lemma referential_integrity_witness :
  (NX.has_node (run ops_workflow NX.empty) "A" = true
   /\ NX.has_node (run ops_workflow NX.empty) "B" = true)
  /\ (exists w, (w = "A" \/ w = "Z")
                /\ StateGraph.add_edge "A" "Z" 0 None None
                     (run ops_workflow NX.empty)
                   = (Raise (NotFound w), run ops_workflow NX.empty)).
Proof.
  destruct referential_integrity as (H1 & H2 & _). split.
  - apply (H1 ops_workflow
             ("A", "B", [("order", VInt 0); ("properties", VDict [])])).
    vm_compute. now left.
  - apply (H2 (run ops_workflow NX.empty) "A" "Z" 0%Z None None).
    right. reflexivity.
Defined.

(** C2 on the workflow graph, from A *)
Lemma execution_sequence_follows_least_order_witness :
  reachable (run ops_workflow NX.empty)
  /\ NX.has_node (run ops_workflow NX.empty) "A" = true
  /\ exists s,
       outcome (StateGraph.get_execution_sequence "A" true)
               (run ops_workflow NX.empty) = Ok (Some s)
       /\ sequence_from empty_or_revisit (run ops_workflow NX.empty) true
            "A" [] s.
Proof.
  split; [exists ops_workflow; reflexivity|]. split; [reflexivity|].
  destruct (proj1 execution_sequence_follows_least_order
              (run ops_workflow NX.empty) "A" true)
    as (s & E & H & _).
  - exists ops_workflow; reflexivity.
  - reflexivity.
  - now exists s.
Defined.

(** C3 on the two-node cycle, from A *)
Lemma execution_sequence_terminates_witness :
  reachable (run ops_cycle NX.empty)
  /\ NX.has_node (run ops_cycle NX.empty) "A" = true
  /\ exists s,
       outcome (StateGraph.get_execution_sequence "A" false)
               (run ops_cycle NX.empty) = Ok (Some s)
       /\ NoDup (map (get "node_id") s)
       /\ length s <= NX.number_of_nodes (run ops_cycle NX.empty).
Proof.
  split; [exists ops_cycle; reflexivity|]. split; [reflexivity|].
  destruct execution_sequence_terminates as (_ & _ & H & _).
  apply (H (run ops_cycle NX.empty) "A" false).
  - exists ops_cycle; reflexivity.
  - reflexivity.
Defined.

(** C4 on the edge A -> B that carries the condition "yes" *)
Lemma re_add_edge_overwrites_witness :
  reachable (run ops_conditional NX.empty)
  /\ NX.has_edge (run ops_conditional NX.empty) "A" "B" = true
  /\ get "order"
       (NX.edge_data
          (state_after (StateGraph.add_edge "A" "B" 7 None None)
                       (run ops_conditional NX.empty)) "A" "B")
     = Some (VInt 7).
Proof.
  split; [exists ops_conditional; reflexivity|]. split; [reflexivity|].
  apply (re_add_edge_overwrites (run ops_conditional NX.empty) "A" "B" 7%Z
           None None).
  - exists ops_conditional; reflexivity.
  - reflexivity.
Defined.

Lemma workflow_no_path_back l : ~ path (run ops_workflow NX.empty) "C" "A" l.
Proof.
  assert (H : forall x l, path (run ops_workflow NX.empty) "C" x l -> x = "C").
  { induction 1 as [|b c l0 P IH E]; [reflexivity|]. subst b.
    vm_compute in E. discriminate. }
  intros P. apply H in P. discriminate.
Qed.

(** C5 on the workflow graph: from A to C there is the path A, B, C, and
    from C to A there is none. *)
Lemma find_path_shortest_witness :
  (NX.has_node (run ops_workflow NX.empty) "A" = true
   /\ outcome (StateGraph.find_path "A" "A") (run ops_workflow NX.empty)
      = Ok (Some ["A"]))
  /\ (path (run ops_workflow NX.empty) "A" "C" ["A"; "B"; "C"]
      /\ exists p,
           outcome (StateGraph.find_path "A" "C") (run ops_workflow NX.empty)
           = Ok (Some p)
           /\ path (run ops_workflow NX.empty) "A" "C" p
           /\ forall l', path (run ops_workflow NX.empty) "A" "C" l' ->
                         length p <= length l')
  /\ outcome (StateGraph.find_path "C" "A") (run ops_workflow NX.empty)
     = Ok (Some []).
Proof.
  destruct find_path_shortest as (H1 & H2 & H3 & _).
  assert (P : path (run ops_workflow NX.empty) "A" "C" ["A"; "B"; "C"]).
  { apply (path_step _ "A" "B" "C" ["A"; "B"]); [|reflexivity].
    apply (path_step _ "A" "A" "B" ["A"]); [|reflexivity].
    apply path_start. }
  split; [|split].
  - split; [reflexivity|]. apply H1. reflexivity.
  - split; [exact P|].
    apply (H3 (run ops_workflow NX.empty) "A" "C" ["A"; "B"; "C"]).
    + exists ops_workflow; reflexivity.
    + reflexivity.
    + reflexivity.
    + exact P.
  - apply H2.
    + exists ops_workflow; reflexivity.
    + reflexivity.
    + reflexivity.
    + exact workflow_no_path_back.
Defined.

(** C6 on the workflow graph: A is taken, and "start" is no node type. *)
Lemma add_node_failures_witness :
  (NX.has_node (run ops_workflow NX.empty) "A" = true
   /\ outcome (StateGraph.add_node "A" "start" None None None None)
              (run ops_workflow NX.empty) = Raise (AlreadyExists "A"))
  /\ (NX.has_node (run ops_workflow NX.empty) "D" = false
      /\ outcome (StateGraph.add_node "D" "start" None None None None)
                 (run ops_workflow NX.empty) = Raise (InvalidArgument "start")).
Proof.
  destruct (add_node_failures (run ops_workflow NX.empty) "A" "start"
              None None None None) as [H1 _].
  destruct (add_node_failures (run ops_workflow NX.empty) "D" "start"
              None None None None) as [_ H2].
  split; (split; [reflexivity|]).
  - apply H1. reflexivity.
  - apply H2; [reflexivity|].
    intros [H|[H|[H|[H|[H|[H|[]]]]]]]; discriminate H.
Defined.

(** C7 on the graph with a self-loop: A has two incident edges. *)
Lemma remove_node_counts_witness :
  reachable (run ops_self_loop NX.empty)
  /\ NX.has_node (run ops_self_loop NX.empty) "A" = true
  /\ length (filter (incident "A") (NX.edges (run ops_self_loop NX.empty)))
     = 2
  /\ NX.number_of_edges
       (state_after (StateGraph.remove_node "A")
                    (run ops_self_loop NX.empty)) + 2
     = NX.number_of_edges (run ops_self_loop NX.empty).
Proof.
  split; [exists ops_self_loop; reflexivity|].
  split; [reflexivity|]. split; [reflexivity|].
  destruct (remove_node_counts (run ops_self_loop NX.empty) "A" 2)
    as (_ & _ & _ & _ & H & _).
  - exists ops_self_loop; reflexivity.
  - vm_compute; reflexivity.
  - vm_compute; reflexivity.
  - exact H.
Defined.

(** C8 on the graph with a self-loop: the edges of B *)
Lemma get_edges_of_node_witness :
  reachable (run ops_self_loop NX.empty)
  /\ NX.has_node (run ops_self_loop NX.empty) "B" = true
  /\ exists rs,
       outcome (StateGraph.get_edges (Some "B")) (run ops_self_loop NX.empty)
       = Ok rs
       /\ occurrences "A" "B" rs = 1.
Proof.
  split; [exists ops_self_loop; reflexivity|]. split; [reflexivity|].
  destruct (proj1 get_edges_of_node (run ops_self_loop NX.empty) "B")
    as (rs & E & _ & H).
  - exists ops_self_loop; reflexivity.
  - reflexivity.
  - exists rs. split; [exact E|].
    apply (H "A" "B" [("order", VInt 1); ("properties", VDict [])]).
    + vm_compute. auto.
    + now right.
Defined.

(** C9: a bulk call whose second node repeats the first *)
Lemma bulk_no_rollback_witness :
  outcome (Server.bulk_add_nodes
             [Server.mkNodeSpec "A" "action" None None None None])
          NX.empty
  = Ok [[("node_id", VStr "A"); ("node_type", VStr "action");
         ("status", VStr "added")]]
  /\ outcome (Server.bulk_add_nodes
                [Server.mkNodeSpec "A" "action" None None None None;
                 Server.mkNodeSpec "A" "decision" None None None None;
                 Server.mkNodeSpec "B" "action" None None None None])
             NX.empty
     = Raise (AlreadyExists "A")
  /\ state_after (Server.bulk_add_nodes
                    [Server.mkNodeSpec "A" "action" None None None None;
                     Server.mkNodeSpec "A" "decision" None None None None;
                     Server.mkNodeSpec "B" "action" None None None None])
                 NX.empty
     = state_after (Server.bulk_add_nodes
                      [Server.mkNodeSpec "A" "action" None None None None])
                   NX.empty.
Proof.
  split; [reflexivity|].
  apply (proj1 bulk_no_rollback NX.empty
           [Server.mkNodeSpec "A" "action" None None None None]
           (Server.mkNodeSpec "A" "decision" None None None None)
           [Server.mkNodeSpec "B" "action" None None None None]
           [[("node_id", VStr "A"); ("node_type", VStr "action");
             ("status", VStr "added")]]
           (AlreadyExists "A")).
  - reflexivity.
  - reflexivity.
Defined.

(** C10 on the workflow graph: the payload of node A *)
Lemma get_node_payload_witness :
  reachable (run ops_workflow NX.empty)
  /\ NX.has_node (run ops_workflow NX.empty) "A" = true
  /\ exists a,
       get "A" (_node (run ops_workflow NX.empty)) = Some a
       /\ StateGraph.get_node "A" (run ops_workflow NX.empty)
          = (Ok a, run ops_workflow NX.empty)
       /\ get "node_id" a = None
       /\ node_ok a.
Proof.
  split; [exists ops_workflow; reflexivity|]. split; [reflexivity|].
  destruct get_node_payload as (_ & _ & _ & H & _).
  apply (H (run ops_workflow NX.empty) "A").
  - exists ops_workflow; reflexivity.
  - reflexivity.
Defined.

(** * Further properties of the store *)

#[local] Open Scope list_scope.

(** ** More on dictionaries *)

Lemma set_new {V} k (v : V) (d : dict V) :
  ~ In k (keys d) -> set k v d = (d ++ [(k, v)])%list.
Proof.
  induction d as [|[k' v'] r IH]; simpl; [reflexivity|].
  intros H. destruct (String.eqb_spec k k') as [->|N].
  - exfalso. auto.
  - f_equal. apply IH. tauto.
Qed.

Lemma del_set_new {V} k (v : V) (d : dict V) :
  ~ In k (keys d) -> del k (set k v d) = d.
Proof.
  induction d as [|[k' v'] r IH]; simpl.
  - now rewrite String.eqb_refl.
  - intros H. destruct (String.eqb_spec k k') as [->|N]; simpl.
    + exfalso. auto.
    + destruct (String.eqb_spec k k'); [contradiction|].
      f_equal. apply IH. tauto.
Qed.

Lemma set_set {V} k (v w : V) (d : dict V) :
  set k w (set k v d) = set k w d.
Proof.
  induction d as [|[k' v'] r IH]; simpl.
  - now rewrite String.eqb_refl.
  - destruct (String.eqb_spec k k') as [->|N]; simpl.
    + now rewrite String.eqb_refl.
    + destruct (String.eqb_spec k k'); [contradiction|]. now rewrite IH.
Qed.

(** Updating with fresh, distinct keys appends them in order. *)
Lemma update_fresh {V} (d e : dict V) :
  NoDup (keys e) -> (forall k, In k (keys e) -> ~ In k (keys d)) ->
  update d e = (d ++ e)%list.
Proof.
  unfold update. revert d.
  induction e as [|[k v] r IH]; simpl; intros d ND Hd.
  - now rewrite app_nil_r.
  - inversion ND as [|? ? NI ND']; subst.
    rewrite set_new by (apply Hd; now left).
    rewrite IH; [now rewrite <- app_assoc | assumption |].
    intros k' I. unfold keys. rewrite map_app, in_app_iff. simpl.
    intros [J|[<-|[]]]; [|contradiction].
    apply (Hd k'); [now right | assumption].
Qed.

Lemma update_nil {V} (e : dict V) : NoDup (keys e) -> update [] e = e.
Proof. intros ND. rewrite update_fresh; auto. Qed.

Lemma node_attrs_NoDup n t l p tl pr :
  NoDup (keys (StateGraph.node_attrs n t l p tl pr)).
Proof.
  unfold StateGraph.node_attrs. destruct p, tl; simpl;
    repeat constructor; simpl; intuition discriminate.
Qed.

Lemma get_node_attrs n t l p tl pr :
  get "node_type" (StateGraph.node_attrs n t l p tl pr) = Some (VStr t)
  /\ get "label" (StateGraph.node_attrs n t l p tl pr)
     = Some (VStr (or_str l n))
  /\ get "properties" (StateGraph.node_attrs n t l p tl pr)
     = Some (VDict (or_dict pr))
  /\ get "phase" (StateGraph.node_attrs n t l p tl pr) = option_map VInt p
  /\ get "tool" (StateGraph.node_attrs n t l p tl pr) = option_map VStr tl
  /\ (forall k, In k (keys (StateGraph.node_attrs n t l p tl pr)) ->
                In k node_keys).
Proof.
  unfold StateGraph.node_attrs, node_keys.
  destruct p, tl; simpl; repeat split; intros k; tauto.
Qed.

(** ** Adding a node *)

Lemma add_node_new G n a :
  wf G -> ~ In n (NX.nodes G) -> NoDup (keys a) ->
  NX.add_node n a G
  = mkDiGraph (_node G ++ [(n, a)])%list (_succ G ++ [(n, [])])%list
              (_pred G ++ [(n, [])])%list.
Proof.
  intros W NI ND. unfold NX.add_node, NX.ensure_node.
  assert (NS : ~ In n (keys (_succ G))) by now rewrite (wf_succ_keys G W).
  assert (NP : ~ In n (keys (_pred G))) by now rewrite (wf_pred_keys G W).
  rewrite (proj2 (contains_false n (_succ G)) NS). simpl.
  rewrite get_set_eq, set_set, update_nil by assumption.
  now rewrite !set_new by assumption.
Qed.

Lemma edges_app_isolated (s : dict (dict attrs)) n :
  flat_map (fun un => map (fun kv => (fst un, fst kv, snd kv)) (snd un))
           (s ++ [(n, [])])%list
  = flat_map (fun un => map (fun kv => (fst un, fst kv, snd kv)) (snd un)) s.
Proof. rewrite flat_map_app. simpl. apply app_nil_r. Qed.

Lemma get_node_eq n G :
  outcome (StateGraph.get_node n) G
  = match get n (_node G) with
    | Some a => Ok a
    | None => Raise (NotFound n)
    end.
Proof.
  change (StateGraph.get_node n) with (StateGraph.get_node_at_666 n).
  unfold outcome, StateGraph.get_node_at_666. run_monad. simpl.
  destruct (get n (_node G)); reflexivity.
Qed.

Lemma list_nodes_eq G :
  outcome StateGraph.list_nodes G
  = Ok (map (fun na => set "node_id" (VStr (fst na)) (snd na)) (_node G)).
Proof. reflexivity. Qed.

Lemma get_app_new {V} k (v : V) (d : dict V) :
  ~ In k (keys d) -> get k (d ++ [(k, v)]) = Some v.
Proof. intros H. rewrite <- set_new by assumption. apply get_set_eq. Qed.

Lemma get_app_other {V} k k' (v : V) (d : dict V) :
  k <> k' -> get k' (d ++ [(k, v)]) = get k' d.
Proof.
  intros N. induction d as [|[k0 v0] r IH]; simpl.
  - destruct (String.eqb_spec k' k); [congruence | reflexivity].
  - now rewrite IH.
Qed.

(** X1.  On a graph a store can hold, [add_node] with a new id and one of
    the six node types succeeds, and [get_node] then returns what was
    given: the type, the label or the id when the label is missing or
    empty, the properties or an empty mapping, and a phase and a tool
    exactly when they were given.  The node is the last of [list_nodes],
    the other nodes keep their data and the edges are as before. *)
Theorem add_node_then_get_node G n t l p tl pr :
  reachable G -> NX.has_node G n = false -> In t StateGraph.node_types ->
  let G' := state_after (StateGraph.add_node n t l p tl pr) G in
  outcome (StateGraph.add_node n t l p tl pr) G
  = Ok [("node_id", VStr n); ("node_type", VStr t); ("status", VStr "added")]
  /\ (exists a,
        outcome (StateGraph.get_node n) G' = Ok a
        /\ get "node_type" a = Some (VStr t)
        /\ get "label" a
           = Some (VStr (match l with
                         | Some s => if String.eqb s "" then n else s
                         | None => n
                         end))
        /\ get "properties" a
           = Some (VDict (match pr with Some d => d | None => [] end))
        /\ get "phase" a = option_map VInt p
        /\ get "tool" a = option_map VStr tl
        /\ (forall k, In k (keys a) -> In k node_keys)
        /\ exists rs, outcome StateGraph.list_nodes G = Ok rs
                      /\ outcome StateGraph.list_nodes G'
                         = Ok (rs ++ [set "node_id" (VStr n) a])%list)
  /\ NX.nodes G' = (NX.nodes G ++ [n])%list
  /\ (forall m, m <> n -> get m (_node G') = get m (_node G))
  /\ NX.edges G' = NX.edges G.
Proof.
  intros R Hn Ht G'. pose proof (reachable_wf G R) as W.
  assert (NI : ~ In n (NX.nodes G)) by now apply has_node_false.
  assert (E : G' = mkDiGraph
                     (_node G ++ [(n, StateGraph.node_attrs n t l p tl pr)])
                     (_succ G ++ [(n, [])]) (_pred G ++ [(n, [])])).
  { unfold G', state_after. rewrite add_node_eq, Hn.
    rewrite (proj2 (mem_In t StateGraph.node_types) Ht). simpl.
    apply add_node_new; [assumption | assumption | apply node_attrs_NoDup]. }
  clearbody G'. subst G'.
  destruct (get_node_attrs n t l p tl pr) as (A1 & A2 & A3 & A4 & A5 & A6).
  split; [|split; [|split; [|split]]].
  - unfold outcome. rewrite add_node_eq, Hn.
    now rewrite (proj2 (mem_In t StateGraph.node_types) Ht).
  - exists (StateGraph.node_attrs n t l p tl pr).
    split; [|repeat split; try assumption].
    + rewrite get_node_eq. simpl. now rewrite get_app_new.
    + rewrite A2. unfold or_str, truthy. destruct l as [s|]; [|reflexivity].
      now destruct (String.eqb s "").
    + eexists. split; [reflexivity|].
      rewrite !list_nodes_eq. simpl. now rewrite map_app.
  - unfold NX.nodes, keys. simpl. now rewrite map_app.
  - intros m N. simpl. apply get_app_other. congruence.
  - unfold NX.edges. simpl. apply edges_app_isolated.
Qed.

(** ** Updating a node *)

Lemma node_data_set_node_attr G n k v m :
  StateGraph.node_data_of (NX.set_node_attr n k v G) m
  = if String.eqb n m then set k v (StateGraph.node_data_of G n)
    else StateGraph.node_data_of G m.
Proof.
  unfold StateGraph.node_data_of, NX.set_node_attr. simpl. rewrite get_set.
  now destruct (String.eqb n m).
Qed.


Lemma frame_store_if {A} G n k (f : A -> value) x :
  In n (NX.nodes G) ->
  NX.nodes (store_if n k f x G) = NX.nodes G
  /\ (forall m, m <> n ->
        get m (_node (store_if n k f x G)) = get m (_node G))
  /\ _succ (store_if n k f x G) = _succ G
  /\ _pred (store_if n k f x G) = _pred G.
Proof.
  intros I. destruct x; simpl; [|tauto]. repeat split.
  - now apply nodes_set_node_attr.
  - intros m N. apply get_set_neq. congruence.
Qed.

Lemma frame_updated G n l p tl pr :
  In n (NX.nodes G) ->
  NX.nodes (updated n l p tl pr G) = NX.nodes G
  /\ (forall m, m <> n ->
        get m (_node (updated n l p tl pr G)) = get m (_node G))
  /\ _succ (updated n l p tl pr G) = _succ G
  /\ _pred (updated n l p tl pr G) = _pred G.
Proof.
  intros I. unfold updated.
  destruct (frame_store_if G n "label" VStr l I) as (N1 & D1 & S1 & P1).
  assert (I1 : In n (NX.nodes (store_if n "label" VStr l G)))
    by now rewrite N1.
  destruct (frame_store_if _ n "phase" VInt p I1) as (N2 & D2 & S2 & P2).
  assert (I2 : In n (NX.nodes (store_if n "phase" VInt p
                                 (store_if n "label" VStr l G))))
    by now rewrite N2.
  destruct (frame_store_if _ n "tool" VStr tl I2) as (N3 & D3 & S3 & P3).
  set (G3 := store_if n "tool" VStr tl
               (store_if n "phase" VInt p (store_if n "label" VStr l G)))
    in *.
  assert (F3 : NX.nodes G3 = NX.nodes G
               /\ (forall m, m <> n -> get m (_node G3) = get m (_node G))
               /\ _succ G3 = _succ G /\ _pred G3 = _pred G).
  { repeat split; try congruence.
    intros m N. now rewrite D3, D2, D1. }
  destruct pr as [props|]; [|exact F3].
  destruct F3 as (N4 & D4 & S4 & P4). simpl. repeat split; try assumption.
  - rewrite nodes_set_node_attr; [assumption | now rewrite N4].
  - intros m N. rewrite get_set_neq by congruence. now apply D4.
Qed.



(** ** Failed calls *)


(** ** Adding and removing an edge *)

Lemma edge_attrs_NoDup o c pr : NoDup (keys (StateGraph.edge_attrs o c pr)).
Proof. apply get_edge_attrs. Qed.

Lemma edge_data_absent G u v :
  NX.has_edge G u v = false -> NX.edge_data G u v = [].
Proof.
  intros E. unfold NX.edge_data.
  destruct (get v (NX.succ_of G u)) eqn:Eg; [|reflexivity].
  apply get_Some_keys, has_edge_In in Eg. congruence.
Qed.

Lemma get_succ_of G u :
  In u (keys (_succ G)) -> get u (_succ G) = Some (NX.succ_of G u).
Proof.
  intros I. unfold NX.succ_of. destruct (keys_get _ _ I) as [x ->].
  reflexivity.
Qed.

Lemma get_pred_of G v :
  In v (keys (_pred G)) -> get v (_pred G) = Some (NX.pred_of G v).
Proof.
  intros I. unfold NX.pred_of. destruct (keys_get _ _ I) as [x ->].
  reflexivity.
Qed.

(** The state after a successful [add_edge] of a new pair *)
Lemma add_edge_new G u v o c pr :
  wf G -> In u (NX.nodes G) -> In v (NX.nodes G) ->
  NX.has_edge G u v = false ->
  state_after (StateGraph.add_edge u v o c pr) G
  = put_edge u v (StateGraph.edge_attrs o c pr) G.
Proof.
  intros W Iu Iv E. unfold state_after. rewrite add_edge_eq.
  rewrite (proj2 (has_node_In G u) Iu), (proj2 (has_node_In G v) Iv). simpl.
  rewrite add_edge_put_edge by assumption.
  rewrite edge_data_absent by assumption.
  now rewrite update_nil by apply edge_attrs_NoDup.
Qed.

Lemma In_edges_put_edge G u v dd e :
  wf G -> In u (NX.nodes G) -> In v (NX.nodes G) ->
  In e (NX.edges (put_edge u v dd G))
  <-> e = (u, v, dd)
      \/ (In e (NX.edges G) /\ ~ (fst (fst e) = u /\ snd (fst e) = v)).
Proof.
  intros W Iu Iv. destruct e as [[u' v'] a].
  rewrite !In_edges by (assumption || now apply wf_put_edge).
  rewrite succ_of_put_edge. simpl.
  destruct (String.eqb_spec u u') as [<-|Nu].
  - rewrite get_set. destruct (String.eqb_spec v v') as [<-|Nv].
    + split; [intros [= <-]; now left|].
      intros [[= <-]|[_ N]]; [reflexivity | tauto].
    + split; [intros H; right; split; [assumption | intros [_ ?]; auto]|].
      intros [[= ? ?]|[H _]]; [congruence | assumption].
  - split; [intros H; right; split; [assumption | intros [? _]; auto]|].
    intros [[= ? ?]|[H _]]; [congruence | assumption].
Qed.

Lemma number_of_edges_put_edge_new G u v dd :
  wf G -> In u (NX.nodes G) -> In v (NX.nodes G) ->
  NX.has_edge G u v = false ->
  NX.number_of_edges (put_edge u v dd G) = S (NX.number_of_edges G).
Proof.
  intros W Iu Iv E.
  rewrite !number_of_edges_length by (assumption || now apply wf_put_edge).
  change (S (length (NX.edges G))) with (length ((u, v, dd) :: NX.edges G)).
  assert (NE : ~ In (u, v, dd) (NX.edges G)).
  { intros I. apply In_edges_has_edge in I; [congruence | assumption]. }
  apply Permutation_length, NoDup_Permutation.
  - apply NoDup_edges. now apply wf_put_edge.
  - constructor; [assumption | now apply NoDup_edges].
  - intros e. rewrite In_edges_put_edge by assumption. simpl. split.
    + intros [->|[I _]]; auto.
    + intros [<-|I]; [now left | right]. split; [assumption|].
      destruct e as [[u' v'] a]. simpl. intros [-> ->].
      apply In_edges_has_edge in I; [congruence | assumption].
Qed.

Lemma out_edges_put_edge_new G u v dd :
  wf G -> In u (NX.nodes G) -> NX.has_edge G u v = false ->
  NX.out_edges (put_edge u v dd G) u = NX.out_edges G u ++ [(u, v, dd)].
Proof.
  intros W Iu E. unfold NX.out_edges.
  rewrite succ_of_put_edge, String.eqb_refl.
  rewrite set_new, map_app; [reflexivity|].
  intros I. apply has_edge_In in I. congruence.
Qed.

Lemma in_edges_put_edge_new G u v dd :
  wf G -> In v (NX.nodes G) -> NX.has_edge G u v = false ->
  NX.in_edges (put_edge u v dd G) v = NX.in_edges G v ++ [(u, v, dd)].
Proof.
  intros W Iv E.
  assert (NI : ~ In u (keys (NX.pred_of G v))).
  { intros I. apply (wf_mirror G W), has_edge_In in I. congruence. }
  unfold NX.in_edges.
  rewrite pred_of_put_edge, String.eqb_refl, set_new, map_app by assumption.
  simpl. rewrite edge_data_put_edge. f_equal.
  apply map_ext_in. intros [x []] I. simpl. f_equal.
  unfold NX.edge_data. rewrite succ_of_put_edge.
  destruct (String.eqb_spec u x) as [<-|N]; [|reflexivity].
  exfalso. apply NI. now apply (in_map fst) in I.
Qed.

(** X4.  On a graph a store can hold, [add_edge] between two present nodes
    that are not yet joined in that direction succeeds and adds one edge:
    the edge holds the given order, the properties or an empty mapping, and
    the condition if one was given; it is the last of the source's
    outgoing edges and the last of the target's incoming edges; the other
    edges and the nodes are as before, and there is one edge more. *)
Theorem add_edge_adds_one_edge G u v o c pr :
  reachable G ->
  NX.has_node G u = true -> NX.has_node G v = true ->
  NX.has_edge G u v = false ->
  let G' := state_after (StateGraph.add_edge u v o c pr) G in
  let dd := StateGraph.edge_attrs o c pr in
  outcome (StateGraph.add_edge u v o c pr) G
  = Ok [("from", VStr u); ("to", VStr v); ("status", VStr "added")]
  /\ get "order" dd = Some (VInt o)
  /\ get "properties" dd
     = Some (VDict (match pr with Some d => d | None => [] end))
  /\ get "condition" dd = option_map VStr c
  /\ NX.out_edges G' u = NX.out_edges G u ++ [(u, v, dd)]
  /\ NX.in_edges G' v = NX.in_edges G v ++ [(u, v, dd)]
  /\ (forall e, In e (NX.edges G') <-> e = (u, v, dd) \/ In e (NX.edges G))
  /\ NX.number_of_edges G' = S (NX.number_of_edges G)
  /\ _node G' = _node G.
Proof.
  intros R Eu Ev E G' dd. pose proof (reachable_wf G R) as W.
  assert (Iu : In u (NX.nodes G)) by now apply has_node_In.
  assert (Iv : In v (NX.nodes G)) by now apply has_node_In.
  assert (EG : G' = put_edge u v dd G) by now apply add_edge_new.
  clearbody G'. subst G'.
  destruct (get_edge_attrs o c pr) as (A1 & A2 & A3 & _).
  split; [unfold outcome; now rewrite add_edge_eq, Eu, Ev|].
  repeat split; try assumption.
  - now apply out_edges_put_edge_new.
  - now apply in_edges_put_edge_new.
  - rewrite In_edges_put_edge by assumption. intros [->|[I _]]; auto.
  - rewrite In_edges_put_edge by assumption. intros [->|I]; [now left|].
    right. split; [assumption|]. destruct e as [[u' v'] a]. simpl.
    intros [-> ->]. apply In_edges_has_edge in I; [congruence | assumption].
  - now apply number_of_edges_put_edge_new.
Qed.

Lemma In_edges_remove_edge G u v e :
  wf G -> NX.has_edge G u v = true ->
  In e (NX.edges (NX.remove_edge u v G))
  <-> In e (NX.edges G) /\ ~ (fst (fst e) = u /\ snd (fst e) = v).
Proof.
  intros W E. destruct e as [[u' v'] a].
  rewrite !In_edges by (assumption || now apply wf_remove_edge).
  rewrite succ_of_remove_edge. simpl.
  destruct (String.eqb_spec u u') as [<-|Nu].
  - rewrite get_del by apply W.
    destruct (String.eqb_spec v v') as [<-|Nv].
    + split; [discriminate | tauto].
    + split; [intros H; split; [assumption | intros [_ ?]; auto] | tauto].
  - split; [intros H; split; [assumption | intros [? _]; auto] | tauto].
Qed.

(** X5.  On a graph a store can hold, [remove_edge] on an edge of the graph
    succeeds and removes that edge and no other: the edges left are the
    others, with their data, there is one edge less, and the nodes are as
    before.  An edge in the opposite direction is a different edge and
    stays. *)
Theorem remove_edge_removes_one_edge G u v :
  reachable G -> NX.has_edge G u v = true ->
  let G' := state_after (StateGraph.remove_edge u v) G in
  outcome (StateGraph.remove_edge u v) G
  = Ok [("from", VStr u); ("to", VStr v); ("status", VStr "removed")]
  /\ NX.has_edge G' u v = false
  /\ (forall e, In e (NX.edges G')
                <-> In e (NX.edges G)
                    /\ ~ (fst (fst e) = u /\ snd (fst e) = v))
  /\ (u <> v -> NX.has_edge G' v u = NX.has_edge G v u)
  /\ S (NX.number_of_edges G') = NX.number_of_edges G
  /\ _node G' = _node G.
Proof.
  intros R E G'. pose proof (reachable_wf G R) as W.
  assert (EG : G' = NX.remove_edge u v G).
  { unfold G', state_after. now rewrite remove_edge_eq, E. }
  clearbody G'. subst G'.
  assert (W' : wf (NX.remove_edge u v G)) by now apply wf_remove_edge.
  split; [unfold outcome; now rewrite remove_edge_eq, E|].
  split; [|split; [|split; [|split]]].
  - apply not_true_iff_false. rewrite has_edge_In, succ_of_remove_edge.
    rewrite String.eqb_refl, In_keys_del by apply W. tauto.
  - intros e. now apply In_edges_remove_edge.
  - intros N. apply eq_true_iff_eq.
    rewrite !has_edge_In, succ_of_remove_edge.
    destruct (String.eqb_spec u v) as [->|_]; [contradiction | reflexivity].
  - rewrite !number_of_edges_length by assumption.
    apply has_edge_In, keys_get in E. destruct E as [a Ea].
    assert (Ie : In (u, v, a) (NX.edges G)) by now apply In_edges.
    destruct (in_split _ _ Ie) as (l1 & l2 & El).
    assert (ND : NoDup (NX.edges G)) by now apply NoDup_edges.
    rewrite El in ND. apply NoDup_remove in ND. destruct ND as [ND NI].
    enough (L : length (NX.edges (NX.remove_edge u v G))
                = length (l1 ++ l2))
      by (rewrite L, El, !length_app; simpl; lia).
    apply Permutation_length, NoDup_Permutation.
    + now apply NoDup_edges.
    + assumption.
    + intros e. rewrite In_edges_remove_edge
        by (assumption || (apply has_edge_In; eapply get_Some_keys, Ea)).
      rewrite El. rewrite !in_app_iff. simpl. split.
      * intros [[I|[<-|I]] N]; auto. exfalso. apply N. auto.
      * intros I. split; [tauto|]. intros [Hu Hv].
        destruct e as [[u' v'] a']. simpl in *. subst u' v'.
        assert (Ie' : In (u, v, a') (NX.edges G))
          by (rewrite El, in_app_iff; simpl; tauto).
        apply In_edges in Ie'; [|assumption].
        assert (a' = a) by congruence. subst a'.
        apply NI. apply in_app_iff. exact I.
  - reflexivity.
Qed.

(** X6.  On a graph a store can hold, adding an edge between two present
    nodes that were not joined and then removing it gives back the very
    graph there was: nodes, edges, data and orders. *)
Theorem add_then_remove_edge G u v o c pr :
  reachable G ->
  NX.has_node G u = true -> NX.has_node G v = true ->
  NX.has_edge G u v = false ->
  outcome (StateGraph.remove_edge u v)
          (state_after (StateGraph.add_edge u v o c pr) G)
  = Ok [("from", VStr u); ("to", VStr v); ("status", VStr "removed")]
  /\ state_after (StateGraph.remove_edge u v)
                 (state_after (StateGraph.add_edge u v o c pr) G) = G.
Proof.
  intros R Eu Ev E. pose proof (reachable_wf G R) as W.
  assert (Iu : In u (NX.nodes G)) by now apply has_node_In.
  assert (Iv : In v (NX.nodes G)) by now apply has_node_In.
  rewrite add_edge_new by assumption.
  unfold outcome, state_after. rewrite remove_edge_eq, has_edge_put_edge.
  split; [reflexivity|]. simpl.
  assert (NS : ~ In v (keys (NX.succ_of G u))).
  { intros I. apply has_edge_In in I. congruence. }
  assert (NP : ~ In u (keys (NX.pred_of G v))).
  { intros I. apply (wf_mirror G W), has_edge_In in I. congruence. }
  unfold NX.remove_edge. rewrite succ_of_put_edge, pred_of_put_edge.
  rewrite !String.eqb_refl, !del_set_new by assumption.
  unfold put_edge. simpl. rewrite !set_set.
  rewrite (set_same u), (set_same v).
  - now destruct G.
  - apply get_pred_of. now apply (wf_pred_keys G W).
  - apply get_succ_of. now apply (wf_succ_keys G W).
Qed.

(** ** Invariants of the stored data *)

(** A property of node attribute mappings that [add_node] establishes and
    the stores of [update_node] keep holds in every graph a store can
    hold. *)
Lemma node_invariant (P : attrs -> Prop) :
  (forall n t l p tl pr, In t StateGraph.node_types ->
                         P (StateGraph.node_attrs n t l p tl pr)) ->
  (forall a s, P a -> P (set "label" (VStr s) a)) ->
  (forall a z, P a -> P (set "phase" (VInt z) a)) ->
  (forall a s, P a -> P (set "tool" (VStr s) a)) ->
  (forall a d, P a -> P (set "properties" (VDict d) a)) ->
  forall G, reachable G -> forall n a, get n (_node G) = Some a -> P a.
Proof.
  intros Hnew Hl Hp Ht Hpr G [ops ->].
  enough (forall G, wf G -> (forall n a, get n (_node G) = Some a -> P a) ->
                    forall n a, get n (_node (run ops G)) = Some a -> P a) as E.
  { apply E; [apply wf_empty | intros n a; discriminate]. }
  induction ops as [|o r IH]; simpl; intros G W H; [exact H|].
  apply IH; [now apply wf_call|]. clear IH. unfold state_after.
  destruct o as [n t l p tl pr|n l p tl pr|n|u v o c pr|u v|u v o|u v c];
    simpl call.
  - rewrite add_node_eq.
    destruct (NX.has_node G n) eqn:E; [exact H|].
    destruct (mem t StateGraph.node_types) eqn:T; [|exact H].
    apply mem_In in T. apply has_node_false in E. cbn [snd].
    rewrite add_node_new by (assumption || apply node_attrs_NoDup).
    cbn [_node]. intros x a. destruct (String.eqb_spec n x) as [<-|N].
    + rewrite get_app_new by assumption. intros [= <-]. now apply Hnew.
    + rewrite get_app_other by assumption. apply H.
  - rewrite update_node_eq.
    destruct (NX.has_node G n) eqn:E; [|exact H]. simpl.
    apply has_node_In in E.
    assert (S1 : forall k v G0,
              (forall a, P a -> P (set k v a)) ->
              (forall m a, get m (_node G0) = Some a -> P a)
              /\ In n (NX.nodes G0) ->
              (forall m a, get m (_node (NX.set_node_attr n k v G0)) = Some a
                           -> P a)
              /\ In n (NX.nodes (NX.set_node_attr n k v G0))).
    { intros k v G0 Hs [H0 I0]. split.
      - intros m a. unfold NX.set_node_attr. simpl. rewrite get_set.
        destruct (String.eqb n m); [|apply H0].
        intros [= <-]. apply Hs. destruct (keys_get _ _ I0) as [a0 E0].
        rewrite E0. eapply H0, E0.
      - now rewrite nodes_set_node_attr. }
    assert (S2 : forall A (f : A -> value) k x G0,
              (forall a y, P a -> P (set k (f y) a)) ->
              (forall m a, get m (_node G0) = Some a -> P a)
              /\ In n (NX.nodes G0) ->
              (forall m a, get m (_node (store_if n k f x G0)) = Some a -> P a)
              /\ In n (NX.nodes (store_if n k f x G0))).
    { intros A f k x G0 Hs H0. destruct x as [y|]; [|exact H0].
      apply S1; [intros a; apply Hs | exact H0]. }
    unfold updated.
    pose proof (S2 _ VStr "tool" tl _ Ht
                  (S2 _ VInt "phase" p _ Hp
                     (S2 _ VStr "label" l G Hl (conj H E)))) as H3.
    destruct pr as [props|]; [|apply H3].
    apply S1; [|exact H3]. intros a. unfold merge_properties. apply Hpr.
  - rewrite remove_node_eq.
    destruct (NX.has_node G n); [|exact H]. simpl. intros x a.
    unfold NX.remove_node; simpl. rewrite get_del by apply W.
    destruct (String.eqb n x); [discriminate | apply H].
  - rewrite add_edge_eq.
    destruct (NX.has_node G u) eqn:Eu; [|exact H].
    destruct (NX.has_node G v) eqn:Ev; [|exact H].
    apply has_node_In in Eu, Ev. cbn [snd].
    rewrite add_edge_put_edge by assumption. exact H.
  - rewrite remove_edge_eq. destruct (NX.has_edge G u v); exact H.
  - rewrite set_edge_order_eq. destruct (NX.has_edge G u v); exact H.
  - rewrite set_edge_condition_eq.
    destruct (NX.has_edge G u v); [|exact H]. simpl.
    unfold condition_set. destruct c; [exact H|].
    destruct (contains "condition" (NX.edge_data G u v)); exact H.
Qed.

Lemma reachable_node_typed G n a :
  reachable G -> get n (_node G) = Some a -> node_typed a.
Proof.
  intros R. revert n a. apply (node_invariant node_typed); try assumption.
  - intros n t l p tl pr Tin.
    destruct (get_node_attrs n t l p tl pr) as (A1 & A2 & A3 & A4 & A5 & A6).
    split; [apply node_attrs_NoDup|]. split; [|split].
    + split; [exact A6|]. split; [exists t; now split|]. split; eauto.
    + rewrite A4. destruct p; simpl; [intros x [= <-]; eauto | discriminate].
    + rewrite A5. destruct tl; simpl; [intros x [= <-]; eauto | discriminate].
  - intros a s (ND & Ok & Hp & Ht).
    split; [now apply NoDup_keys_set|]. split; [|split].
    + apply node_ok_set; eauto.
    + now rewrite get_set_neq by discriminate.
    + now rewrite get_set_neq by discriminate.
  - intros a z (ND & Ok & Hp & Ht).
    split; [now apply NoDup_keys_set|]. split; [|split].
    + apply node_ok_set; eauto 6.
    + rewrite get_set_eq. intros x [= <-]. eauto.
    + now rewrite get_set_neq by discriminate.
  - intros a s (ND & Ok & Hp & Ht).
    split; [now apply NoDup_keys_set|]. split; [|split].
    + apply node_ok_set; eauto 7.
    + now rewrite get_set_neq by discriminate.
    + rewrite get_set_eq. intros x [= <-]. eauto.
  - intros a d (ND & Ok & Hp & Ht).
    split; [now apply NoDup_keys_set|]. split; [|split].
    + apply node_ok_set; eauto 8.
    + now rewrite get_set_neq by discriminate.
    + now rewrite get_set_neq by discriminate.
Qed.

Lemma succ_of_set_edge_attr G u v k x y :
  NX.succ_of (NX.set_edge_attr u v k x G) y
  = if String.eqb u y
    then set v (set k x (NX.edge_data G u v)) (NX.succ_of G u)
    else NX.succ_of G y.
Proof.
  unfold NX.succ_of at 1, NX.set_edge_attr. simpl. rewrite get_set.
  now destruct (String.eqb u y).
Qed.

Lemma succ_of_del_edge_attr G u v k y :
  NX.succ_of (NX.del_edge_attr u v k G) y
  = if String.eqb u y
    then set v (del k (NX.edge_data G u v)) (NX.succ_of G u)
    else NX.succ_of G y.
Proof.
  unfold NX.succ_of at 1, NX.del_edge_attr. simpl. rewrite get_set.
  now destruct (String.eqb u y).
Qed.

Lemma edge_data_present G u v a :
  get v (NX.succ_of G u) = Some a -> NX.edge_data G u v = a.
Proof. intros E. unfold NX.edge_data. now rewrite E. Qed.

Lemma has_edge_edge_data G u v :
  NX.has_edge G u v = true ->
  get v (NX.succ_of G u) = Some (NX.edge_data G u v).
Proof.
  intros E. apply has_edge_In, keys_get in E. destruct E as [a E].
  now rewrite (edge_data_present _ _ _ _ E).
Qed.

(** A property of edge data mappings that [add_edge] establishes and keeps
    and that the edge setters keep holds in every graph a store can
    hold. *)
Lemma edge_invariant (P : attrs -> Prop) :
  (forall o c pr, P (StateGraph.edge_attrs o c pr)) ->
  (forall a o c pr, P a -> P (update a (StateGraph.edge_attrs o c pr))) ->
  (forall a o, P a -> P (set "order" (VInt o) a)) ->
  (forall a s, P a -> P (set "condition" (VStr s) a)) ->
  (forall a, P a -> P (del "condition" a)) ->
  forall G, reachable G ->
  forall u v a, get v (NX.succ_of G u) = Some a -> P a.
Proof.
  intros Hnew Hupd Ho Hc Hd G [ops ->].
  enough (forall G, wf G ->
            (forall u v a, get v (NX.succ_of G u) = Some a -> P a) ->
            forall u v a, get v (NX.succ_of (run ops G) u) = Some a -> P a)
    as E.
  { apply E; [apply wf_empty | intros u v a; discriminate]. }
  induction ops as [|o r IH]; simpl; intros G W H; [exact H|].
  apply IH; [now apply wf_call|]. clear IH. unfold state_after.
  assert (Hput : forall u v dd,
            P dd ->
            forall x y a, get y (NX.succ_of (put_edge u v dd G) x) = Some a ->
                          P a).
  { intros u v dd Pdd x y a. rewrite succ_of_put_edge.
    destruct (String.eqb u x) eqn:Eu; [|apply H].
    rewrite get_set. destruct (String.eqb v y); [now intros [= <-] | apply H]. }
  destruct o as [n t l p tl pr|n l p tl pr|n|u v o c pr|u v|u v o|u v c];
    simpl call.
  - rewrite add_node_eq.
    destruct (NX.has_node G n) eqn:E; [exact H|].
    destruct (mem t StateGraph.node_types) eqn:T; [|exact H].
    apply has_node_false in E. cbn [snd].
    rewrite add_node_new by (assumption || apply node_attrs_NoDup).
    intros x y a. unfold NX.succ_of. cbn [_succ].
    assert (NS : ~ In n (keys (_succ G))) by now rewrite (wf_succ_keys G W).
    destruct (String.eqb_spec n x) as [<-|N].
    + rewrite get_app_new by assumption. discriminate.
    + rewrite get_app_other by assumption. apply H.
  - rewrite update_node_eq.
    destruct (NX.has_node G n) eqn:E; [|exact H]. cbn [snd].
    apply has_node_In in E.
    destruct (frame_updated G n l p tl pr E) as (_ & _ & S1 & _).
    intros x y a. unfold NX.succ_of. rewrite S1. apply H.
  - rewrite remove_node_eq.
    destruct (NX.has_node G n); [|exact H]. cbn [snd]. intros x y a.
    rewrite succ_of_remove_node by assumption.
    destruct (String.eqb n x); [discriminate|].
    rewrite get_del by apply W.
    destruct (String.eqb n y); [discriminate | apply H].
  - rewrite add_edge_eq.
    destruct (NX.has_node G u) eqn:Eu; [|exact H].
    destruct (NX.has_node G v) eqn:Ev; [|exact H].
    apply has_node_In in Eu, Ev. cbn [snd].
    rewrite add_edge_put_edge by assumption. apply Hput.
    destruct (NX.has_edge G u v) eqn:E.
    + apply Hupd. eapply H, has_edge_edge_data, E.
    + rewrite edge_data_absent by assumption.
      rewrite update_nil by apply edge_attrs_NoDup. apply Hnew.
  - rewrite remove_edge_eq. destruct (NX.has_edge G u v); [|exact H].
    cbn [snd]. intros x y a. rewrite succ_of_remove_edge.
    destruct (String.eqb u x); [|apply H].
    rewrite get_del by apply W.
    destruct (String.eqb v y); [discriminate | apply H].
  - rewrite set_edge_order_eq. destruct (NX.has_edge G u v) eqn:E; [|exact H].
    cbn [snd]. unfold NX.set_edge_attr.
    rewrite <- put_edge_existing by assumption.
    apply Hput, Ho. eapply H, has_edge_edge_data, E.
  - rewrite set_edge_condition_eq.
    destruct (NX.has_edge G u v) eqn:E; [|exact H]. cbn [snd].
    unfold condition_set. destruct c as [s|].
    + unfold NX.set_edge_attr. rewrite <- put_edge_existing by assumption.
      apply Hput, Hc. eapply H, has_edge_edge_data, E.
    + destruct (contains "condition" (NX.edge_data G u v)); [|exact H].
      unfold NX.del_edge_attr. rewrite <- put_edge_existing by assumption.
      apply Hput, Hd. eapply H, has_edge_edge_data, E.
Qed.

Lemma edge_ok_attrs o c pr : edge_ok (StateGraph.edge_attrs o c pr).
Proof.
  destruct (get_edge_attrs o c pr) as (A1 & A2 & A3 & ND).
  split; [assumption|]. split; [|split; [|split]]; eauto.
  - unfold StateGraph.edge_attrs, edge_keys. destruct c; simpl; tauto.
  - rewrite A3. destruct c; simpl; [intros x [= <-]; eauto | discriminate].
Qed.

Lemma reachable_edge_ok G u v a :
  reachable G -> get v (NX.succ_of G u) = Some a -> edge_ok a.
Proof.
  intros R. revert u v a. apply (edge_invariant edge_ok); try assumption.
  - apply edge_ok_attrs.
  - intros a o c pr (ND & K & O & Pr & C).
    destruct (edge_ok_attrs o c pr) as (ND' & K' & _).
    destruct (get_edge_attrs o c pr) as (A1 & A2 & A3 & _).
    split; [now apply NoDup_keys_update|]. split; [|split; [|split]].
    + intros k. rewrite In_keys_update. intros [I|I]; auto.
    + rewrite get_update, A1 by assumption. eauto.
    + rewrite get_update, A2 by assumption. eauto.
    + rewrite get_update, A3 by assumption.
      destruct c; simpl; [intros x [= <-]; eauto | apply C].
  - intros a o (ND & K & O & Pr & C).
    split; [now apply NoDup_keys_set|]. split; [|split; [|split]].
    + intros k. rewrite In_keys_set. intros [->|I]; [simpl; auto | auto].
    + rewrite get_set_eq. eauto.
    + now rewrite get_set_neq by discriminate.
    + now rewrite get_set_neq by discriminate.
  - intros a s (ND & K & O & Pr & C).
    split; [now apply NoDup_keys_set|]. split; [|split; [|split]].
    + intros k. rewrite In_keys_set.
      intros [->|I]; [simpl; auto | auto].
    + now rewrite get_set_neq by discriminate.
    + now rewrite get_set_neq by discriminate.
    + rewrite get_set_eq. intros x [= <-]. eauto.
  - intros a (ND & K & O & Pr & C).
    split; [now apply NoDup_keys_del|]. split; [|split; [|split]].
    + intros k I. apply K. eapply In_keys_del_incl, I.
    + now rewrite get_del_neq by discriminate.
    + now rewrite get_del_neq by discriminate.
    + rewrite get_del_eq by assumption. discriminate.
Qed.

(** ** The edge setters *)

Lemma edge_data_put_edge_other G u v dd u' v' :
  ~ (u' = u /\ v' = v) ->
  NX.edge_data (put_edge u v dd G) u' v' = NX.edge_data G u' v'.
Proof.
  intros N. unfold NX.edge_data. rewrite succ_of_put_edge.
  destruct (String.eqb_spec u u') as [<-|Nu]; [|reflexivity].
  rewrite get_set_neq; [reflexivity|]. intros <-. tauto.
Qed.

Lemma keys_succ_of_put_edge_existing G u v dd x :
  NX.has_edge G u v = true ->
  keys (NX.succ_of (put_edge u v dd G) x) = keys (NX.succ_of G x).
Proof.
  intros E. rewrite succ_of_put_edge.
  destruct (String.eqb_spec u x) as [<-|N]; [|reflexivity].
  apply keys_set_in. now apply has_edge_In.
Qed.

(** What rewriting the data of an edge of the graph changes, and what it
    leaves *)
Lemma put_edge_existing_frame G u v dd :
  wf G -> NX.has_edge G u v = true ->
  NX.edge_data (put_edge u v dd G) u v = dd
  /\ (forall u' v', ~ (u' = u /\ v' = v) ->
        NX.edge_data (put_edge u v dd G) u' v' = NX.edge_data G u' v')
  /\ (forall x, keys (NX.succ_of (put_edge u v dd G) x)
                = keys (NX.succ_of G x))
  /\ _pred (put_edge u v dd G) = _pred G
  /\ _node (put_edge u v dd G) = _node G
  /\ In (u, v, dd) (NX.out_edges (put_edge u v dd G) u)
  /\ In (u, v, dd) (NX.in_edges (put_edge u v dd G) v).
Proof.
  intros W E. destruct (wf_edge_endpoints G u v W E) as [Iu Iv].
  assert (W' : wf (put_edge u v dd G)) by now apply wf_put_edge.
  assert (Ed : get v (NX.succ_of (put_edge u v dd G) u) = Some dd).
  { rewrite succ_of_put_edge, String.eqb_refl. apply get_set_eq. }
  split; [apply edge_data_put_edge|].
  split; [intros u' v'; apply edge_data_put_edge_other|].
  split; [intros x; now apply keys_succ_of_put_edge_existing|].
  split; [now rewrite put_edge_existing|]. split; [reflexivity|].
  split; [now apply In_out_edges_wf | now apply In_in_edges].
Qed.

Lemma set_edge_order_state G u v o :
  wf G -> NX.has_edge G u v = true ->
  state_after (StateGraph.set_edge_order u v o) G
  = put_edge u v (set "order" (VInt o) (NX.edge_data G u v)) G.
Proof.
  intros W E. unfold state_after. rewrite set_edge_order_eq, E. simpl.
  now rewrite put_edge_existing.
Qed.

(** X7.  On a graph a store can hold, [set_edge_order] on an edge of the
    graph succeeds and changes the order of that edge and nothing else:
    the edge's other attributes, the data of every other edge, the order
    in which each node lists its successors, and the nodes are as before.
    The new order is seen from both ends of the edge, among the outgoing
    edges of its source and among the incoming edges of its target. *)
Theorem set_edge_order_sets_order G u v o :
  reachable G -> NX.has_edge G u v = true ->
  let G' := state_after (StateGraph.set_edge_order u v o) G in
  outcome (StateGraph.set_edge_order u v o) G
  = Ok [("from", VStr u); ("to", VStr v); ("order", VInt o);
        ("status", VStr "updated")]
  /\ get "order" (NX.edge_data G' u v) = Some (VInt o)
  /\ (forall k, k <> "order" ->
        get k (NX.edge_data G' u v) = get k (NX.edge_data G u v))
  /\ (forall u' v', ~ (u' = u /\ v' = v) ->
        NX.edge_data G' u' v' = NX.edge_data G u' v')
  /\ (forall x, keys (NX.succ_of G' x) = keys (NX.succ_of G x))
  /\ _pred G' = _pred G
  /\ _node G' = _node G
  /\ In (u, v, NX.edge_data G' u v) (NX.out_edges G' u)
  /\ In (u, v, NX.edge_data G' u v) (NX.in_edges G' v).
Proof.
  intros R E G'. pose proof (reachable_wf G R) as W.
  assert (EG : G' = put_edge u v (set "order" (VInt o) (NX.edge_data G u v)) G)
    by now apply set_edge_order_state.
  clearbody G'. subst G'.
  destruct (put_edge_existing_frame G u v
              (set "order" (VInt o) (NX.edge_data G u v)) W E)
    as (D & Do & K & P & N & O & I).
  split; [unfold outcome; now rewrite set_edge_order_eq, E|].
  rewrite D. repeat split; try assumption.
  - apply get_set_eq.
  - intros k Nk. apply get_set_neq. congruence.
Qed.

Lemma set_edge_condition_state G u v c :
  wf G -> NX.has_edge G u v = true -> NoDup (keys (NX.edge_data G u v)) ->
  state_after (StateGraph.set_edge_condition u v c) G
  = put_edge u v
      match c with
      | Some s => set "condition" (VStr s) (NX.edge_data G u v)
      | None => del "condition" (NX.edge_data G u v)
      end G.
Proof.
  intros W E ND. unfold state_after. rewrite set_edge_condition_eq, E. simpl.
  unfold condition_set. destruct c as [s|].
  - now rewrite put_edge_existing.
  - destruct (contains "condition" (NX.edge_data G u v)) eqn:C.
    + now rewrite put_edge_existing.
    + rewrite del_absent by now apply contains_false.
      rewrite put_edge_existing by assumption.
      rewrite (set_same v (NX.edge_data G u v))
        by now apply has_edge_edge_data.
      rewrite set_same; [now destruct G|].
      apply get_succ_of. apply (wf_succ_keys G W).
      now apply (wf_edge_endpoints G u v W E).
Qed.

(** X8.  On a graph a store can hold, [set_edge_condition] on an edge of
    the graph succeeds; with a condition it stores that condition, and
    with none it leaves the edge without a condition attribute.  The
    edge's order and properties, the data of every other edge, the order
    in which each node lists its successors, and the nodes are as
    before. *)
Theorem set_edge_condition_sets_or_clears G u v c :
  reachable G -> NX.has_edge G u v = true ->
  let G' := state_after (StateGraph.set_edge_condition u v c) G in
  outcome (StateGraph.set_edge_condition u v c) G
  = Ok [("from", VStr u); ("to", VStr v);
        ("condition", match c with Some s => VStr s | None => VNone end);
        ("status", VStr "updated")]
  /\ get "condition" (NX.edge_data G' u v) = option_map VStr c
  /\ (c = None -> contains "condition" (NX.edge_data G' u v) = false)
  /\ (forall k, k <> "condition" ->
        get k (NX.edge_data G' u v) = get k (NX.edge_data G u v))
  /\ (forall u' v', ~ (u' = u /\ v' = v) ->
        NX.edge_data G' u' v' = NX.edge_data G u' v')
  /\ (forall x, keys (NX.succ_of G' x) = keys (NX.succ_of G x))
  /\ _pred G' = _pred G
  /\ _node G' = _node G.
Proof.
  intros R E G'. pose proof (reachable_wf G R) as W.
  destruct (reachable_edge_ok G u v _ R (has_edge_edge_data G u v E))
    as (ND & _).
  assert (EG : G' = put_edge u v
                      match c with
                      | Some s => set "condition" (VStr s) (NX.edge_data G u v)
                      | None => del "condition" (NX.edge_data G u v)
                      end G)
    by now apply set_edge_condition_state.
  clearbody G'. subst G'.
  destruct (put_edge_existing_frame G u v
              match c with
              | Some s => set "condition" (VStr s) (NX.edge_data G u v)
              | None => del "condition" (NX.edge_data G u v)
              end W E)
    as (D & Do & K & P & N & _).
  split; [unfold outcome; now rewrite set_edge_condition_eq, E|].
  rewrite D. repeat split; try assumption.
  - destruct c; simpl; [apply get_set_eq | now apply get_del_eq].
  - intros ->. unfold contains. now rewrite get_del_eq.
  - intros k Nk. destruct c.
    + apply get_set_neq. congruence.
    + apply get_del_neq. congruence.
Qed.

(** ** Steering the execution sequence *)

Lemma set_split {V} k (v v0 : V) (l1 l2 : dict V) :
  ~ In k (keys l1) ->
  set k v (l1 ++ (k, v0) :: l2) = l1 ++ (k, v) :: l2.
Proof.
  induction l1 as [|[k' v'] r IH]; simpl; intros NI.
  - now rewrite String.eqb_refl.
  - destruct (String.eqb_spec k k') as [->|N]; [exfalso; auto|].
    f_equal. apply IH. tauto.
Qed.

Lemma first_min_after_set_order G u v o :
  wf G -> NX.has_edge G u v = true ->
  (forall e, In e (NX.out_edges G u) -> snd (fst e) <> v ->
             (o < edge_order e)%Z) ->
  first_min edge_order
    (NX.out_edges
       (put_edge u v (set "order" (VInt o) (NX.edge_data G u v)) G) u)
    (u, v, set "order" (VInt o) (NX.edge_data G u v)).
Proof.
  intros W E Hlow.
  pose proof (has_edge_edge_data G u v E) as Ed. apply get_In in Ed.
  destruct (in_split _ _ Ed) as (l1 & l2 & El).
  pose proof (wf_succ_inner G W u) as ND. rewrite El in ND.
  unfold keys in ND. rewrite map_app in ND. simpl in ND.
  apply NoDup_remove in ND. destruct ND as [_ NI].
  rewrite in_app_iff in NI.
  exists (map (fun kv => (u, fst kv, snd kv)) l1),
         (map (fun kv => (u, fst kv, snd kv)) l2).
  assert (Hin : forall kv, In kv l1 \/ In kv l2 ->
                           (o < edge_order (u, fst kv, snd kv))%Z).
  { intros kv I. apply Hlow.
    - unfold NX.out_edges. rewrite El. apply in_map_iff. exists kv.
      split; [reflexivity|]. rewrite in_app_iff. simpl. tauto.
    - simpl. intros <-. apply NI.
      destruct I as [I|I]; [left | right]; now apply (in_map fst) in I. }
  assert (Eo : edge_order (u, v, set "order" (VInt o) (NX.edge_data G u v))
               = o).
  { unfold edge_order, StateGraph.order_key. simpl. now rewrite get_set_eq. }
  split; [|split].
  - unfold NX.out_edges. rewrite succ_of_put_edge, String.eqb_refl, El.
    rewrite set_split by tauto. now rewrite map_app.
  - intros y I. apply in_map_iff in I. destruct I as (kv & <- & I).
    rewrite Eo. apply Hin. now left.
  - intros y I. apply in_map_iff in I. destruct I as (kv & <- & I).
    rewrite Eo. apply Z.lt_le_incl, Hin. now right.
Qed.

(** X9.  On a graph a store can hold, after [set_edge_order] gives an edge
    from a node an order below the order of every other edge from that
    node, the execution sequence from the node, run past decisions, emits
    the node and then continues from the target of that edge. *)
Theorem lowest_order_edge_is_followed G u v o :
  reachable G -> NX.has_edge G u v = true -> u <> "" ->
  (forall e, In e (NX.out_edges G u) -> snd (fst e) <> v ->
             (o < edge_order e)%Z) ->
  let G' := state_after (StateGraph.set_edge_order u v o) G in
  exists r rest,
    outcome (StateGraph.get_execution_sequence u false) G'
    = Ok (Some (r :: rest))
    /\ node_record G' u = Some r
    /\ sequence_from empty_or_revisit G' false v [u] rest.
Proof.
  intros R E Nu Hlow G'. pose proof (reachable_wf G R) as W.
  assert (R' : reachable G').
  { destruct R as [ops ->]. exists (ops ++ [SetEdgeOrder u v o]).
    unfold run. now rewrite fold_left_app. }
  assert (EG : G' = put_edge u v (set "order" (VInt o) (NX.edge_data G u v)) G)
    by now apply set_edge_order_state.
  assert (Hn : NX.has_node G' u = true).
  { rewrite EG. apply has_node_In. unfold NX.nodes. simpl.
    now apply (wf_edge_endpoints G u v W E). }
  destruct (execution_sequence_refines G' u false R' Hn) as (s & Es & Hs).
  pose proof (first_min_after_set_order G u v o W E Hlow) as Hmin.
  rewrite <- EG in Hmin.
  inversion Hs as [c em S|c em r NS Rr U D|c em r NS Rr D O
                   |c em r e rest NS Rr D M Hrest]; subst.
  - destruct S as [S|[]]. contradiction.
  - discriminate.
  - rewrite O in Hmin. destruct Hmin as ([|? ?] & ? & ? & _); discriminate.
  - pose proof (first_min_unique _ _ _ _ M Hmin) as ->.
    exists r, rest. auto.
Qed.

(** ** The two edge lists of a node *)

Lemma in_edges_records G n x :
  wf G ->
  In x (map StateGraph.edge_record (NX.in_edges G n)) <->
  exists u, NX.has_edge G u n = true
            /\ x = StateGraph.edge_record (u, n, NX.edge_data G u n).
Proof.
  intros W. rewrite in_map_iff. split.
  - intros ([[u v] a] & <- & I). apply (In_in_edges G n u v a W) in I.
    destruct I as [-> E]. exists u. split.
    + apply has_edge_In. eapply get_Some_keys, E.
    + now rewrite (edge_data_present _ _ _ _ E).
  - intros (u & E & ->). exists (u, n, NX.edge_data G u n).
    split; [reflexivity|]. apply (In_in_edges G n u n _ W).
    split; [reflexivity | now apply has_edge_edge_data].
Qed.

Lemma out_edges_records G n x :
  wf G ->
  In x (map StateGraph.edge_record (NX.out_edges G n)) <->
  exists v, NX.has_edge G n v = true
            /\ x = StateGraph.edge_record (n, v, NX.edge_data G n v).
Proof.
  intros W. rewrite in_map_iff. split.
  - intros ([[u v] a] & <- & I). apply (In_out_edges_wf G n u v a W) in I.
    destruct I as [-> E]. exists v. split.
    + apply has_edge_In. eapply get_Some_keys, E.
    + now rewrite (edge_data_present _ _ _ _ E).
  - intros (v & E & ->). exists (n, v, NX.edge_data G n v).
    split; [reflexivity|]. apply (In_out_edges_wf G n n v _ W).
    split; [reflexivity | now apply has_edge_edge_data].
Qed.

(** X10.  On a graph a store can hold, [get_node_edges] raises NotFound
    for an absent node; for a present node it returns the node id, under
    [incoming] exactly one record for each edge into the node and under
    [outgoing] exactly one record for each edge out of it, and the two
    lists in this order make up what [get_edges] returns for the node.
    The call leaves the graph as it was. *)
Theorem get_node_edges_lists G n :
  reachable G ->
  state_after (StateGraph.get_node_edges n) G = G
  /\ (NX.has_node G n = false ->
      outcome (StateGraph.get_node_edges n) G = Raise (NotFound n))
  /\ (NX.has_node G n = true ->
      exists r,
        outcome (StateGraph.get_node_edges n) G = Ok r
        /\ StateGraph.edges_node_id r = n
        /\ outcome (StateGraph.get_edges (Some n)) G
           = Ok (StateGraph.incoming r ++ StateGraph.outgoing r)
        /\ (forall x, In x (StateGraph.incoming r) <->
              exists u, NX.has_edge G u n = true
                /\ x = StateGraph.edge_record (u, n, NX.edge_data G u n))
        /\ (forall x, In x (StateGraph.outgoing r) <->
              exists v, NX.has_edge G n v = true
                /\ x = StateGraph.edge_record (n, v, NX.edge_data G n v))
        /\ NoDup (StateGraph.incoming r)
        /\ NoDup (StateGraph.outgoing r)).
Proof.
  intros R. pose proof (reachable_wf G R) as W. split; [|split].
  - unfold state_after, StateGraph.get_node_edges. run_monad.
    now destruct (NX.has_node G n).
  - intros E. unfold outcome, StateGraph.get_node_edges. run_monad.
    now rewrite E.
  - intros E.
    exists (StateGraph.mkNodeEdges n
              (map StateGraph.edge_record (NX.in_edges G n))
              (map StateGraph.edge_record (NX.out_edges G n))).
    cbn [StateGraph.edges_node_id StateGraph.incoming StateGraph.outgoing].
    split; [|split; [reflexivity|split; [now apply get_edges_eq|]]].
    { unfold outcome, StateGraph.get_node_edges. run_monad. now rewrite E. }
    split; [intros x; now apply in_edges_records|].
    split; [intros x; now apply out_edges_records|].
    split.
    + apply (NoDup_map_inv (fun x => get "from" x)). rewrite map_map.
      rewrite (map_ext _ (fun e => Some (VStr (fst (fst e)))))
        by (intros [[u v] a]; apply get_from_edge_record).
      rewrite <- (map_map (fun e => fst (fst e)) (fun u => Some (VStr u))).
      apply NoDup_map_Some_VStr.
      unfold NX.in_edges. rewrite map_map. simpl. apply (wf_pred_inner G W n).
    + apply (NoDup_map_inv (fun x => get "to" x)). rewrite map_map.
      rewrite (map_ext _ (fun e => Some (VStr (snd (fst e)))))
        by (intros [[u v] a]; apply get_to_edge_record).
      rewrite <- (map_map (fun e => snd (fst e)) (fun u => Some (VStr u))).
      apply NoDup_map_Some_VStr.
      unfold NX.out_edges. rewrite map_map. simpl. apply (wf_succ_inner G W n).
Qed.

(** ** The summary of a graph *)

Lemma list_sum_set k (d : dict nat) :
  list_sum (map snd (set k (count_of k d + 1) d)) = list_sum (map snd d) + 1.
Proof.
  unfold count_of. induction d as [|[k' c'] r IH]; simpl; [reflexivity|].
  destruct (String.eqb k k'); simpl; [lia|]. rewrite IH. lia.
Qed.

Lemma existsb_Zeqb p l : existsb (Z.eqb p) l = true <-> In p l.
Proof.
  rewrite existsb_exists. split.
  - intros (x & I & E). apply Z.eqb_eq in E. now subst.
  - intros I. exists p. split; [assumption | apply Z.eqb_refl].
Qed.

Lemma In_set_add p q l : In q (StateGraph.set_add p l) <-> q = p \/ In q l.
Proof.
  unfold StateGraph.set_add.
  destruct (existsb (Z.eqb p) l) eqn:E.
  - apply existsb_Zeqb in E. split; [tauto | intros [->|I]; assumption].
  - rewrite in_app_iff. simpl. split; [intros [I|[<-|[]]]; tauto|].
    intros [->|I]; tauto.
Qed.

Lemma NoDup_set_add p l : NoDup l -> NoDup (StateGraph.set_add p l).
Proof.
  intros ND. unfold StateGraph.set_add.
  destruct (existsb (Z.eqb p) l) eqn:E; [assumption|].
  apply NoDup_app; [assumption | repeat constructor; intros [] |].
  intros x I [<-|[]]. apply existsb_Zeqb in I. congruence.
Qed.

Lemma info_inv_start G : info_inv G [] ([], [], 0, 0).
Proof.
  constructor; simpl; try reflexivity; try constructor.
  - discriminate.
  - intros [].
  - intros (n & [] & _).
Qed.

Lemma info_inv_step G l acc x :
  info_inv G l acc -> info_inv G (l ++ [x]) (StateGraph.count_node G acc x).
Proof.
  destruct acc as [[[nt ph] dc] lc]. intros [I1 I2 I3 I4 I5 I6 I7 I8].
  cbn [fst snd] in *.
  set (a := StateGraph.node_data_of G x).
  set (ty := StateGraph.stored_type a).
  set (nt' := set ty (count_of ty nt + 1) nt).
  set (ph' := match get "phase" a with
              | Some (VInt p) => StateGraph.set_add p ph
              | _ => ph
              end).
  assert (F : forall t,
             length (nodes_of_type G t (l ++ [x]))
             = length (nodes_of_type G t l)
               + (if String.eqb ty t then 1 else 0)).
  { intros t. unfold nodes_of_type. rewrite filter_app, length_app. simpl.
    fold a. fold ty. now destruct (String.eqb ty t). }
  assert (E : StateGraph.count_node G (nt, ph, dc, lc) x
              = (nt', ph',
                 dc + (if String.eqb ty "decision" then 1 else 0),
                 lc + (if String.eqb ty "loop" then 1 else 0))).
  { unfold StateGraph.count_node. fold a. fold ty. fold (count_of ty nt).
    fold nt'. fold ph'.
    destruct (String.eqb_spec ty "decision") as [D|D].
    - rewrite D. simpl. now rewrite Nat.add_0_r.
    - destruct (String.eqb ty "loop"); now rewrite !Nat.add_0_r. }
  rewrite E. constructor; simpl.
  - now apply NoDup_keys_set.
  - intros t. rewrite F, <- I2. unfold count_of at 1. unfold nt'.
    rewrite get_set. destruct (String.eqb ty t) eqn:Et.
    + apply String.eqb_eq in Et. now subst t.
    + fold (count_of t nt). lia.
  - intros t c. unfold nt'. rewrite get_set.
    destruct (String.eqb ty t); [intros [= <-]; lia | apply I3].
  - unfold nt'. rewrite list_sum_set, length_app. simpl. lia.
  - rewrite F. lia.
  - rewrite F. lia.
  - unfold ph'. destruct (get "phase" a) as [[]|]; try assumption.
    now apply NoDup_set_add.
  - intros p. split.
    + intros I.
      assert (C : In p ph \/ get "phase" a = Some (VInt p)).
      { unfold ph' in I. destruct (get "phase" a) as [[]|]; auto.
        apply In_set_add in I. destruct I as [->|I]; auto. }
      destruct C as [C|C].
      * apply I8 in C. destruct C as (n & In' & Hn). exists n.
        rewrite in_app_iff. auto.
      * exists x. rewrite in_app_iff. simpl. auto.
    + intros (n & In' & Hn). rewrite in_app_iff in In'.
      destruct In' as [In'|[<-|[]]].
      * assert (C : In p ph) by (apply I8; eauto).
        unfold ph'. destruct (get "phase" a) as [[]|]; auto.
        apply In_set_add. auto.
      * fold a in Hn. unfold ph'. rewrite Hn. apply In_set_add. auto.
Qed.

Lemma info_inv_fold G l :
  info_inv G l (fold_left (StateGraph.count_node G) l ([], [], 0, 0)).
Proof.
  induction l as [|x l IH] using rev_ind.
  - apply info_inv_start.
  - rewrite fold_left_app. simpl. now apply info_inv_step.
Qed.






Lemma get_graph_info_eq G gid :
  outcome (StateGraph.get_graph_info gid) G
  = Ok (let acc := fold_left (StateGraph.count_node G) (NX.nodes G)
                     ([], [], 0, 0) in
        StateGraph.mkGraphInfo gid
          (NX.number_of_nodes G) (NX.number_of_edges G)
          (fst (fst (fst acc)))
          (sort_by (fun p => p) (snd (fst (fst acc))))
          (snd (fst acc)) (snd acc))
  /\ state_after (StateGraph.get_graph_info gid) G = G.
Proof.
  unfold outcome, state_after, StateGraph.get_graph_info. run_monad.
  destruct (fold_left (StateGraph.count_node G) (NX.nodes G) ([], [], 0, 0))
    as [[[nt ph] dc] lc].
  simpl. split; [|reflexivity]. now destruct ph.
Qed.

Lemma stored_type_ok G n :
  reachable G -> In n (NX.nodes G) ->
  In (StateGraph.stored_type (StateGraph.node_data_of G n))
     StateGraph.node_types.
Proof.
  intros R I. apply keys_get in I. destruct I as [a E].
  destruct (reachable_nodes_ok G R n a E) as (_ & (t & Et & Tin) & _).
  unfold StateGraph.node_data_of, StateGraph.stored_type.
  rewrite E. now rewrite Et.
Qed.

(** X11.  On a graph a store can hold, [get_graph_info] returns, without
    changing the graph, the number of nodes and the number of edges of
    the graph and under [node_types] a count for each stored type and
    only for the types that occur: every key is one of the six node
    types, every count is positive and is the number of nodes of that
    type, and the counts add up to the number of nodes;
    [decision_points] and [loops] are the counts of the types decision
    and loop. *)
Theorem get_graph_info_counts G gid :
  reachable G ->
  exists i,
    outcome (StateGraph.get_graph_info gid) G = Ok i
    /\ state_after (StateGraph.get_graph_info gid) G = G
    /\ StateGraph.info_graph_id i = gid
    /\ StateGraph.info_num_nodes i = length (NX.nodes G)
    /\ StateGraph.info_num_edges i = length (NX.edges G)
    /\ NoDup (keys (StateGraph.info_node_types i))
    /\ (forall t, In t (keys (StateGraph.info_node_types i)) ->
                  In t StateGraph.node_types)
    /\ (forall t c, get t (StateGraph.info_node_types i) = Some c -> 0 < c)
    /\ (forall t, count_of t (StateGraph.info_node_types i)
                  = length (nodes_of_type G t (NX.nodes G)))
    /\ list_sum (map snd (StateGraph.info_node_types i))
       = StateGraph.info_num_nodes i
    /\ StateGraph.info_decision_points i
       = count_of "decision" (StateGraph.info_node_types i)
    /\ StateGraph.info_loops i
       = count_of "loop" (StateGraph.info_node_types i).
Proof.
  intros R. pose proof (reachable_wf G R) as W.
  destruct (get_graph_info_eq G gid) as [E S].
  pose proof (info_inv_fold G (NX.nodes G)) as I.
  eexists. split; [exact E|]. split; [exact S|].
  destruct I as [I1 I2 I3 I4 I5 I6 I7 I8].
  cbn [StateGraph.info_graph_id StateGraph.info_num_nodes
       StateGraph.info_num_edges StateGraph.info_node_types
       StateGraph.info_decision_points StateGraph.info_loops].
  assert (L : NX.number_of_nodes G = length (NX.nodes G)).
  { unfold NX.number_of_nodes, NX.nodes, keys. now rewrite length_map. }
  split; [reflexivity|]. split; [exact L|].
  split; [now apply number_of_edges_length|].
  split; [exact I1|]. split; [|split; [exact I3|]].
  - intros t It. apply keys_get in It. destruct It as [c Ec].
    pose proof (I3 t c Ec) as Pos. pose proof (I2 t) as Ct.
    unfold count_of in Ct. rewrite Ec in Ct.
    destruct (nodes_of_type G t (NX.nodes G)) as [|n r] eqn:En;
      [simpl in Ct; lia|].
    assert (In n (nodes_of_type G t (NX.nodes G)))
      by (rewrite En; now left).
    unfold nodes_of_type in H. apply filter_In in H. destruct H as [Hn Ht].
    apply String.eqb_eq in Ht. subst t. now apply stored_type_ok.
  - split; [exact I2|]. split; [now rewrite L|].
    split; [now rewrite I2 | now rewrite I2].
Qed.


(** ** The warnings of a validation *)

Lemma no_key_nil {V} (d : dict V) :
  d = [] <-> forall k, ~ In k (keys d).
Proof.
  split.
  - intros -> k [].
  - destruct d as [|[k v] r]; [reflexivity|]. intros H.
    exfalso. apply (H k). now left.
Qed.

Lemma in_degree_zero G n :
  wf G ->
  NX.in_degree G n = 0 <-> forall m, NX.has_edge G m n = false.
Proof.
  intros W. unfold NX.in_degree. split.
  - intros H m. apply length_zero_iff_nil in H.
    destruct (NX.has_edge G m n) eqn:E; [|reflexivity].
    apply has_edge_In, (wf_mirror G W) in E. rewrite H in E. destruct E.
  - intros H. apply length_zero_iff_nil, no_key_nil.
    intros m I. apply (wf_mirror G W), has_edge_In in I.
    rewrite H in I. discriminate.
Qed.

Lemma out_degree_zero G n :
  length (NX.succ_of G n) = 0 <-> forall m, NX.has_edge G n m = false.
Proof.
  split.
  - intros H m. apply length_zero_iff_nil in H.
    destruct (NX.has_edge G n m) eqn:E; [|reflexivity].
    apply has_edge_In in E. rewrite H in E. destruct E.
  - intros H. apply length_zero_iff_nil, no_key_nil.
    intros m I. apply has_edge_In in I. rewrite H in I. discriminate.
Qed.

Lemma In_entry_points G n :
  wf G ->
  In n (StateGraph.entry_points G) <->
  In n (NX.nodes G) /\ forall m, NX.has_edge G m n = false.
Proof.
  intros W. unfold StateGraph.entry_points.
  now rewrite filter_In, Nat.eqb_eq, in_degree_zero.
Qed.

Lemma In_isolates G n :
  wf G ->
  In n (NX.isolates G) <->
  In n (NX.nodes G)
  /\ forall m, NX.has_edge G m n = false /\ NX.has_edge G n m = false.
Proof.
  intros W. unfold NX.isolates, NX.degree.
  rewrite filter_In, Nat.eqb_eq.
  assert (E : length (NX.pred_of G n) + length (NX.succ_of G n) = 0
              <-> NX.in_degree G n = 0 /\ length (NX.succ_of G n) = 0)
    by (unfold NX.in_degree; lia).
  rewrite E, in_degree_zero, out_degree_zero by assumption.
  split; intros [I H]; (split; [assumption|]).
  - intros m. split; apply H.
  - split; intros m; apply H.
Qed.

(** X13.  On a graph a store can hold and whatever the enumeration of
    cycles does, [validate_graph] never raises, leaves the graph as it
    was and always reports the graph valid.  The list of isolated nodes
    is reported when it is not empty and holds the nodes no edge
    touches; the list of entry points is reported when it has more than
    one node and holds the nodes no edge enters, so every isolated node
    is in it; the number of cycles is reported when the enumeration
    returns one cycle at least.  There is at most one warning of each
    kind, in this order. *)
Theorem validate_graph_warnings
    (simple_cycles : DiGraph -> option (list (list string))) G :
  reachable G ->
  exists ws,
    outcome (StateGraph.validate_graph simple_cycles) G = Ok (true, ws)
    /\ state_after (StateGraph.validate_graph simple_cycles) G = G
    /\ ws = ((match NX.isolates G with
              | [] => []
              | _ => [StateGraph.IsolatedNodes (NX.isolates G)]
              end)
             ++ (if Nat.ltb 1 (length (StateGraph.entry_points G))
                 then [StateGraph.MultipleEntryPoints
                         (StateGraph.entry_points G)]
                 else [])
             ++ (match simple_cycles G with
                 | Some (c :: cs) =>
                     [StateGraph.ContainsCycles (length (c :: cs))]
                 | _ => []
                 end))
    /\ (forall n, In n (NX.isolates G) <->
          In n (NX.nodes G)
          /\ forall m, NX.has_edge G m n = false
                       /\ NX.has_edge G n m = false)
    /\ (forall n, In n (StateGraph.entry_points G) <->
          In n (NX.nodes G) /\ forall m, NX.has_edge G m n = false)
    /\ incl (NX.isolates G) (StateGraph.entry_points G)
    /\ (1 < length (NX.isolates G) ->
        In (StateGraph.IsolatedNodes (NX.isolates G)) ws
        /\ In (StateGraph.MultipleEntryPoints (StateGraph.entry_points G))
              ws).
Proof.
  intros R. pose proof (reachable_wf G R) as W.
  assert (Inc : incl (NX.isolates G) (StateGraph.entry_points G)).
  { intros n I. apply (In_isolates G n W) in I. destruct I as [I H].
    apply (In_entry_points G n W). split; [assumption|].
    intros m. apply H. }
  eexists. split; [|split; [|split; [reflexivity|]]].
  - unfold outcome, StateGraph.validate_graph. run_monad.
    destruct (NX.isolates G) as [|i il];
      destruct (Nat.ltb 1 (length (StateGraph.entry_points G)));
      destruct (simple_cycles G) as [[|c cs]|]; reflexivity.
  - unfold state_after, StateGraph.validate_graph. now run_monad.
  - split; [intros n; now apply In_isolates|].
    split; [intros n; now apply In_entry_points|].
    split; [exact Inc|].
    intros L.
    assert (L' : 1 < length (StateGraph.entry_points G)).
    { eapply Nat.lt_le_trans; [exact L|].
      apply NoDup_incl_length; [|exact Inc].
      unfold NX.isolates. apply NoDup_filter, W. }
    apply Nat.ltb_lt in L'. rewrite L'.
    destruct (NX.isolates G) as [|i il] eqn:Ei; [simpl in L; lia|].
    split; [now left|]. rewrite in_app_iff. right. now left.
Qed.

(** ** The registry of stores *)

Lemma reachable_empty : reachable NX.empty.
Proof. now exists []. Qed.

Lemma reachable_call o G : reachable G -> reachable (state_after (call o) G).
Proof.
  intros [ops ->]. exists (ops ++ [o]). unfold run.
  now rewrite fold_left_app.
Qed.


Lemma reachable_for_each {A} (item : A -> M attrs) (as_op : A -> op) :
  (forall x, item x = call (as_op x)) ->
  forall items created G,
    reachable G ->
    reachable (state_after (Server.for_each item items created) G).
Proof.
  intros Hop. induction items as [|x r IH]; intros created G R.
  - exact R.
  - unfold state_after. simpl. unfold bind.
    pose proof (reachable_call (as_op x) G R) as R1.
    unfold state_after in R1. rewrite <- Hop in R1.
    destruct (item x G) as [[c|e] G1]; simpl in *.
    + apply (IH _ G1 R1).
    + exact R1.
Qed.

Lemma reachable_bulk_add_nodes nodes G :
  reachable G -> reachable (state_after (Server.bulk_add_nodes nodes) G).
Proof.
  apply (reachable_for_each Server.add_node_item
           (fun x => AddNode (Server.node_id x) (Server.node_type x)
                       (Server.label x) (Server.phase x) (Server.tool x)
                       (Server.node_properties x))).
  reflexivity.
Qed.

Lemma reachable_bulk_add_edges edges G :
  reachable G -> reachable (state_after (Server.bulk_add_edges edges) G).
Proof.
  apply (reachable_for_each Server.add_edge_item
           (fun x => AddEdge (Server.from_node x) (Server.to_node x)
                       (Server.order x) (Server.condition x)
                       (Server.edge_properties x))).
  reflexivity.
Qed.

Lemma state_after_bind_ret {A B} (m : M A) (f : A -> B) G :
  state_after (x <- m ;; ret (f x)) G = state_after m G.
Proof.
  unfold state_after, bind, ret. now destruct (m G) as [[a|e] G1].
Qed.

(** What [on_graph] does to the registry *)
Lemma on_graph_missing {A} graph_id (m : M A) gs :
  get graph_id gs = None ->
  Registry.on_graph graph_id m gs
  = (Registry.Failed (Registry.GraphMissing graph_id), gs).
Proof.
  intros E. unfold Registry.on_graph, Registry._get_graph. now rewrite E.
Qed.

Lemma on_graph_present {A} graph_id (m : M A) gs G :
  get graph_id gs = Some G ->
  Registry.on_graph graph_id m gs
  = (match outcome m G with
     | Ok a => Registry.Done a
     | Raise e => Registry.Failed (Registry.StoreError e)
     end,
     set graph_id (state_after m G) gs).
Proof.
  intros E. unfold Registry.on_graph, Registry._get_graph, outcome,
    state_after.
  rewrite E. now destruct (m G) as [[a|e] G1].
Qed.

Lemma registry_ok_set graph_id G gs :
  registry_ok gs -> reachable G -> registry_ok (set graph_id G gs).
Proof.
  intros [ND H] R. split; [now apply NoDup_keys_set|].
  intros id G'. rewrite get_set.
  destruct (String.eqb graph_id id); [now intros [= <-] | apply H].
Qed.

Lemma registry_ok_on_graph {A} graph_id (m : M A) gs :
  (forall G, reachable G -> reachable (state_after m G)) ->
  registry_ok gs -> registry_ok (snd (Registry.on_graph graph_id m gs)).
Proof.
  intros Hm Ok. destruct (get graph_id gs) as [G|] eqn:E.
  - rewrite (on_graph_present _ _ _ _ E). simpl.
    apply registry_ok_set; [assumption|]. apply Hm.
    now apply (proj2 Ok graph_id).
  - now rewrite (on_graph_missing _ _ _ E).
Qed.

Lemma registry_ok_call_tool r gs :
  registry_ok gs -> registry_ok (snd (Registry._call_tool r gs)).
Proof.
  intros Ok.
  destruct r as [id|id|id o|id nodes|id edges]; simpl Registry._call_tool.
  - unfold Registry.create_state_graph.
    destruct (contains id gs); [exact Ok|].
    apply registry_ok_on_graph; [intros G R; exact R|].
    apply registry_ok_set; [exact Ok | apply reachable_empty].
  - unfold Registry.delete_state_graph. simpl.
    destruct (contains id gs); [|exact Ok].
    destruct Ok as [ND H]. split; [now apply NoDup_keys_del|].
    intros id' G. rewrite get_del by assumption.
    destruct (String.eqb id id'); [discriminate | apply H].
  - apply registry_ok_on_graph; [|exact Ok].
    intros G. apply reachable_call.
  - apply registry_ok_on_graph; [|exact Ok].
    intros G R. rewrite state_after_bind_ret.
    now apply reachable_bulk_add_nodes.
  - apply registry_ok_on_graph; [|exact Ok].
    intros G R. rewrite state_after_bind_ret.
    now apply reachable_bulk_add_edges.
Qed.

Lemma registry_ok_session rs gs :
  registry_ok gs -> registry_ok (Registry.session rs gs).
Proof.
  revert gs. induction rs as [|r rs IH]; intros gs Ok; [exact Ok|].
  apply IH. now apply registry_ok_call_tool.
Qed.

(** X14.  Whatever sequence of tool calls a server has answered since it
    started with no graph (creations, deletions, the seven mutators of a
    store and the two bulk tools, failed calls included), the registry
    lists each graph id once, and the store under an id is in a state a
    store can be in: its graph is well formed, every edge joins two of
    its nodes and every node has a type among the six. *)
Theorem registered_stores_are_sound rs graph_id G :
  get graph_id (Registry.session rs []) = Some G ->
  NoDup (Registry.graphs_in_memory (Registry.session rs []))
  /\ reachable G
  /\ wf G
  /\ (forall u v, NX.has_edge G u v = true ->
                  NX.has_node G u = true /\ NX.has_node G v = true)
  /\ (forall n, NX.has_node G n = true ->
                In (StateGraph.stored_type (StateGraph.node_data_of G n))
                   StateGraph.node_types).
Proof.
  intros E.
  assert (Ok : registry_ok (Registry.session rs [])).
  { apply registry_ok_session. split; [constructor | discriminate]. }
  destruct Ok as [ND H]. pose proof (H _ _ E) as R.
  pose proof (reachable_wf G R) as W.
  split; [exact ND|]. split; [exact R|]. split; [exact W|]. split.
  - intros u v Euv. rewrite !has_node_In.
    now apply (wf_edge_endpoints G u v W).
  - intros n Hn. apply stored_type_ok; [assumption | now apply has_node_In].
Qed.

(** X15.  [create_state_graph] on an id the registry does not have
    registers an empty graph under the id, last in the listing, and
    returns the confirmation with no nodes and no edges; on an id the
    registry has it raises and changes nothing.  [delete_state_graph]
    never raises: it returns the same confirmation whether the id was
    registered or not, and afterwards the id is not registered, so a
    creation under the same id succeeds and starts from the empty graph.
    Neither touches the store of another id. *)
Theorem create_and_delete_state_graph gs graph_id :
  NoDup (keys gs) ->
  let created := Registry.create_state_graph graph_id gs in
  let deleted := Registry.delete_state_graph graph_id gs in
  (contains graph_id gs = false ->
     fst created
     = Registry.Done [("graph_id", VStr graph_id); ("status", VStr "created");
                      ("num_nodes", VInt 0); ("num_edges", VInt 0)]
     /\ Registry._get_graph graph_id (snd created) = Registry.Done NX.empty
     /\ Registry.graphs_in_memory (snd created)
        = Registry.graphs_in_memory gs ++ [graph_id])
  /\ (contains graph_id gs = true ->
      created = (Registry.Failed (Registry.GraphExists graph_id), gs))
  /\ fst deleted
     = Registry.Done [("graph_id", VStr graph_id); ("status", VStr "deleted")]
  /\ Registry._get_graph graph_id (snd deleted)
     = Registry.Failed (Registry.GraphMissing graph_id)
  /\ (contains graph_id gs = false -> snd deleted = gs)
  /\ Registry._get_graph graph_id
       (snd (Registry.create_state_graph graph_id (snd deleted)))
     = Registry.Done NX.empty
  /\ (forall other, other <> graph_id ->
        get other (snd created) = get other gs
        /\ get other (snd deleted) = get other gs).
Proof.
  intros ND created deleted.
  assert (Ec : contains graph_id gs = false ->
               created
               = (Registry.Done
                    [("graph_id", VStr graph_id); ("status", VStr "created");
                     ("num_nodes", VInt 0); ("num_edges", VInt 0)],
                  set graph_id NX.empty gs)).
  { intros C. unfold created, Registry.create_state_graph. rewrite C.
    rewrite (on_graph_present _ _ _ NX.empty) by apply get_set_eq.
    unfold outcome, state_after. simpl. now rewrite set_set. }
  assert (Ed : get graph_id (snd deleted) = None).
  { unfold deleted, Registry.delete_state_graph. simpl.
    destruct (contains graph_id gs) eqn:C; [now apply get_del_eq|].
    apply get_None. now apply contains_false. }
  split; [|split; [|split; [|split; [|split; [|split]]]]].
  - intros C. rewrite (Ec C). simpl. split; [reflexivity|]. split.
    + unfold Registry._get_graph. now rewrite get_set_eq.
    + unfold Registry.graphs_in_memory. apply keys_set_new.
      now apply contains_false.
  - intros C. unfold created, Registry.create_state_graph. now rewrite C.
  - reflexivity.
  - unfold Registry._get_graph. now rewrite Ed.
  - intros C. unfold deleted, Registry.delete_state_graph. simpl.
    now rewrite C.
  - unfold Registry.create_state_graph.
    assert (C : contains graph_id (snd deleted) = false)
      by (unfold contains; now rewrite Ed).
    rewrite C.
    rewrite (on_graph_present _ _ _ NX.empty) by apply get_set_eq.
    simpl. unfold Registry._get_graph. now rewrite get_set_eq.
  - intros other N. split.
    + unfold created, Registry.create_state_graph.
      destruct (contains graph_id gs) eqn:C; [reflexivity|].
      rewrite (on_graph_present _ _ _ NX.empty) by apply get_set_eq.
      simpl. rewrite !get_set_neq by congruence. reflexivity.
    + unfold deleted, Registry.delete_state_graph. simpl.
      destruct (contains graph_id gs); [|reflexivity].
      apply get_del_neq. congruence.
Qed.


(** ** Adding and removing a node *)

Lemma del_app_last {V} k (v : V) (d : dict V) :
  ~ In k (keys d) -> del k (d ++ [(k, v)]) = d.
Proof. intros NI. rewrite <- (set_new k v d NI). now apply del_set_new. Qed.

Lemma get_app_last {V} k (v : V) (d : dict V) :
  ~ In k (keys d) -> get k (d ++ [(k, v)]) = Some v.
Proof. intros NI. rewrite <- (set_new k v d NI). apply get_set_eq. Qed.

(** X17.  On a graph a store can hold, adding a node under a new id and
    then removing it succeeds and gives back the very graph there was. *)
Theorem add_then_remove_node G n t l p tl pr :
  reachable G -> NX.has_node G n = false -> In t StateGraph.node_types ->
  outcome (StateGraph.remove_node n)
          (state_after (StateGraph.add_node n t l p tl pr) G)
  = Ok [("node_id", VStr n); ("status", VStr "removed")]
  /\ state_after (StateGraph.remove_node n)
                 (state_after (StateGraph.add_node n t l p tl pr) G) = G.
Proof.
  intros R Hn Tin. pose proof (reachable_wf G R) as W.
  assert (NI : ~ In n (NX.nodes G)) by now apply has_node_false.
  assert (NS : ~ In n (keys (_succ G))) by now rewrite (wf_succ_keys G W).
  assert (NP : ~ In n (keys (_pred G))) by now rewrite (wf_pred_keys G W).
  assert (E : state_after (StateGraph.add_node n t l p tl pr) G
              = mkDiGraph (_node G ++ [(n, StateGraph.node_attrs n t l p tl pr)])
                          (_succ G ++ [(n, [])]) (_pred G ++ [(n, [])])).
  { unfold state_after. rewrite add_node_eq, Hn.
    rewrite (proj2 (mem_In t StateGraph.node_types) Tin). simpl.
    apply add_node_new; [assumption | assumption | apply node_attrs_NoDup]. }
  rewrite E. unfold outcome, state_after. rewrite remove_node_eq.
  assert (Hn' : NX.has_node
                  (mkDiGraph
                     (_node G ++ [(n, StateGraph.node_attrs n t l p tl pr)])
                     (_succ G ++ [(n, [])]) (_pred G ++ [(n, [])])) n = true).
  { apply has_node_In. unfold NX.nodes, keys. simpl.
    rewrite map_app, in_app_iff. simpl. auto. }
  rewrite Hn'. simpl. split; [reflexivity|].
  unfold NX.remove_node, NX.succ_of. cbn [_node _succ _pred].
  rewrite get_app_last by assumption. simpl.
  rewrite get_app_last by assumption. simpl.
  rewrite !del_app_last by assumption. now destruct G.
Qed.

(** ** The order of the adjacency *)

Lemma keys_del_same {V W} k (d : dict V) (d' : dict W) :
  keys d = keys d' -> keys (del k d) = keys (del k d').
Proof.
  revert d'. induction d as [|[k0 v0] r IH]; intros [|[k1 v1] r']; simpl;
    try discriminate; [reflexivity|].
  intros [= <- E]. destruct (String.eqb k k0); [exact E|].
  simpl. f_equal. now apply IH.
Qed.

Lemma keys_fold_del_in {W} n us (p : dict (dict W)) :
  (forall u, In u us -> In u (keys p)) ->
  keys (fold_left (NX.del_in n) us p) = keys p.
Proof.
  revert p. induction us as [|u us IH]; intros p Hin; simpl; [reflexivity|].
  assert (E : keys (NX.del_in n p u) = keys p).
  { unfold NX.del_in. apply keys_set_in, Hin. now left. }
  rewrite IH; [exact E|]. intros x I. rewrite E. apply Hin. now right.
Qed.

Lemma aligned_remove_node G n :
  wf G -> aligned G -> aligned (NX.remove_node n G).
Proof.
  intros W [As Ap]. unfold aligned, NX.remove_node. cbn [_node _succ _pred].
  fold (removal_pred1 n G). fold (removal_ps n G).
  assert (E1 : keys (removal_pred1 n G) = keys (_pred G)).
  { unfold removal_pred1. apply keys_fold_del_in. intros u I.
    apply (wf_pred_keys G W). apply (wf_mirror G W) in I.
    eapply pred_of_nonempty_node; eauto. }
  split.
  - rewrite keys_fold_del_in.
    + now apply keys_del_same.
    + intros u I. apply (In_remove_node_ps G n W) in I.
      destruct I as [N I]. apply In_keys_del; [apply W|].
      split; [assumption|]. apply (wf_succ_keys G W).
      eapply succ_of_nonempty_node; eauto.
  - apply keys_del_same. now rewrite E1.
Qed.

Lemma aligned_put_edge G u v dd :
  In u (keys (_succ G)) -> In v (keys (_pred G)) ->
  aligned G -> aligned (put_edge u v dd G).
Proof.
  intros Iu Iv [As Ap]. unfold aligned, put_edge. simpl.
  now rewrite !keys_set_in by assumption.
Qed.

Lemma aligned_call o G : wf G -> aligned G -> aligned (state_after (call o) G).
Proof.
  intros W A. unfold state_after.
  destruct o as [n t l p tl pr|n l p tl pr|n|u v o c pr|u v|u v o|u v c];
    simpl call.
  - rewrite add_node_eq.
    destruct (NX.has_node G n) eqn:E; [exact A|].
    destruct (mem t StateGraph.node_types); [|exact A]. cbn [snd].
    rewrite add_node_new
      by (assumption || (now apply has_node_false) || apply node_attrs_NoDup).
    destruct A as [As Ap]. unfold aligned, keys. simpl.
    rewrite !map_app. unfold keys in As, Ap. now rewrite As, Ap.
  - rewrite update_node_eq.
    destruct (NX.has_node G n) eqn:E; [|exact A]. cbn [snd].
    apply has_node_In in E.
    destruct (frame_updated G n l p tl pr E) as (En & _ & Es & Ep).
    destruct A as [As Ap]. unfold aligned. rewrite Es, Ep.
    unfold NX.nodes in En. now rewrite En.
  - rewrite remove_node_eq.
    destruct (NX.has_node G n); [now apply aligned_remove_node | exact A].
  - rewrite add_edge_eq.
    destruct (NX.has_node G u) eqn:Eu; [|exact A].
    destruct (NX.has_node G v) eqn:Ev; [|exact A].
    apply has_node_In in Eu, Ev. cbn [snd].
    rewrite add_edge_put_edge by assumption.
    apply aligned_put_edge;
      [now apply (wf_succ_keys G W) | now apply (wf_pred_keys G W) | exact A].
  - rewrite remove_edge_eq.
    destruct (NX.has_edge G u v) eqn:E; [|exact A]. cbn [snd].
    destruct (wf_edge_endpoints G u v W E) as [Iu Iv].
    destruct A as [As Ap]. unfold aligned, NX.remove_edge. simpl.
    rewrite !keys_set_in;
      [auto | now apply (wf_pred_keys G W) | now apply (wf_succ_keys G W)].
  - rewrite set_edge_order_eq.
    destruct (NX.has_edge G u v) eqn:E; [|exact A]. cbn [snd].
    destruct (wf_edge_endpoints G u v W E) as [Iu Iv].
    destruct A as [As Ap]. unfold aligned, NX.set_edge_attr. simpl.
    rewrite keys_set_in; [auto | now apply (wf_succ_keys G W)].
  - rewrite set_edge_condition_eq.
    destruct (NX.has_edge G u v) eqn:E; [|exact A]. cbn [snd].
    destruct (wf_edge_endpoints G u v W E) as [Iu Iv].
    destruct A as [As Ap]. unfold condition_set.
    destruct c as [s|];
      [|destruct (contains "condition" (NX.edge_data G u v));
        [|split; assumption]];
      unfold aligned, NX.set_edge_attr, NX.del_edge_attr; simpl;
      (rewrite keys_set_in; [auto | now apply (wf_succ_keys G W)]).
Qed.

Lemma reachable_aligned G : reachable G -> aligned G.
Proof.
  intros [ops ->].
  enough (forall G, wf G -> aligned G -> aligned (run ops G)) as E.
  { apply E; [apply wf_empty | split; reflexivity]. }
  induction ops as [|o r IH]; simpl; intros G W A; [exact A|].
  apply IH; [now apply wf_call | now apply aligned_call].
Qed.

Lemma succ_of_In G u inner :
  wf G -> In (u, inner) (_succ G) -> NX.succ_of G u = inner.
Proof.
  intros W I. unfold NX.succ_of.
  now rewrite (In_get _ _ _ (wf_succ_nodup G W) I).
Qed.

(** The edge view of an aligned graph goes through the nodes in their
    order. *)
Lemma edges_by_node G :
  wf G -> aligned G -> NX.edges G = flat_map (NX.out_edges G) (NX.nodes G).
Proof.
  intros W [As _]. unfold NX.edges, NX.nodes. rewrite <- As.
  unfold keys. rewrite flat_map_concat_map, flat_map_concat_map, map_map.
  f_equal. apply map_ext_in. intros [u inner] I. simpl.
  unfold NX.out_edges. now rewrite (succ_of_In G u inner W I).
Qed.

(** X23.  On a graph a store can hold, the three dictionaries of the
    graph list the nodes in the same order, and [get_edges] without a
    node lists the edges source by source, the sources in the order of
    [list_nodes] and the edges of a source in the order of the
    [outgoing] list of [get_node_edges]. *)
Theorem get_edges_follows_the_nodes G :
  reachable G ->
  keys (_succ G) = NX.nodes G
  /\ keys (_pred G) = NX.nodes G
  /\ exists ns,
       outcome StateGraph.list_nodes G = Ok ns
       /\ map (get "node_id") ns = map (fun n => Some (VStr n)) (NX.nodes G)
       /\ outcome (StateGraph.get_edges None) G
          = Ok (flat_map
                  (fun n =>
                     match outcome (StateGraph.get_node_edges n) G with
                     | Ok r => StateGraph.outgoing r
                     | Raise _ => []
                     end)
                  (NX.nodes G)).
Proof.
  intros R. pose proof (reachable_wf G R) as W.
  destruct (reachable_aligned G R) as [As Ap].
  split; [exact As|]. split; [exact Ap|].
  eexists. split; [apply list_nodes_eq|]. split.
  - rewrite map_map. unfold NX.nodes, keys. rewrite map_map.
    apply map_ext. intros [n a]. simpl. apply get_set_eq.
  - unfold outcome at 1, StateGraph.get_edges. run_monad. simpl.
    f_equal. rewrite (edges_by_node G W (conj As Ap)).
    rewrite flat_map_concat_map, flat_map_concat_map, concat_map, map_map.
    f_equal. apply map_ext_in. intros n I.
    unfold outcome, StateGraph.get_node_edges. run_monad.
    rewrite (proj2 (has_node_In G n) I). reflexivity.
Qed.

(** ** Reading a graph file *)

Lemma each_app {A} (call : A -> Files.filling) l1 l2 G :
  Files.each call (l1 ++ l2) G
  = match Files.each call l1 G with
    | (None, G') => Files.each call l2 G'
    | (Some r, G') => (Some r, G')
    end.
Proof.
  revert G. induction l1 as [|x r IH]; intros G; simpl; [reflexivity|].
  destruct (call x G) as [[e|] G1]; [reflexivity | apply IH].
Qed.

(** A property of graphs that every call of a loop keeps holds after the
    loop, whether it completes or not. *)
Lemma each_invariant {A} (call : A -> Files.filling) (P : DiGraph -> Prop) :
  (forall x G, P G -> P (snd (call x G))) ->
  forall items G, P G -> P (snd (Files.each call items G)).
Proof.
  intros Hc. induction items as [|x r IH]; intros G HP; simpl; [exact HP|].
  pose proof (Hc x G HP) as H1.
  destruct (call x G) as [[e|] G1]; simpl in *; [exact H1 | now apply IH].
Qed.

(** What the importer's [add_node] and [add_edge] do to the graph *)
Lemma files_add_node_cases n t l p tl pr G :
  (exists r, Files.add_node n t l p tl pr G = (Some r, G))
  \/ (exists s a,
        t = VStr s /\ In s StateGraph.node_types
        /\ ~ In n (NX.nodes G)
        /\ NoDup (keys a)
        /\ get "node_type" a = Some (VStr s)
        /\ Files.add_node n t l p tl pr G = (None, NX.add_node n a G)).
Proof.
  unfold Files.add_node. destruct (NX.has_node G n) eqn:Hn; [eauto|].
  destruct t as [| | |s| |]; try (left; eexists; reflexivity).
  destruct (mem s StateGraph.node_types) eqn:Ms;
    [|left; eexists; reflexivity].
  cbn [negb]. right. eexists s, _. split; [reflexivity|].
  split; [exact (proj1 (mem_In s StateGraph.node_types) Ms)|].
  split; [now apply has_node_false|].
  split; [|split; [|reflexivity]].
  - destruct p, tl; simpl; repeat constructor; simpl; intuition discriminate.
  - destruct p, tl; reflexivity.
Qed.

Lemma files_add_edge_cases f t o c pr G :
  (exists r, Files.add_edge f t o c pr G = (Some r, G))
  \/ (exists u v a,
        In u (NX.nodes G) /\ In v (NX.nodes G)
        /\ Files.add_edge f t o c pr G = (None, NX.add_edge u v a G)).
Proof.
  unfold Files.add_edge, Files.known.
  destruct f as [| | |u| |]; eauto.
  destruct (NX.has_node G u) eqn:Hu; [|eauto].
  destruct t as [| | |v| |]; eauto.
  destruct (NX.has_node G v) eqn:Hv; [|eauto].
  right. eexists u, v, _. rewrite <- !has_node_In. eauto.
Qed.

Lemma import_node_cases n a G :
  (exists r, Files.import_node n a G = (Some r, G))
  \/ (exists s b,
        In s StateGraph.node_types
        /\ ~ In n (NX.nodes G)
        /\ NoDup (keys b)
        /\ get "node_type" b = Some (VStr s)
        /\ Files.import_node n a G = (None, NX.add_node n b G)).
Proof.
  unfold Files.import_node.
  destruct (files_add_node_cases n
              (Files.py_or (Files.py_get "node_type" a)
                 (Files.py_get_default "type" (VStr "action") a))
              (Files.py_or (Files.py_get "label" a) (Files.py_get "name" a))
              (Files.py_get "phase" a) (Files.py_get "tool" a)
              (Files.py_get "properties" a) G)
    as [[r E]|(s & b & _ & Is & NI & ND & Eb & E)]; [left; eauto|].
  right. exists s, b. auto.
Qed.

Lemma import_edge_cases e G :
  (exists r, Files.import_edge e G = (Some r, G))
  \/ (exists u v a,
        In u (NX.nodes G) /\ In v (NX.nodes G)
        /\ Files.import_edge e G = (None, NX.add_edge u v a G)).
Proof. unfold Files.import_edge. apply files_add_edge_cases. Qed.

Lemma length_set_in {V} k (v : V) (d : dict V) :
  In k (keys d) -> length (set k v d) = length d.
Proof.
  intros I. rewrite <- !keys_length. now rewrite keys_set_in.
Qed.

Lemma number_of_edges_put_edge_existing G u v dd :
  wf G -> NX.has_edge G u v = true ->
  NX.number_of_edges (put_edge u v dd G) = NX.number_of_edges G.
Proof.
  intros W E. unfold NX.number_of_edges, NX.size.
  change (NX.nodes (put_edge u v dd G)) with (NX.nodes G).
  f_equal. f_equal. apply map_ext. intros n. unfold NX.degree.
  rewrite succ_of_put_edge, pred_of_put_edge.
  assert (Iv : In v (keys (NX.succ_of G u))) by now apply has_edge_In.
  assert (Iu : In u (keys (NX.pred_of G v))) by now apply (wf_mirror G W).
  destruct (String.eqb_spec u n) as [Eu|Nu];
    destruct (String.eqb_spec v n) as [Ev|Nv];
    rewrite ?length_set_in by assumption; congruence.
Qed.

Lemma number_of_edges_add_edge G u v a :
  wf G -> In u (NX.nodes G) -> In v (NX.nodes G) ->
  NX.number_of_edges (NX.add_edge u v a G) <= S (NX.number_of_edges G).
Proof.
  intros W Iu Iv. rewrite add_edge_put_edge by assumption.
  destruct (NX.has_edge G u v) eqn:E.
  - rewrite number_of_edges_put_edge_existing by assumption. lia.
  - rewrite number_of_edges_put_edge_new by assumption. lia.
Qed.

Lemma imported_ok_empty : imported_ok NX.empty.
Proof. split; [apply wf_empty | discriminate]. Qed.

Lemma imported_ok_add_edge G u v a :
  imported_ok G -> In u (NX.nodes G) -> In v (NX.nodes G) ->
  imported_ok (NX.add_edge u v a G).
Proof.
  intros [W T] Iu Iv. rewrite add_edge_put_edge by assumption.
  split; [now apply wf_put_edge | exact T].
Qed.

Lemma imported_ok_add_node G n a s :
  imported_ok G -> ~ In n (NX.nodes G) -> NoDup (keys a) ->
  get "node_type" a = Some (VStr s) -> In s StateGraph.node_types ->
  imported_ok (NX.add_node n a G).
Proof.
  intros [W T] NI ND Ea Is. split; [now apply wf_add_node|].
  rewrite add_node_new by assumption. simpl. intros m b.
  destruct (String.eqb_spec m n) as [->|N].
  - rewrite get_app_last by assumption. intros [= <-]. eauto.
  - rewrite get_app_other by (simpl; intuition congruence). apply T.
Qed.

(** The node loop: the nodes it adds are a prefix of the file's, in the
    file's order, and it adds no edge. *)
Lemma import_nodes_sound (L : dict attrs) G :
  imported_ok G ->
  let r := fst (Files.each (fun kv => Files.import_node (fst kv) (snd kv))
                           L G) in
  let G' := snd (Files.each (fun kv => Files.import_node (fst kv) (snd kv))
                            L G) in
  imported_ok G'
  /\ NX.edges G' = NX.edges G
  /\ exists added rest,
       keys L = added ++ rest
       /\ NX.nodes G' = NX.nodes G ++ added
       /\ (r = None -> rest = []).
Proof.
  revert G. induction L as [|[n a] L IH]; intros G Ok; simpl.
  - split; [exact Ok|]. split; [reflexivity|].
    exists [], []. rewrite !app_nil_r. auto.
  - destruct (import_node_cases n a G)
      as [[r E]|(s & b & Is & NI & ND & Eb & E)]; rewrite E; simpl.
    + split; [exact Ok|]. split; [reflexivity|].
      exists [], (n :: keys L). rewrite app_nil_r.
      repeat split. discriminate.
    + pose proof (imported_ok_add_node G n b s Ok NI ND Eb Is) as Ok1.
      destruct (IH _ Ok1) as (Ok' & Ee & added & rest & Ek & En & Er).
      split; [exact Ok'|]. split.
      * rewrite Ee. rewrite add_node_new by (assumption || apply Ok).
        unfold NX.edges. simpl. apply edges_app_isolated.
      * exists (n :: added), rest. split; [simpl; now rewrite Ek|].
        split; [|exact Er]. rewrite En.
        rewrite add_node_new by (assumption || apply Ok).
        unfold NX.nodes, keys. simpl. rewrite map_app. simpl.
        now rewrite <- app_assoc.
Qed.

(** The edge loop: it leaves the nodes alone and adds at most one edge
    per item. *)
Lemma import_edges_sound (E : list attrs) G :
  imported_ok G ->
  let G' := snd (Files.each Files.import_edge E G) in
  imported_ok G'
  /\ _node G' = _node G
  /\ NX.number_of_edges G' <= NX.number_of_edges G + length E.
Proof.
  revert G. induction E as [|e E IH]; intros G Ok; simpl.
  - split; [exact Ok|]. split; [reflexivity | lia].
  - destruct (import_edge_cases e G)
      as [[r Ee]|(u & v & a & Iu & Iv & Ee)]; rewrite Ee; simpl.
    + split; [exact Ok|]. split; [reflexivity | lia].
    + pose proof (imported_ok_add_edge G u v a Ok Iu Iv) as Ok1.
      destruct (IH _ Ok1) as (Ok' & En & Le).
      split; [exact Ok'|]. split.
      * rewrite En. rewrite add_edge_put_edge by (assumption || apply Ok).
        reflexivity.
      * pose proof (number_of_edges_add_edge G u v a (imported_wf G Ok) Iu Iv).
        lia.
Qed.

(** X18.  Whatever a graph file holds under its node and edge entries,
    the graph the importer has built from the empty graph when its two
    loops end, or when a rejected item ends them, is well formed: every
    edge joins two of its nodes and every node has one of the six types.
    Its nodes are the first node ids of the file, in the file's order,
    and it has at most as many edges as the file lists.  When no item
    is rejected its nodes are all the node ids of the file, so the node
    count the import tool reports is the graph's, while the edge count
    it reports, the length of the file's list, is an upper bound. *)
Theorem populate_is_sound data :
  let r := fst (Files.populate data NX.empty) in
  let G := snd (Files.populate data NX.empty) in
  wf G
  /\ (forall u v, NX.has_edge G u v = true ->
                  NX.has_node G u = true /\ NX.has_node G v = true)
  /\ (forall n, NX.has_node G n = true ->
        In (StateGraph.stored_type (StateGraph.node_data_of G n))
           StateGraph.node_types)
  /\ (exists rest, keys (Files.data_nodes data) = NX.nodes G ++ rest)
  /\ NX.number_of_edges G <= length (Files.data_edges data)
  /\ (r = None ->
      NX.nodes G = keys (Files.data_nodes data)
      /\ NX.number_of_nodes G = length (Files.data_nodes data)).
Proof.
  intros r G. subst r G. unfold Files.populate.
  destruct (import_nodes_sound (Files.data_nodes data) NX.empty
              imported_ok_empty)
    as (Ok1 & Ee & added & rest & Ek & En & Er).
  destruct (Files.each (fun kv => Files.import_node (fst kv) (snd kv))
                       (Files.data_nodes data) NX.empty)
    as [[r1|] G1] eqn:E1; simpl in *.
  - assert (Ne : NX.number_of_edges G1 = 0).
    { rewrite number_of_edges_length by apply Ok1. now rewrite Ee. }
    split; [apply Ok1|]. split; [|split; [|split; [|split]]].
    + intros u v Euv. rewrite !has_node_In.
      now apply (wf_edge_endpoints G1 u v (imported_wf G1 Ok1)).
    + intros n Hn. apply has_node_In, keys_get in Hn.
      destruct Hn as [a Ea].
      destruct (imported_types G1 Ok1 n a Ea) as (s & Es & Is).
      unfold StateGraph.node_data_of, StateGraph.stored_type.
      now rewrite Ea, Es.
    + exists rest. now rewrite En.
    + lia.
    + discriminate.
  - destruct (import_edges_sound (Files.data_edges data) G1 Ok1)
      as (Ok2 & En2 & Le).
    assert (Ne : NX.number_of_edges G1 = 0).
    { rewrite number_of_edges_length by apply Ok1. now rewrite Ee. }
    set (G2 := snd (Files.each Files.import_edge (Files.data_edges data) G1))
      in *.
    assert (Nn : NX.nodes G2 = NX.nodes G1)
      by (unfold NX.nodes; now rewrite En2).
    split; [apply Ok2|]. split; [|split; [|split; [|split]]].
    + intros u v Euv. rewrite !has_node_In.
      now apply (wf_edge_endpoints G2 u v (imported_wf G2 Ok2)).
    + intros n Hn. apply has_node_In, keys_get in Hn.
      destruct Hn as [a Ea].
      destruct (imported_types G2 Ok2 n a Ea) as (s & Es & Is).
      unfold StateGraph.node_data_of, StateGraph.stored_type.
      now rewrite Ea, Es.
    + exists rest. now rewrite Nn, En.
    + lia.
    + intros _.
      assert (Ek' : keys (Files.data_nodes data) = NX.nodes G2).
      { rewrite Nn, En, Ek, (Er eq_refl). apply app_nil_r. }
      split; [now symmetry|].
      unfold NX.number_of_nodes. rewrite <- keys_length.
      fold (NX.nodes G2). rewrite <- Ek'. apply keys_length.
Qed.

(** ** Writing a graph file and reading it back *)

Lemma fold_set_fresh {V} (f : string -> V) (l : list string) (d : dict V) :
  NoDup l -> (forall k, In k l -> ~ In k (keys d)) ->
  fold_left (fun acc n => set n (f n) acc) l d
  = d ++ map (fun n => (n, f n)) l.
Proof.
  revert d. induction l as [|k l IH]; intros d ND Hd; simpl.
  - now rewrite app_nil_r.
  - inversion ND as [|? ? NI ND']; subst.
    rewrite set_new by (apply Hd; now left).
    rewrite IH; [now rewrite <- app_assoc | assumption |].
    intros k' I. unfold keys. rewrite map_app, in_app_iff. simpl.
    intros [J|[<-|[]]]; [|contradiction].
    apply (Hd k'); [now right | assumption].
Qed.

Lemma node_data_of_In G n a :
  wf G -> In (n, a) (_node G) -> StateGraph.node_data_of G n = a.
Proof.
  intros W I. unfold StateGraph.node_data_of.
  now rewrite (In_get _ _ _ (wf_node_nodup G W) I).
Qed.

Lemma export_data_nodes G gid :
  wf G ->
  Files.data_nodes (Files.export_data G gid) = exported_nodes (_node G).
Proof.
  intros W. unfold Files.export_data. simpl.
  rewrite fold_set_fresh; [|apply W | intros k _ []]. simpl.
  unfold NX.nodes, keys, exported_nodes. rewrite map_map.
  apply map_ext_in. intros [n a] I. simpl.
  now rewrite (node_data_of_In G n a W I).
Qed.

Lemma reachable_edge_shaped G u v a :
  reachable G -> get v (NX.succ_of G u) = Some a -> edge_shaped a.
Proof.
  intros R. revert u v a. apply (edge_invariant edge_shaped); try assumption.
  - intros o c pr. exists o, c, (or_dict pr). now destruct pr.
  - intros a o c pr (o0 & c0 & d0 & ->).
    exists o, (match c with Some _ => c | None => c0 end), (or_dict pr).
    destruct c0, c; reflexivity.
  - intros a o' (o & c & d & ->). exists o', c, d. now destruct c.
  - intros a s (o & c & d & ->). exists o, (Some s), d. now destruct c.
  - intros a (o & c & d & ->). exists o, None, d. now destruct c.
Qed.

(** The importer's call for a node record an exporter wrote is the typed
    [add_node] with the stored values. *)
Lemma import_node_typed n a G :
  node_typed a -> NX.has_node G n = false ->
  exists t l p tl d,
    In t StateGraph.node_types
    /\ Files.import_node n (set "node_id" (VStr n) a) G
       = (None, state_after (StateGraph.add_node n t (Some l) p tl (Some d)) G)
    /\ ((get "label" a = Some (VStr "") -> n = "") ->
        forall k, get k (StateGraph.node_attrs n t (Some l) p tl (Some d))
                  = get k a).
Proof.
  intros (ND & (K & (t & Et & Tin) & (l & El) & (d & Ed)) & Hp & Ht) Hn.
  set (p := match get "phase" a with Some (VInt z) => Some z | _ => None end).
  set (tl := match get "tool" a with Some (VStr s) => Some s | _ => None end).
  exists t, l, p, tl, d. split; [exact Tin|].
  assert (Tt : truthy t = true).
  { simpl in Tin.
    destruct Tin as [<-|[<-|[<-|[<-|[<-|[<-|[]]]]]]]; reflexivity. }
  assert (Ename : get "name" a = None).
  { apply get_None. intros I. apply K in I. simpl in I.
    destruct I as [I|[I|[I|[I|[I|[]]]]]]; discriminate I. }
  assert (Ep : Files.py_get "phase" (set "node_id" (VStr n) a)
               = match p with Some z => VInt z | None => VNone end).
  { unfold Files.py_get, p. rewrite get_set_neq by discriminate.
    destruct (get "phase" a) as [x|] eqn:Ex; [|reflexivity].
    destruct (Hp x eq_refl) as [z ->]. reflexivity. }
  assert (Etl : Files.py_get "tool" (set "node_id" (VStr n) a)
                = match tl with Some s => VStr s | None => VNone end).
  { unfold Files.py_get, tl. rewrite get_set_neq by discriminate.
    destruct (get "tool" a) as [x|] eqn:Ex; [|reflexivity].
    destruct (Ht x eq_refl) as [s ->]. reflexivity. }
  split.
  - unfold Files.import_node. rewrite Ep, Etl.
    unfold Files.py_get, Files.py_get_default.
    rewrite !get_set_neq by discriminate. rewrite Et, El, Ed, Ename.
    unfold state_after. rewrite add_node_eq, Hn.
    rewrite (proj2 (mem_In t StateGraph.node_types) Tin).
    unfold Files.add_node, Files.py_or. cbn [Files.truthy_value snd].
    rewrite Hn, Tt. rewrite (proj2 (mem_In t StateGraph.node_types) Tin).
    cbn [negb]. unfold StateGraph.node_attrs, or_str, or_dict.
    destruct (truthy l) eqn:Tl; cbn [Files.truthy_value]; rewrite ?Tl;
      destruct d, p, tl; reflexivity.
  - intros Hl k.
    destruct (get_node_attrs n t (Some l) p tl (Some d))
      as (A1 & A2 & A3 & A4 & A5 & A6).
    assert (El' : or_str (Some l) n = l).
    { unfold or_str. destruct (truthy l) eqn:Tl; [reflexivity|].
      unfold truthy in Tl. apply negb_false_iff, String.eqb_eq in Tl.
      subst l. now apply Hl. }
    destruct (in_dec string_dec k node_keys) as [I|NI].
    + simpl in I. destruct I as [<-|[<-|[<-|[<-|[<-|[]]]]]].
      * rewrite Et. exact A1.
      * rewrite El. rewrite El' in A2. exact A2.
      * rewrite Ed. exact A3.
      * etransitivity; [exact A4|]. unfold p.
        destruct (get "phase" a) as [x|] eqn:Ex; [|reflexivity].
        destruct (Hp x eq_refl) as [z ->]. reflexivity.
      * etransitivity; [exact A5|]. unfold tl.
        destruct (get "tool" a) as [x|] eqn:Ex; [|reflexivity].
        destruct (Ht x eq_refl) as [s ->]. reflexivity.
    + rewrite (proj2 (get_None _ _)) by (intros I; apply NI, A6, I).
      symmetry. apply get_None. intros I. apply NI, K, I.
Qed.

(** The importer's call for an edge record an exporter wrote is the typed
    [add_edge] with the stored values. *)
Lemma import_edge_typed u v o c d G :
  u <> "" -> v <> "" ->
  NX.has_node G u = true -> NX.has_node G v = true ->
  Files.import_edge
    (StateGraph.edge_record (u, v, StateGraph.edge_attrs o c (Some d))) G
  = (None, state_after (StateGraph.add_edge u v o c (Some d)) G).
Proof.
  intros Nu Nv Hu Hv.
  assert (Tu : truthy u = true)
    by (unfold truthy; now destruct (String.eqb_spec u "")).
  assert (Tv : truthy v = true)
    by (unfold truthy; now destruct (String.eqb_spec v "")).
  unfold state_after. rewrite add_edge_eq, Hu, Hv.
  unfold Files.import_edge, Files.add_edge, StateGraph.edge_record,
    StateGraph.edge_attrs, or_dict.
  destruct c as [s|]; cbn -[NX.add_edge NX.has_node truthy];
    unfold Files.py_or, Files.known; cbn [Files.truthy_value];
    rewrite ?Tu, ?Tv, ?Hu, ?Hv; destruct d; reflexivity.
Qed.

Lemma node_data_add_node_new G n a m :
  wf G -> ~ In n (NX.nodes G) -> NoDup (keys a) ->
  StateGraph.node_data_of (NX.add_node n a G) m
  = if String.eqb m n then a else StateGraph.node_data_of G m.
Proof.
  intros W NI ND. rewrite add_node_new by assumption.
  unfold StateGraph.node_data_of. simpl.
  destruct (String.eqb_spec m n) as [->|N].
  - now rewrite get_app_last.
  - now rewrite get_app_other by (simpl; intuition congruence).
Qed.

Lemma succ_of_add_node_new G n a x :
  wf G -> ~ In n (NX.nodes G) -> NoDup (keys a) ->
  NX.succ_of (NX.add_node n a G) x = NX.succ_of G x.
Proof.
  intros W NI ND. rewrite add_node_new by assumption.
  assert (NS : ~ In n (keys (_succ G))) by now rewrite (wf_succ_keys G W).
  unfold NX.succ_of. simpl.
  destruct (String.eqb_spec x n) as [->|N].
  - rewrite get_app_last by assumption.
    now rewrite (proj2 (get_None _ _) NS).
  - now rewrite get_app_other by (simpl; intuition congruence).
Qed.

(** The node loop on the node records of an exported file *)
Lemma import_nodes_typed (L : dict attrs) G :
  reachable G -> NoDup (keys L) ->
  (forall n, In n (keys L) -> ~ In n (NX.nodes G)) ->
  (forall n a, In (n, a) L -> node_typed a) ->
  exists G',
    Files.each (fun kv => Files.import_node (fst kv) (snd kv))
               (exported_nodes L) G = (None, G')
    /\ reachable G'
    /\ NX.nodes G' = NX.nodes G ++ keys L
    /\ (forall n a, In (n, a) L ->
          (get "label" a = Some (VStr "") -> n = "") ->
          forall k, get k (StateGraph.node_data_of G' n) = get k a)
    /\ (forall m, ~ In m (keys L) ->
          StateGraph.node_data_of G' m = StateGraph.node_data_of G m)
    /\ (forall x, NX.succ_of G' x = NX.succ_of G x).
Proof.
  revert G. induction L as [|[n a] L IH]; intros G R ND Hnew Hty.
  - exists G. simpl. rewrite app_nil_r. repeat split; auto.
    intros n a [].
  - inversion ND as [|? ? NI ND']; subst.
    pose proof (reachable_wf G R) as W.
    assert (Nn : ~ In n (NX.nodes G)) by (apply Hnew; now left).
    assert (Hn : NX.has_node G n = false) by now apply has_node_false.
    destruct (import_node_typed n a G (Hty n a (or_introl eq_refl)) Hn)
      as (t & l & p & tl & d & Tin & E & Hget).
    set (b := StateGraph.node_attrs n t (Some l) p tl (Some d)) in *.
    assert (NDb : NoDup (keys b)) by apply node_attrs_NoDup.
    assert (E1 : state_after
                   (StateGraph.add_node n t (Some l) p tl (Some d)) G
                 = NX.add_node n b G).
    { unfold state_after. rewrite add_node_eq, Hn.
      now rewrite (proj2 (mem_In t StateGraph.node_types) Tin). }
    assert (R1 : reachable (NX.add_node n b G)).
    { rewrite <- E1.
      apply (reachable_call (AddNode n t (Some l) p tl (Some d)) G R). }
    rewrite E1 in E.
    assert (Nodes1 : NX.nodes (NX.add_node n b G) = NX.nodes G ++ [n]).
    { rewrite add_node_new by assumption.
      unfold NX.nodes, keys. simpl. now rewrite map_app. }
    destruct (IH (NX.add_node n b G) R1 ND')
      as (G' & E' & R' & Nodes' & Data' & Frame' & Succ').
    { intros m I. rewrite Nodes1, in_app_iff. simpl.
      intros [J|[<-|[]]]; [|contradiction].
      apply (Hnew m); [now right | assumption]. }
    { intros m c I. apply (Hty m c). now right. }
    exists G'. split; [|split; [exact R'|split; [|split; [|split]]]].
    + simpl. rewrite E. exact E'.
    + rewrite Nodes', Nodes1, <- app_assoc. reflexivity.
    + intros m c [[= <- <-]|I] Hl k.
      * rewrite (Frame' n NI), node_data_add_node_new by assumption.
        rewrite String.eqb_refl. now apply Hget.
      * now apply (Data' m c).
    + intros m NIm. simpl in NIm.
      rewrite Frame' by tauto.
      rewrite node_data_add_node_new by assumption.
      destruct (String.eqb_spec m n) as [->|N]; [tauto | reflexivity].
    + intros x. rewrite Succ'. now apply succ_of_add_node_new.
Qed.

(** The edge loop on the records of the edges that leave one node [u],
    whose successors so far are [I1] *)
Lemma import_out_edges_typed u (I2 I1 : dict attrs) H :
  reachable H -> In u (NX.nodes H) -> (I2 <> [] -> u <> "") ->
  NX.succ_of H u = I1 -> NoDup (keys (I1 ++ I2)) ->
  (forall v dd, In (v, dd) I2 ->
     v <> "" /\ In v (NX.nodes H) /\ edge_shaped dd) ->
  exists H',
    Files.each Files.import_edge
      (map StateGraph.edge_record
           (map (fun kv => (u, fst kv, snd kv)) I2)) H = (None, H')
    /\ reachable H'
    /\ _node H' = _node H
    /\ NX.succ_of H' u = I1 ++ I2
    /\ (forall x, x <> u -> NX.succ_of H' x = NX.succ_of H x).
Proof.
  revert I1 H. induction I2 as [|[v dd] I2 IH]; intros I1 H R Iu Nu Es ND Hv.
  - exists H. simpl. rewrite app_nil_r. auto.
  - pose proof (reachable_wf H R) as W.
    destruct (Hv v dd (or_introl eq_refl)) as (Nv & Iv & o & c & d & ->).
    assert (Nu' : u <> "") by (apply Nu; discriminate).
    assert (NIv : ~ In v (keys I1)).
    { unfold keys in ND. rewrite map_app in ND. simpl in ND.
      apply NoDup_remove_2 in ND. rewrite in_app_iff in ND. tauto. }
    assert (Euv : NX.has_edge H u v = false).
    { destruct (NX.has_edge H u v) eqn:X; [|reflexivity].
      apply has_edge_In in X. rewrite Es in X. contradiction. }
    set (dd := StateGraph.edge_attrs o c (Some d)) in *.
    assert (E1 : state_after (StateGraph.add_edge u v o c (Some d)) H
                 = put_edge u v dd H) by now apply add_edge_new.
    assert (R1 : reachable (put_edge u v dd H)).
    { rewrite <- E1. apply (reachable_call (AddEdge u v o c (Some d)) H R). }
    destruct (IH (I1 ++ [(v, dd)]) (put_edge u v dd H) R1)
      as (H' & E' & R' & Node' & Su' & Sx').
    + exact Iu.
    + intros _. exact Nu'.
    + rewrite succ_of_put_edge, String.eqb_refl, Es.
      now apply set_new.
    + now rewrite <- app_assoc.
    + intros w dw I. destruct (Hv w dw (or_intror I)) as (Nw & Iw & Sw).
      auto.
    + exists H'. split; [|split; [exact R'|split; [exact Node'|split]]].
      * cbn [map Files.each fst snd]. unfold dd.
        rewrite import_edge_typed by (assumption || now apply has_node_In).
        rewrite E1. exact E'.
      * rewrite Su', <- app_assoc. reflexivity.
      * intros x N. rewrite Sx' by assumption.
        rewrite succ_of_put_edge.
        destruct (String.eqb_spec u x); [congruence | reflexivity].
Qed.

(** The edge loop on the records of all the edges of an adjacency, on a
    graph whose nodes have no successors yet *)
Lemma import_edges_typed (S : dict (dict attrs)) H :
  reachable H -> NoDup (keys S) ->
  (forall u inner, In (u, inner) S ->
     In u (NX.nodes H) /\ NX.succ_of H u = [] /\ (inner <> [] -> u <> "")
     /\ NoDup (keys inner)
     /\ forall v dd, In (v, dd) inner ->
          v <> "" /\ In v (NX.nodes H) /\ edge_shaped dd) ->
  exists H',
    Files.each Files.import_edge
      (map StateGraph.edge_record (edges_of_adjacency S)) H = (None, H')
    /\ reachable H'
    /\ _node H' = _node H
    /\ (forall u inner, In (u, inner) S -> NX.succ_of H' u = inner)
    /\ (forall x, ~ In x (keys S) -> NX.succ_of H' x = NX.succ_of H x).
Proof.
  revert H. induction S as [|[u inner] S IH]; intros H R ND HS.
  - exists H. simpl. repeat split; auto. intros u inner [].
  - inversion ND as [|? ? NI ND']; subst.
    destruct (HS u inner (or_introl eq_refl)) as (Iu & Eu & Nu & NDi & Hin).
    destruct (import_out_edges_typed u inner [] H R Iu Nu Eu NDi Hin)
      as (H1 & E1 & R1 & Node1 & Su1 & Sx1).
    assert (Nodes1 : NX.nodes H1 = NX.nodes H)
      by (unfold NX.nodes; now rewrite Node1).
    destruct (IH H1 R1 ND') as (H' & E' & R' & Node' & Su' & Sx').
    { intros w iw I.
      destruct (HS w iw (or_intror I)) as (Iw & Ew & Nw & NDw & Hw).
      assert (Nwu : w <> u).
      { intros ->. apply NI. now apply (in_map fst) in I. }
      rewrite Nodes1, Sx1 by assumption.
      split; [exact Iw|]. split; [exact Ew|]. split; [exact Nw|].
      split; [exact NDw | exact Hw]. }
    exists H'. split; [|split; [exact R'|split; [|split]]].
    + unfold edges_of_adjacency. simpl. rewrite map_app, each_app.
      cbn [fst snd]. rewrite E1. exact E'.
    + now rewrite Node', Node1.
    + intros w iw [[= <- <-]|I].
      * rewrite Sx' by assumption. exact Su1.
      * now apply Su'.
    + intros x NIx. simpl in NIx.
      rewrite Sx' by tauto. apply Sx1. intros ->. tauto.
Qed.

Lemma succ_of_absent G u :
  ~ In u (keys (_succ G)) -> NX.succ_of G u = [].
Proof.
  intros NI. unfold NX.succ_of. now rewrite (proj2 (get_None _ _) NI).
Qed.

Lemma in_edges_keys G v :
  NX.in_edges G v
  = map (fun u => (u, v, NX.edge_data G u v)) (keys (NX.pred_of G v)).
Proof. unfold NX.in_edges, keys. now rewrite map_map. Qed.

(** Two well-formed graphs with the same successors have the same
    predecessors, in some order. *)
Lemma pred_of_same_succ G G' v :
  wf G -> wf G' -> (forall u, NX.succ_of G' u = NX.succ_of G u) ->
  Permutation (keys (NX.pred_of G' v)) (keys (NX.pred_of G v)).
Proof.
  intros W W' Hs. apply NoDup_Permutation; [apply W' | apply W |].
  intros u. rewrite <- (wf_mirror G' W'), <- (wf_mirror G W), Hs.
  reflexivity.
Qed.

(** X19.  On a graph a store can hold in which no node other than the
    node with the empty id has an empty label and no edge touches the
    node with the empty id, the importer's two loops run on the
    dictionary the exporters build accept every item, and the graph
    they build from the empty graph is one a store can hold, with the
    same nodes in the same order, the same value under every attribute
    of every node, the same edges out of every node in the same order
    with the same data, and the same edges into every node, in some
    order; exported again, it gives the same list of edges.  The web
    application, which reads the graph id from the file, gets this
    graph under the id it was exported with. *)
Theorem export_then_import G graph_id :
  reachable G ->
  (forall n, NX.has_node G n = true ->
     get "label" (StateGraph.node_data_of G n) = Some (VStr "") -> n = "") ->
  (forall u v, NX.has_edge G u v = true -> u <> "" /\ v <> "") ->
  exists G',
    Files.populate (Files.export_data G graph_id) NX.empty = (None, G')
    /\ reachable G'
    /\ NX.nodes G' = NX.nodes G
    /\ (forall n k, get k (StateGraph.node_data_of G' n)
                    = get k (StateGraph.node_data_of G n))
    /\ (forall u, NX.out_edges G' u = NX.out_edges G u)
    /\ (forall u v, NX.has_edge G' u v = NX.has_edge G u v
                    /\ NX.edge_data G' u v = NX.edge_data G u v)
    /\ (forall v, Permutation (NX.in_edges G' v) (NX.in_edges G v))
    /\ NX.number_of_edges G' = NX.number_of_edges G
    /\ Files.data_edges (Files.export_data G' graph_id)
       = Files.data_edges (Files.export_data G graph_id)
    /\ (forall default_graph_id,
          Files._create_graph_from_data (Files.export_data G graph_id)
            default_graph_id
          = (None, (graph_id, G'))).
Proof.
  intros R Hlabel Hends. pose proof (reachable_wf G R) as W.
  (* the node loop *)
  destruct (import_nodes_typed (_node G) NX.empty reachable_empty
              (wf_node_nodup G W))
    as (G1 & E1 & R1 & Nodes1 & Data1 & Frame1 & Succ1).
  { intros n _ []. }
  { intros n a I. apply (reachable_node_typed G n a R).
    now apply In_get; [apply W|]. }
  simpl in Nodes1. fold (NX.nodes G) in Nodes1.
  (* the edge loop *)
  destruct (import_edges_typed (_succ G) G1 R1 (wf_succ_nodup G W))
    as (G' & E' & R' & Node' & Su' & Sx').
  { intros u inner I.
    pose proof (succ_of_In G u inner W I) as Es.
    assert (Iu : In u (NX.nodes G)).
    { apply (wf_succ_keys G W). now apply (in_map fst) in I. }
    assert (Hin : forall v dd, In (v, dd) inner ->
                    NX.has_edge G u v = true
                    /\ get v (NX.succ_of G u) = Some dd).
    { intros v dd Iv. rewrite Es.
      pose proof (wf_succ_inner G W u) as NDi. rewrite Es in NDi.
      split; [|now apply In_get].
      apply has_edge_In. rewrite Es. now apply (in_map fst) in Iv. }
    split; [now rewrite Nodes1|]. split; [now rewrite Succ1|].
    split; [|split].
    - destruct inner as [|[v dd] rest]; [tauto|]. intros _.
      destruct (Hin v dd (or_introl eq_refl)) as [Euv _].
      now apply (Hends u v).
    - rewrite <- Es. apply W.
    - intros v dd Iv. destruct (Hin v dd Iv) as [Euv Eg].
      split; [now apply (Hends u v)|]. split.
      + rewrite Nodes1. now apply (wf_edge_endpoints G u v W).
      + now apply (reachable_edge_shaped G u v dd R). }
  pose proof (reachable_wf G' R') as W'.
  assert (Hs : forall u, NX.succ_of G' u = NX.succ_of G u).
  { intros u. destruct (in_dec string_dec u (keys (_succ G))) as [I|NI].
    - destruct (keys_get _ _ I) as [inner Ei]. apply get_In in Ei.
      rewrite (Su' u inner Ei). symmetry. now apply succ_of_In.
    - rewrite Sx', Succ1 by assumption.
      now rewrite (succ_of_absent G u NI). }
  assert (Hn : NX.nodes G' = NX.nodes G)
    by (unfold NX.nodes at 1; now rewrite Node').
  assert (Hd : forall u v, NX.edge_data G' u v = NX.edge_data G u v)
    by (intros u v; unfold NX.edge_data; now rewrite Hs).
  assert (Ep : Files.populate (Files.export_data G graph_id) NX.empty
               = (None, G')).
  { unfold Files.populate. rewrite export_data_nodes by assumption.
    rewrite E1. exact E'. }
  exists G'. split; [exact Ep|split; [exact R'|split; [exact Hn|]]].
  - split; [|split; [|split; [|split; [|split; [|split]]]]].
    7: { intros d. unfold Files._create_graph_from_data.
         rewrite Ep. reflexivity. }
    6: { unfold Files.export_data. cbn [Files.data_edges]. f_equal.
         rewrite (edges_by_node G W (reachable_aligned G R)).
         rewrite (edges_by_node G' W' (reachable_aligned G' R')).
         rewrite Hn. apply flat_map_ext. intros u.
         unfold NX.out_edges. now rewrite Hs. }
    + intros n k.
      assert (En : StateGraph.node_data_of G' n = StateGraph.node_data_of G1 n)
        by (unfold StateGraph.node_data_of; now rewrite Node').
      rewrite En.
      destruct (in_dec string_dec n (NX.nodes G)) as [I|NI].
      * destruct (keys_get _ _ I) as [a Ea].
        assert (Da : StateGraph.node_data_of G n = a)
          by (unfold StateGraph.node_data_of; now rewrite Ea).
        rewrite Da. apply (Data1 n a); [now apply get_In|].
        intros El. apply Hlabel; [now apply has_node_In|].
        now rewrite Da.
      * rewrite (Frame1 n NI). unfold StateGraph.node_data_of.
        now rewrite (proj2 (get_None _ _) NI).
    + intros u. unfold NX.out_edges. now rewrite Hs.
    + intros u v. split; [|apply Hd].
      destruct (NX.has_edge G u v) eqn:Euv.
      * apply has_edge_In. rewrite Hs. now apply has_edge_In.
      * destruct (NX.has_edge G' u v) eqn:Euv'; [|reflexivity].
        apply has_edge_In in Euv'. rewrite Hs in Euv'.
        apply has_edge_In in Euv'. congruence.
    + intros v. rewrite !in_edges_keys.
      rewrite (map_ext _ (fun u => (u, v, NX.edge_data G u v)))
        by (intros u; now rewrite Hd).
      apply Permutation_map. now apply pred_of_same_succ.
    + unfold NX.number_of_edges, NX.size. rewrite Hn. f_equal. f_equal.
      apply map_ext. intros n. unfold NX.degree. rewrite Hs.
      rewrite <- !keys_length.
      now rewrite (Permutation_length (pred_of_same_succ G G' n W W' Hs)).
Qed.

(** A loop with an item that is rejected whatever the graph does not
    complete. *)
Lemma each_rejects {A} (call : A -> Files.filling) items x G :
  In x items -> (forall G0, fst (call x G0) <> None) ->
  fst (Files.each call items G) <> None.
Proof.
  intros I Hx. revert G. induction items as [|y r IH]; intros G; [destruct I|].
  simpl. destruct (call y G) as [[e|] G1] eqn:E; [discriminate|].
  destruct I as [->|I]; [|now apply IH].
  exfalso. apply (Hx G). now rewrite E.
Qed.

Lemma import_edge_empty_id u v dd G :
  edge_ok dd -> u = "" \/ v = "" ->
  fst (Files.import_edge (StateGraph.edge_record (u, v, dd)) G) <> None.
Proof.
  intros (ND & K & _) Huv.
  assert (Absent : forall k, ~ In k edge_keys -> k <> "from" -> k <> "to" ->
                     Files.py_get k (StateGraph.edge_record (u, v, dd))
                     = VNone).
  { intros k Nk Nf Nt. unfold Files.py_get, StateGraph.edge_record.
    rewrite !get_set_neq by congruence.
    rewrite (proj2 (get_None _ _)); [reflexivity|].
    intros I. apply Nk, K, I. }
  assert (Ef : Files.py_get "from" (StateGraph.edge_record (u, v, dd))
               = VStr u).
  { unfold Files.py_get. now rewrite get_from_edge_record. }
  assert (Et : Files.py_get "to" (StateGraph.edge_record (u, v, dd))
               = VStr v).
  { unfold Files.py_get. now rewrite get_to_edge_record. }
  unfold Files.import_edge, Files.add_edge.
  rewrite Ef, Et, !Absent
    by (discriminate || (simpl; intuition discriminate)).
  unfold Files.py_or. cbn [Files.truthy_value]. unfold truthy.
  destruct (String.eqb_spec u "") as [->|Nu]; cbn [negb Files.known];
    [discriminate|].
  destruct (NX.has_node G u); [|discriminate].
  destruct Huv as [-> | ->]; [contradiction|].
  cbn [String.eqb negb Files.known]. discriminate.
Qed.

(** X20.  The node with the empty id, which [add_node] accepts, cannot
    carry an edge through a file: when a graph a store can hold has an
    edge that starts or ends at that node, the importer's loops run on
    the dictionary the exporters build do not complete, an item is
    rejected. *)
Theorem empty_id_edge_is_not_imported G graph_id u v :
  reachable G -> NX.has_edge G u v = true -> u = "" \/ v = "" ->
  exists r,
    fst (Files.populate (Files.export_data G graph_id) NX.empty) = Some r.
Proof.
  intros R E Huv. pose proof (reachable_wf G R) as W.
  assert (N : fst (Files.populate (Files.export_data G graph_id) NX.empty)
              <> None).
  { unfold Files.populate.
    destruct (Files.each (fun kv => Files.import_node (fst kv) (snd kv))
                (Files.data_nodes (Files.export_data G graph_id)) NX.empty)
      as [[r|] G1]; [discriminate|].
    apply (each_rejects Files.import_edge _
             (StateGraph.edge_record (u, v, NX.edge_data G u v))).
    - unfold Files.export_data. cbn [Files.data_edges].
      apply in_map. apply In_edges; [assumption|].
      now apply has_edge_edge_data.
    - intros G0. apply import_edge_empty_id; [|assumption].
      apply (reachable_edge_ok G u v _ R). now apply has_edge_edge_data. }
  destruct (fst (Files.populate (Files.export_data G graph_id) NX.empty))
    as [r|]; [eauto | congruence].
Qed.

(** ** The import tool *)


(** ** File names *)

Lemma str_length_app (p s : string) :
  String.length (p ++ s) = String.length p + String.length s.
Proof. induction p as [|c p IH]; simpl; [reflexivity | now rewrite IH]. Qed.

Lemma substring_skip (p s : string) m :
  substring (String.length p) m (p ++ s) = substring 0 m s.
Proof. induction p as [|c p IH]; simpl; [reflexivity | exact IH]. Qed.

Lemma substring_all (s : string) : substring 0 (String.length s) s = s.
Proof. induction s as [|c s IH]; simpl; [reflexivity | now rewrite IH]. Qed.

Lemma ends_with_app (p suffix : string) :
  Files.ends_with (p ++ suffix) suffix = true.
Proof.
  unfold Files.ends_with. rewrite str_length_app.
  apply andb_true_intro. split; [apply Nat.leb_le; lia|].
  replace (String.length p + String.length suffix - String.length suffix)
    with (String.length p) by lia.
  rewrite substring_skip, substring_all. apply String.eqb_refl.
Qed.

(** The characters of a string that ends with a suffix *)
Lemma ends_with_get (s suffix : string) i :
  Files.ends_with s suffix = true -> i < String.length suffix ->
  String.length suffix <= String.length s
  /\ String.get (i + (String.length s - String.length suffix)) s
     = String.get i suffix.
Proof.
  unfold Files.ends_with. intros E Hi. apply andb_prop in E.
  destruct E as [L E]. apply Nat.leb_le in L. apply String.eqb_eq in E.
  split; [exact L|].
  rewrite <- (substring_correct1 s _ (String.length suffix) i Hi).
  now rewrite E.
Qed.

Lemma ends_with_nonempty (s suffix : string) :
  Files.ends_with s suffix = true -> suffix <> "" -> truthy s = true.
Proof.
  intros E N. unfold truthy. destruct s; [|reflexivity].
  exfalso. unfold Files.ends_with in E. apply andb_prop in E.
  destruct E as [L _]. apply Nat.leb_le in L.
  destruct suffix; [congruence | simpl in L; lia].
Qed.

(** A name with the extension of one format does not have an extension
    of the other. *)
Lemma json_is_not_yaml (s : string) :
  Files.ends_with s ".json" = true ->
  Files.ends_with s ".yaml" || Files.ends_with s ".yml" = false.
Proof.
  intros Ej. destruct (ends_with_get s ".json" 4 Ej) as [Lj Gj];
    [simpl; lia|].
  change (String.length ".json") with 5 in Lj, Gj.
  apply orb_false_intro.
  - destruct (Files.ends_with s ".yaml") eqn:Ey; [|reflexivity].
    destruct (ends_with_get s ".yaml" 4 Ey) as [_ Gy]; [simpl; lia|].
    change (String.length ".yaml") with 5 in Gy.
    rewrite Gj in Gy. simpl in Gy. discriminate.
  - destruct (Files.ends_with s ".yml") eqn:Ey; [|reflexivity].
    destruct (ends_with_get s ".yml" 3 Ey) as [_ Gy]; [simpl; lia|].
    change (String.length ".yml") with 4 in Gy.
    replace (3 + (String.length s - 4)) with (4 + (String.length s - 5))
      in Gy by lia.
    rewrite Gj in Gy. simpl in Gy. discriminate.
Qed.

Lemma format_of_path_yaml (s : string) :
  Files.ends_with s ".yaml" || Files.ends_with s ".yml" = true ->
  Files.format_of_path s = Some Files.Yaml.
Proof. intros E. unfold Files.format_of_path. now rewrite E. Qed.

Lemma format_of_path_json (s : string) :
  Files.ends_with s ".json" = true ->
  Files.format_of_path s = Some Files.Json.
Proof.
  intros E. unfold Files.format_of_path.
  now rewrite (json_is_not_yaml s E), E.
Qed.

(** X22.  The file name [export_graph] picks always has an extension of
    the format it writes, so [import_graph] reads the file back with
    the reader of the same format: a given name that has such an
    extension is kept as it is, any other name gets the extension
    appended, and picking a name from a picked name changes nothing.
    The only formats are yaml and json.  The name [visualize_graph]
    picks always ends in .png, and a name that does is kept.  The
    export tool asks for the graph first, so a missing graph is
    reported whatever the format; when it succeeds it hands the writer
    the dictionary built from the registered graph. *)
Theorem exported_file_names fmt graph_id filename :
  (forall writer fname,
     Files.export_file fmt graph_id filename = Some (writer, fname) ->
     Files.format_of_path fname = Some writer
     /\ Files.export_file fmt graph_id (Some fname) = Some (writer, fname)
     /\ (forall f, filename = Some f ->
           Files.format_of_path f = Some writer -> fname = f))
  /\ (Files.export_file fmt graph_id filename = None <->
      fmt <> "yaml" /\ fmt <> "json")
  /\ Files.ends_with (Files.png_file graph_id filename) ".png" = true
  /\ Files.png_file graph_id (Some (Files.png_file graph_id filename))
     = Files.png_file graph_id filename
  /\ (forall gs,
        get graph_id gs = None ->
        Registry.export_graph graph_id fmt filename gs
        = Registry.Failed (Registry.GraphMissing graph_id))
  /\ (forall gs writer fname data,
        Registry.export_graph graph_id fmt filename gs
        = Registry.Done (writer, fname, data) ->
        Files.format_of_path fname = Some writer
        /\ exists g, get graph_id gs = Some g
                     /\ data = Files.export_data g graph_id).
Proof.
  assert (Png : Files.ends_with (Files.png_file graph_id filename) ".png"
                = true).
  { unfold Files.png_file.
    destruct (Files.ends_with
                match filename with
                | Some f => f
                | None => graph_id ++ ".png"
                end ".png") eqn:E; simpl; [exact E | apply ends_with_app]. }
  assert (Main : forall writer fname,
             Files.export_file fmt graph_id filename = Some (writer, fname) ->
             Files.format_of_path fname = Some writer
             /\ Files.export_file fmt graph_id (Some fname)
                = Some (writer, fname)
             /\ (forall f, filename = Some f ->
                   Files.format_of_path f = Some writer -> fname = f)).
  2: { split; [exact Main|]. split; [|split; [exact Png|split; [|split]]].
       - unfold Files.export_file.
         destruct (String.eqb_spec fmt "yaml") as [->|Ny];
           [split; [discriminate | tauto]|].
         destruct (String.eqb_spec fmt "json") as [->|Nj];
           [split; [discriminate | tauto] | tauto].
       - unfold Files.png_file at 1. now rewrite Png.
       - intros gs E. unfold Registry.export_graph, Registry._get_graph.
         now rewrite E.
       - intros gs writer fname data.
         unfold Registry.export_graph, Registry._get_graph.
         destruct (get graph_id gs) as [g|]; [|discriminate].
         pose proof Main as Main'.
         destruct (Files.export_file fmt graph_id filename)
           as [[w f]|]; [|discriminate].
         intros [= <- <- <-]. split; [apply (Main' w f eq_refl)|].
         exists g. auto. }
  { intros writer fname. unfold Files.export_file.
    destruct (String.eqb_spec fmt "yaml") as [->|Ny].
    + set (f0 := or_str filename (graph_id ++ ".yaml")).
      intros [= <- <-].
      assert (E : Files.ends_with
                    (if negb (Files.ends_with f0 ".yaml"
                              || Files.ends_with f0 ".yml")
                     then f0 ++ ".yaml" else f0) ".yaml"
                  || Files.ends_with
                       (if negb (Files.ends_with f0 ".yaml"
                                 || Files.ends_with f0 ".yml")
                        then f0 ++ ".yaml" else f0) ".yml" = true).
      { destruct (Files.ends_with f0 ".yaml" || Files.ends_with f0 ".yml")
          eqn:E0; simpl; [exact E0|].
        now rewrite ends_with_app. }
      split; [now apply format_of_path_yaml|]. split.
      * assert (T : truthy (if negb (Files.ends_with f0 ".yaml"
                                     || Files.ends_with f0 ".yml")
                            then f0 ++ ".yaml" else f0) = true).
        { apply orb_prop in E.
          destruct E as [E|E];
            apply (ends_with_nonempty _ _ E); discriminate. }
        set (X := if negb (Files.ends_with f0 ".yaml"
                           || Files.ends_with f0 ".yml")
                  then (f0 ++ ".yaml")%string else f0) in *.
        clearbody X. cbn [String.eqb Ascii.eqb Bool.eqb].
        unfold or_str. rewrite T, E. reflexivity.
      * intros f -> Ef. unfold Files.format_of_path in Ef.
        destruct (Files.ends_with f ".yaml" || Files.ends_with f ".yml")
          eqn:E0.
        -- assert (T : truthy f = true).
           { apply orb_prop in E0.
             destruct E0 as [E0|E0];
               apply (ends_with_nonempty _ _ E0); discriminate. }
           unfold f0, or_str. rewrite T, E0. reflexivity.
        -- destruct (Files.ends_with f ".json"); discriminate.
    + destruct (String.eqb_spec fmt "json") as [->|Nj]; [|discriminate].
      set (f0 := or_str filename (graph_id ++ ".json")).
      intros [= <- <-].
      assert (E : Files.ends_with
                    (if negb (Files.ends_with f0 ".json")
                     then f0 ++ ".json" else f0) ".json" = true).
      { destruct (Files.ends_with f0 ".json") eqn:E0; simpl;
          [exact E0 | apply ends_with_app]. }
      split; [now apply format_of_path_json|]. split.
      * pose proof (ends_with_nonempty _ ".json" E) as T.
        set (X := if negb (Files.ends_with f0 ".json")
                  then (f0 ++ ".json")%string else f0) in *.
        clearbody X. cbn [String.eqb Ascii.eqb Bool.eqb].
        unfold or_str. rewrite T, E by discriminate. reflexivity.
      * intros f -> Ef. unfold Files.format_of_path in Ef.
        destruct (Files.ends_with f ".yaml" || Files.ends_with f ".yml");
          [discriminate|].
        destruct (Files.ends_with f ".json") eqn:E0; [|discriminate].
        pose proof (ends_with_nonempty _ ".json" E0) as T.
        unfold f0, or_str. rewrite T, E0 by discriminate. reflexivity. }
Qed.

(** ** The execution sequence is a walk *)

Lemma first_min_In {A} (key : A -> Z) l x : first_min key l x -> In x l.
Proof.
  intros (l1 & l2 & -> & _). apply in_app_iff. right. now left.
Qed.

Lemma sequence_from_walk G until_decision c emitted s :
  sequence_from empty_or_revisit G until_decision c emitted s ->
  exists cs,
    records_of G cs s
    /\ match cs with [] => True | c0 :: _ => c0 = c end
    /\ chained G cs
    /\ (until_decision = true ->
        forall r, In r (removelast s) -> is_decision r = false).
Proof.
  induction 1 as [c em S|c em r NS Rr U D|c em r NS Rr D O
                 |c em r e rest NS Rr D M Hrest IH].
  - exists []. repeat split; [constructor | intros _ r []].
  - exists [c]. repeat split; [repeat constructor; exact Rr | intros _ r' []].
  - exists [c]. repeat split; [repeat constructor; exact Rr | intros _ r' []].
  - destruct IH as (cs & Rec & Hd & Ch & Dec).
    exists (c :: cs). split; [now constructor|]. split; [reflexivity|].
    split.
    + destruct cs as [|c' cs']; [exact I|]. split; [|exact Ch]. subst c'.
      apply first_min_In in M. destruct e as [[u v] a].
      apply In_out_edges in M. destruct M as (v' & a' & [= -> -> ->] & I).
      simpl. apply has_edge_In. now apply (in_map fst) in I.
    + intros U r' I. destruct rest as [|r1 rest']; [destruct I|].
      destruct I as [<-|I].
      * rewrite U in D. exact D.
      * now apply Dec.
Qed.

(** X24.  On a graph a store can hold and from a present start node whose
    id is not empty, [get_execution_sequence] returns the records of a
    walk in the graph: the first record is the start node's, every
    record is the record of a node of the graph, and each node of the
    sequence is joined to the next one by an edge.  When the sequence is
    cut at decisions, no record before the last one is a decision. *)
Theorem execution_sequence_is_a_walk G from_node until_decision :
  reachable G -> NX.has_node G from_node = true -> from_node <> "" ->
  exists s cs,
    outcome (StateGraph.get_execution_sequence from_node until_decision) G
    = Ok (Some s)
    /\ records_of G (from_node :: cs) s
    /\ chained G (from_node :: cs)
    /\ (until_decision = true ->
        forall r, In r (removelast s) -> is_decision r = false).
Proof.
  intros R Hn Ne.
  destruct (execution_sequence_refines G from_node until_decision R Hn)
    as (s & Es & Hs).
  destruct (sequence_from_walk G until_decision from_node [] s Hs)
    as (cs & Rec & Hd & Ch & Dec).
  destruct cs as [|c0 cs].
  - exfalso. inversion Rec; subst.
    inversion Hs as [c em S| | |]; subst.
    destruct S as [S|[]]. contradiction.
  - subst c0. exists s, cs. auto.
Qed.

(** ** The colours of a drawing *)

Lemma node_colors_typed G (ns : list string) :
  (forall n, In n ns ->
     exists t, get "node_type" (StateGraph.node_data_of G n) = Some (VStr t)
               /\ In t StateGraph.node_types) ->
  exists cs,
    Visualization.node_colors G ns = Some cs
    /\ Forall2 (fun n c =>
                  get (StateGraph.stored_type (StateGraph.node_data_of G n))
                      Visualization.type_colors = Some c)
               ns cs.
Proof.
  induction ns as [|n ns IH]; intros H.
  - exists []. split; [reflexivity | constructor].
  - destruct (H n (or_introl eq_refl)) as (t & Et & Tin).
    destruct IH as (cs & Ecs & F); [intros m I; apply H; now right|].
    assert (Ec : exists c, get t Visualization.type_colors = Some c).
    { simpl in Tin.
      destruct Tin as [<-|[<-|[<-|[<-|[<-|[<-|[]]]]]]]; eexists; reflexivity. }
    destruct Ec as [c Ec]. exists (c :: cs). split.
    + cbn [Visualization.node_colors]. unfold Visualization.node_color,
        Files.py_get_default. rewrite Et, Ec, Ecs. reflexivity.
    + constructor; [|exact F]. unfold StateGraph.stored_type.
      now rewrite Et.
Qed.

(** The palette gives each type a colour of its own, none of them the
    fallback colour. *)
Lemma type_colors_injective t t' c :
  get t Visualization.type_colors = Some c ->
  get t' Visualization.type_colors = Some c ->
  t = t'.
Proof.
  intros E E'. apply get_In in E, E'. simpl in E, E'.
  destruct E as [E|[E|[E|[E|[E|[E|[]]]]]]]; injection E as <- <-;
    destruct E' as [E'|[E'|[E'|[E'|[E'|[E'|[]]]]]]];
    first [discriminate E' | now injection E' as <-].
Qed.

Lemma type_colors_not_fallback t :
  get t Visualization.type_colors <> Some Visualization.fallback_color.
Proof.
  intros E. apply get_In in E. simpl in E.
  destruct E as [E|[E|[E|[E|[E|[E|[]]]]]]]; discriminate E.
Qed.

Lemma colours_not_fallback G (ns cs : list string) :
  Forall2 (fun n c =>
             get (StateGraph.stored_type (StateGraph.node_data_of G n))
                 Visualization.type_colors = Some c) ns cs ->
  ~ In Visualization.fallback_color cs.
Proof.
  induction 1 as [|n c ns cs' Hc F IH]; intros I; [destruct I|].
  destruct I as [->|I]; [now apply type_colors_not_fallback in Hc|].
  now apply IH.
Qed.

Lemma colours_nth G (ns cs : list string) :
  Forall2 (fun n c =>
             get (StateGraph.stored_type (StateGraph.node_data_of G n))
                 Visualization.type_colors = Some c) ns cs ->
  forall k x y,
    nth_error ns k = Some x -> nth_error cs k = Some y ->
    get (StateGraph.stored_type (StateGraph.node_data_of G x))
        Visualization.type_colors = Some y.
Proof.
  induction 1 as [|x0 y0 ns cs' H0 F IH]; intros [|k] x y; simpl;
    try discriminate.
  - now intros [= <-] [= <-].
  - apply IH.
Qed.

(** X25.  [visualize_graph] refuses the empty graph.  On a graph a store
    can hold that has a node it never fails on the colour lookup: it
    hands networkx one colour for each node, in the order of the nodes,
    the colour its palette has for the stored type of the node; the
    fallback colour is never used, and two nodes get the same colour
    exactly when they have the same type.  The file it writes has a
    name that ends in .png. *)
Theorem visualize_graph_colours G graph_id filename :
  reachable G ->
  (NX.nodes G = [] ->
   Visualization.visualize_graph G graph_id filename
   = Visualization.EmptyGraph)
  /\ (NX.nodes G <> [] ->
      exists cs,
        Visualization.visualize_graph G graph_id filename
        = Visualization.Drawn cs (Files.png_file graph_id filename)
        /\ Files.ends_with (Files.png_file graph_id filename) ".png" = true
        /\ Forall2 (fun n c =>
                      get (StateGraph.stored_type
                             (StateGraph.node_data_of G n))
                          Visualization.type_colors = Some c)
                   (NX.nodes G) cs
        /\ ~ In Visualization.fallback_color cs
        /\ forall i n m c c',
             nth_error (NX.nodes G) i = Some n -> nth_error cs i = Some c ->
             forall j,
               nth_error (NX.nodes G) j = Some m ->
               nth_error cs j = Some c' ->
               (c = c' <->
                StateGraph.stored_type (StateGraph.node_data_of G n)
                = StateGraph.stored_type (StateGraph.node_data_of G m))).
Proof.
  intros R.
  assert (L : NX.number_of_nodes G = length (NX.nodes G)).
  { unfold NX.number_of_nodes, NX.nodes, keys. now rewrite length_map. }
  split.
  - intros E. unfold Visualization.visualize_graph. now rewrite L, E.
  - intros N.
    destruct (node_colors_typed G (NX.nodes G)) as (cs & Ecs & F).
    { intros n I. apply keys_get in I. destruct I as [a Ea].
      destruct (reachable_nodes_ok G R n a Ea) as (_ & (t & Et & Tin) & _).
      exists t. unfold StateGraph.node_data_of. rewrite Ea. auto. }
    exists cs. split; [|split; [|split; [exact F|split]]].
    + unfold Visualization.visualize_graph. rewrite L, Ecs.
      destruct (NX.nodes G); [congruence | reflexivity].
    + unfold Files.png_file.
      destruct (Files.ends_with
                  match filename with
                  | Some f => f
                  | None => (graph_id ++ ".png")%string
                  end ".png") eqn:E; simpl; [exact E | apply ends_with_app].
    + now apply (colours_not_fallback G (NX.nodes G)).
    + intros i n m c c' Hn Hc j Hm Hc'.
      pose proof (colours_nth G _ _ F i n c Hn Hc) as E1.
      pose proof (colours_nth G _ _ F j m c' Hm Hc') as E2.
      split.
      * intros <-. eapply type_colors_injective; eassumption.
      * intros Et. rewrite Et in E1. congruence.
Qed.

(** ** The type of a node *)

Lemma type_set_node_attr G m k v n :
  k <> "node_type" ->
  get "node_type" (StateGraph.node_data_of (NX.set_node_attr m k v G) n)
  = get "node_type" (StateGraph.node_data_of G n).
Proof.
  intros N. rewrite node_data_set_node_attr.
  destruct (String.eqb_spec m n) as [->|_]; [|reflexivity].
  now apply get_set_neq.
Qed.

Lemma type_updated G m l p tl pr n :
  get "node_type" (StateGraph.node_data_of (updated m l p tl pr G) n)
  = get "node_type" (StateGraph.node_data_of G n).
Proof.
  unfold updated, store_if.
  destruct l, p, tl, pr; rewrite ?type_set_node_attr by discriminate;
    reflexivity.
Qed.

(** A call other than the removal of a node keeps the node and its
    type. *)
Lemma call_keeps_type o G n :
  wf G -> NX.has_node G n = true -> o <> RemoveNode n ->
  NX.has_node (state_after (call o) G) n = true
  /\ get "node_type" (StateGraph.node_data_of (state_after (call o) G) n)
     = get "node_type" (StateGraph.node_data_of G n).
Proof.
  intros W Hn No. unfold state_after.
  destruct o as [m t l p tl pr|m l p tl pr|m|u v o c pr|u v|u v o|u v c];
    simpl call.
  - rewrite add_node_eq.
    destruct (NX.has_node G m) eqn:E; [auto|].
    destruct (mem t StateGraph.node_types); [|auto]. cbn [snd].
    assert (Nm : n <> m) by (intros ->; congruence).
    rewrite add_node_new
      by (assumption || (now apply has_node_false) || apply node_attrs_NoDup).
    unfold NX.has_node, contains, StateGraph.node_data_of in *. simpl.
    rewrite get_app_other by (simpl; intuition congruence). auto.
  - rewrite update_node_eq.
    destruct (NX.has_node G m) eqn:E; [|auto]. cbn [snd].
    split; [|apply type_updated].
    apply has_node_In. apply has_node_In in E, Hn.
    destruct (frame_updated G m l p tl pr E) as (En & _). now rewrite En.
  - rewrite remove_node_eq.
    destruct (NX.has_node G m) eqn:E; [|auto]. cbn [snd].
    assert (Nm : m <> n) by (intros ->; congruence).
    unfold NX.has_node, contains, StateGraph.node_data_of, NX.remove_node
      in *. simpl.
    rewrite get_del_neq by assumption. auto.
  - rewrite add_edge_eq.
    destruct (NX.has_node G u) eqn:Eu; [|auto].
    destruct (NX.has_node G v) eqn:Ev; [|auto]. cbn [snd].
    apply has_node_In in Eu, Ev.
    rewrite add_edge_put_edge by assumption. auto.
  - rewrite remove_edge_eq. destruct (NX.has_edge G u v); auto.
  - rewrite set_edge_order_eq. destruct (NX.has_edge G u v); auto.
  - rewrite set_edge_condition_eq.
    destruct (NX.has_edge G u v); [|auto]. cbn [snd].
    unfold condition_set. destruct c; [auto|].
    destruct (contains "condition" (NX.edge_data G u v)); auto.
Qed.

(** X26.  The type of a node is fixed when the node is added: on a graph
    a store can hold, after any sequence of calls that does not remove
    the node, failed calls included, the node is still there and its
    type is what it was. *)
Theorem node_type_is_fixed G ops n :
  reachable G -> NX.has_node G n = true ->
  (forall o, In o ops -> o <> RemoveNode n) ->
  NX.has_node (run ops G) n = true
  /\ get "node_type" (StateGraph.node_data_of (run ops G) n)
     = get "node_type" (StateGraph.node_data_of G n).
Proof.
  intros R. pose proof (reachable_wf G R) as W. clear R.
  revert G W. induction ops as [|o ops IH]; intros G W Hn Hops; [auto|].
  destruct (call_keeps_type o G n W Hn (Hops o (or_introl eq_refl)))
    as [Hn1 Et1].
  destruct (IH (state_after (call o) G) (wf_call o G W) Hn1) as [Hn2 Et2].
  { intros o' I. apply Hops. now right. }
  simpl. split; [exact Hn2|]. now rewrite Et2.
Qed.

(** ** The further properties at work on the example graphs *)

(** X1: a node D with a phase added to the workflow graph *)
Lemma add_node_then_get_node_witness :
  reachable (run ops_workflow NX.empty)
  /\ NX.has_node (run ops_workflow NX.empty) "D" = false
  /\ In "success" StateGraph.node_types
  /\ NX.nodes (state_after
                 (StateGraph.add_node "D" "success" None (Some 2%Z) None None)
                 (run ops_workflow NX.empty))
     = NX.nodes (run ops_workflow NX.empty) ++ ["D"].
Proof.
  split; [exists ops_workflow; reflexivity|]. split; [reflexivity|].
  split; [simpl; tauto|].
  pose proof (add_node_then_get_node (run ops_workflow NX.empty) "D"
                "success" None (Some 2%Z) None None) as P.
  cbv zeta in P. destruct P as (_ & _ & H & _).
  - exists ops_workflow; reflexivity.
  - reflexivity.
  - simpl; tauto.
  - exact H.
Defined.



(** X4: the edge C -> A added to the workflow graph *)
Lemma add_edge_adds_one_edge_witness :
  reachable (run ops_workflow NX.empty)
  /\ NX.has_node (run ops_workflow NX.empty) "C" = true
  /\ NX.has_node (run ops_workflow NX.empty) "A" = true
  /\ NX.has_edge (run ops_workflow NX.empty) "C" "A" = false
  /\ NX.number_of_edges
       (state_after (StateGraph.add_edge "C" "A" 3 None None)
                    (run ops_workflow NX.empty))
     = S (NX.number_of_edges (run ops_workflow NX.empty)).
Proof.
  split; [exists ops_workflow; reflexivity|].
  split; [reflexivity|]. split; [reflexivity|]. split; [reflexivity|].
  pose proof (add_edge_adds_one_edge (run ops_workflow NX.empty) "C" "A"
                3%Z None None) as P.
  cbv zeta in P. destruct P as (_ & _ & _ & _ & _ & _ & _ & H & _).
  - exists ops_workflow; reflexivity.
  - reflexivity.
  - reflexivity.
  - reflexivity.
  - exact H.
Defined.

(** X5: the edge A -> B removed from the two-node cycle; B -> A stays *)
Lemma remove_edge_removes_one_edge_witness :
  reachable (run ops_cycle NX.empty)
  /\ NX.has_edge (run ops_cycle NX.empty) "A" "B" = true
  /\ NX.has_edge (state_after (StateGraph.remove_edge "A" "B")
                              (run ops_cycle NX.empty)) "A" "B" = false.
Proof.
  split; [exists ops_cycle; reflexivity|]. split; [reflexivity|].
  pose proof (remove_edge_removes_one_edge (run ops_cycle NX.empty) "A" "B")
    as P.
  cbv zeta in P. destruct P as (_ & H & _).
  - exists ops_cycle; reflexivity.
  - reflexivity.
  - exact H.
Defined.

(** X6: the edge C -> A added to the workflow graph and removed again *)
Lemma add_then_remove_edge_witness :
  reachable (run ops_workflow NX.empty)
  /\ NX.has_node (run ops_workflow NX.empty) "C" = true
  /\ NX.has_node (run ops_workflow NX.empty) "A" = true
  /\ NX.has_edge (run ops_workflow NX.empty) "C" "A" = false
  /\ state_after (StateGraph.remove_edge "C" "A")
       (state_after (StateGraph.add_edge "C" "A" 3 (Some "again") None)
                    (run ops_workflow NX.empty))
     = run ops_workflow NX.empty.
Proof.
  split; [exists ops_workflow; reflexivity|].
  split; [reflexivity|]. split; [reflexivity|]. split; [reflexivity|].
  destruct (add_then_remove_edge (run ops_workflow NX.empty) "C" "A" 3%Z
              (Some "again") None) as [_ H].
  - exists ops_workflow; reflexivity.
  - reflexivity.
  - reflexivity.
  - reflexivity.
  - exact H.
Defined.

(** X7: a new order for the edge A -> B of the workflow graph *)
Lemma set_edge_order_sets_order_witness :
  reachable (run ops_workflow NX.empty)
  /\ NX.has_edge (run ops_workflow NX.empty) "A" "B" = true
  /\ get "order"
       (NX.edge_data (state_after (StateGraph.set_edge_order "A" "B" 5)
                                  (run ops_workflow NX.empty)) "A" "B")
     = Some (VInt 5).
Proof.
  split; [exists ops_workflow; reflexivity|]. split; [reflexivity|].
  pose proof (set_edge_order_sets_order (run ops_workflow NX.empty) "A" "B"
                5%Z) as P.
  cbv zeta in P. destruct P as (_ & H & _).
  - exists ops_workflow; reflexivity.
  - reflexivity.
  - exact H.
Defined.

(** X8: the condition of the edge A -> B cleared *)
Lemma set_edge_condition_sets_or_clears_witness :
  reachable (run ops_conditional NX.empty)
  /\ NX.has_edge (run ops_conditional NX.empty) "A" "B" = true
  /\ get "condition"
       (NX.edge_data (state_after (StateGraph.set_edge_condition "A" "B" None)
                                  (run ops_conditional NX.empty)) "A" "B")
     = None.
Proof.
  split; [exists ops_conditional; reflexivity|]. split; [reflexivity|].
  pose proof (set_edge_condition_sets_or_clears
                (run ops_conditional NX.empty) "A" "B" None) as P.
  cbv zeta in P. destruct P as (_ & H & _).
  - exists ops_conditional; reflexivity.
  - reflexivity.
  - exact H.
Defined.

(** X9: on the graph with the self-loop A -> A of order 0 and the edge
    A -> B of order 1, the edge A -> B is given the order -1 *)
Lemma lowest_order_edge_is_followed_witness :
  reachable (run ops_self_loop NX.empty)
  /\ NX.has_edge (run ops_self_loop NX.empty) "A" "B" = true
  /\ "A" <> ""
  /\ (forall e, In e (NX.out_edges (run ops_self_loop NX.empty) "A") ->
                snd (fst e) <> "B" -> (-1 < edge_order e)%Z)
  /\ exists r rest,
       outcome (StateGraph.get_execution_sequence "A" false)
               (state_after (StateGraph.set_edge_order "A" "B" (-1))
                            (run ops_self_loop NX.empty))
       = Ok (Some (r :: rest)).
Proof.
  assert (L : forall e,
             In e (NX.out_edges (run ops_self_loop NX.empty) "A") ->
             snd (fst e) <> "B" -> (-1 < edge_order e)%Z).
  { intros e [<-|[<-|[]]] N.
    - vm_compute; reflexivity.
    - exfalso. now apply N. }
  split; [exists ops_self_loop; reflexivity|]. split; [reflexivity|].
  split; [discriminate|]. split; [exact L|].
  pose proof (lowest_order_edge_is_followed (run ops_self_loop NX.empty)
                "A" "B" (-1)%Z) as P.
  cbv zeta in P. destruct P as (r & rest & H & _).
  - exists ops_self_loop; reflexivity.
  - reflexivity.
  - discriminate.
  - exact L.
  - exists r, rest. exact H.
Defined.

(** X10: the two edge lists of node A of the graph with a self-loop *)
Lemma get_node_edges_lists_witness :
  reachable (run ops_self_loop NX.empty)
  /\ state_after (StateGraph.get_node_edges "A") (run ops_self_loop NX.empty)
     = run ops_self_loop NX.empty.
Proof.
  split; [exists ops_self_loop; reflexivity|].
  destruct (get_node_edges_lists (run ops_self_loop NX.empty) "A")
    as [H _].
  - exists ops_self_loop; reflexivity.
  - exact H.
Defined.

(** X11: the summary of the workflow graph counts one decision node *)
Lemma get_graph_info_counts_witness :
  reachable (run ops_workflow NX.empty)
  /\ exists i,
       outcome (StateGraph.get_graph_info "g") (run ops_workflow NX.empty)
       = Ok i
       /\ StateGraph.info_num_nodes i
          = length (NX.nodes (run ops_workflow NX.empty)).
Proof.
  split; [exists ops_workflow; reflexivity|].
  destruct (get_graph_info_counts (run ops_workflow NX.empty) "g")
    as (i & E & _ & _ & H & _).
  - exists ops_workflow; reflexivity.
  - exists i. split; [exact E | exact H].
Defined.


(** X13: the two-node cycle validated with an enumeration that raises *)
Lemma validate_graph_warnings_witness :
  reachable (run ops_cycle NX.empty)
  /\ exists ws,
       outcome (StateGraph.validate_graph (fun _ => None))
               (run ops_cycle NX.empty)
       = Ok (true, ws).
Proof.
  split; [exists ops_cycle; reflexivity|].
  destruct (validate_graph_warnings (fun _ => None) (run ops_cycle NX.empty))
    as (ws & E & _).
  - exists ops_cycle; reflexivity.
  - exists ws. exact E.
Defined.

(** X14: after the session with two stores, the store g2 holds the node
    that the failed bulk call added before it failed *)
Lemma registered_stores_are_sound_witness :
  get "g2" (Registry.session rs_two_stores [])
  = Some (run [AddNode "X" "action" None None None None] NX.empty)
  /\ wf (run [AddNode "X" "action" None None None None] NX.empty).
Proof.
  split; [reflexivity|].
  destruct (registered_stores_are_sound rs_two_stores "g2"
              (run [AddNode "X" "action" None None None None] NX.empty))
    as (_ & _ & W & _).
  - reflexivity.
  - exact W.
Defined.

(** X15: a graph created in the empty registry *)
Lemma create_and_delete_state_graph_witness :
  NoDup (keys (snd (Registry.create_state_graph "g" [])))
  /\ Registry._get_graph "g"
       (snd (Registry.delete_state_graph "g"
               (snd (Registry.create_state_graph "g" []))))
     = Registry.Failed (Registry.GraphMissing "g").
Proof.
  split; [vm_compute; repeat constructor; intros []|].
  pose proof (create_and_delete_state_graph
                (snd (Registry.create_state_graph "g" [])) "g") as P.
  cbv zeta in P. destruct P as (_ & _ & _ & H & _).
  - vm_compute. repeat constructor. intros [].
  - exact H.
Defined.


(** X17: a node D added to the workflow graph and removed again *)
Lemma add_then_remove_node_witness :
  reachable (run ops_workflow NX.empty)
  /\ NX.has_node (run ops_workflow NX.empty) "D" = false
  /\ In "loop" StateGraph.node_types
  /\ state_after (StateGraph.remove_node "D")
       (state_after
          (StateGraph.add_node "D" "loop" (Some "again") None None None)
          (run ops_workflow NX.empty))
     = run ops_workflow NX.empty.
Proof.
  split; [exists ops_workflow; reflexivity|]. split; [reflexivity|].
  split; [simpl; tauto|].
  destruct (add_then_remove_node (run ops_workflow NX.empty) "D" "loop"
              (Some "again") None None None) as [_ H].
  - exists ops_workflow; reflexivity.
  - reflexivity.
  - simpl; tauto.
  - exact H.
Defined.

(** X18: the file with a node of an unknown type; the import stops at
    that node *)
Lemma populate_is_sound_witness :
  fst (Files.populate file_bad_type NX.empty)
  = Some (Files.InvalidNodeType (VStr "step"))
  /\ NX.nodes (snd (Files.populate file_bad_type NX.empty)) = ["A"]
  /\ wf (snd (Files.populate file_bad_type NX.empty)).
Proof.
  split; [reflexivity|]. split; [reflexivity|].
  pose proof (populate_is_sound file_bad_type) as P.
  cbv zeta in P. destruct P as (W & _). exact W.
Defined.

(** X19: the workflow graph written to a file and read back *)
Lemma export_then_import_witness :
  reachable (run ops_workflow NX.empty)
  /\ (forall n, NX.has_node (run ops_workflow NX.empty) n = true ->
        get "label" (StateGraph.node_data_of (run ops_workflow NX.empty) n)
        = Some (VStr "") -> n = "")
  /\ (forall u v, NX.has_edge (run ops_workflow NX.empty) u v = true ->
        u <> "" /\ v <> "")
  /\ exists G',
       Files.populate (Files.export_data (run ops_workflow NX.empty) "flow")
                      NX.empty = (None, G')
       /\ NX.nodes G' = NX.nodes (run ops_workflow NX.empty).
Proof.
  assert (R : reachable (run ops_workflow NX.empty))
    by (exists ops_workflow; reflexivity).
  assert (Hl : forall n,
             NX.has_node (run ops_workflow NX.empty) n = true ->
             get "label"
                 (StateGraph.node_data_of (run ops_workflow NX.empty) n)
             = Some (VStr "") -> n = "").
  { intros n Hn El. apply has_node_In in Hn. vm_compute in Hn.
    destruct Hn as [<-|[<-|[<-|[]]]]; vm_compute in El; discriminate El. }
  assert (He : forall u v,
             NX.has_edge (run ops_workflow NX.empty) u v = true ->
             u <> "" /\ v <> "").
  { intros u v E.
    destruct (wf_edge_endpoints _ u v (reachable_wf _ R) E) as [Iu Iv].
    vm_compute in Iu, Iv.
    destruct Iu as [<-|[<-|[<-|[]]]]; destruct Iv as [<-|[<-|[<-|[]]]];
      split; discriminate. }
  split; [exact R|]. split; [exact Hl|]. split; [exact He|].
  destruct (export_then_import (run ops_workflow NX.empty) "flow" R Hl He)
    as (G' & E & _ & N & _).
  exists G'. split; [exact E | exact N].
Defined.

(** X20: the edge from the node with the empty id *)
Lemma empty_id_edge_is_not_imported_witness :
  reachable (run ops_empty_edge NX.empty)
  /\ NX.has_edge (run ops_empty_edge NX.empty) "" "A" = true
  /\ exists r,
       fst (Files.populate
              (Files.export_data (run ops_empty_edge NX.empty) "g") NX.empty)
       = Some r.
Proof.
  split; [exists ops_empty_edge; reflexivity|]. split; [reflexivity|].
  apply (empty_id_edge_is_not_imported (run ops_empty_edge NX.empty) "g"
           "" "A").
  - exists ops_empty_edge; reflexivity.
  - reflexivity.
  - now left.
Defined.


(** X22: a json export under a name that ends in .yaml *)
Lemma exported_file_names_witness :
  Files.export_file "json" "g" (Some "x.yaml")
  = Some (Files.Json, "x.yaml.json")
  /\ Files.format_of_path "x.yaml.json" = Some Files.Json.
Proof.
  split; [reflexivity|].
  destruct (exported_file_names "json" "g" (Some "x.yaml")) as (H & _).
  destruct (H Files.Json "x.yaml.json") as [E _]; [reflexivity | exact E].
Defined.

(** X23: the graph with a self-loop *)
Lemma get_edges_follows_the_nodes_witness :
  reachable (run ops_self_loop NX.empty)
  /\ keys (_succ (run ops_self_loop NX.empty))
     = NX.nodes (run ops_self_loop NX.empty).
Proof.
  split; [exists ops_self_loop; reflexivity|].
  destruct (get_edges_follows_the_nodes (run ops_self_loop NX.empty))
    as (H & _).
  - exists ops_self_loop; reflexivity.
  - exact H.
Defined.

(** X24: the two-node cycle walked from A *)
Lemma execution_sequence_is_a_walk_witness :
  reachable (run ops_cycle NX.empty)
  /\ NX.has_node (run ops_cycle NX.empty) "A" = true
  /\ "A" <> ""
  /\ exists s cs,
       outcome (StateGraph.get_execution_sequence "A" true)
               (run ops_cycle NX.empty) = Ok (Some s)
       /\ chained (run ops_cycle NX.empty) ("A" :: cs).
Proof.
  split; [exists ops_cycle; reflexivity|]. split; [reflexivity|].
  split; [discriminate|].
  destruct (execution_sequence_is_a_walk (run ops_cycle NX.empty) "A" true)
    as (s & cs & E & _ & C & _).
  - exists ops_cycle; reflexivity.
  - reflexivity.
  - discriminate.
  - exists s, cs. split; [exact E | exact C].
Defined.

(** X25: the workflow graph drawn *)
Lemma visualize_graph_colours_witness :
  reachable (run ops_workflow NX.empty)
  /\ NX.nodes (run ops_workflow NX.empty) <> []
  /\ exists cs,
       Visualization.visualize_graph (run ops_workflow NX.empty) "flow" None
       = Visualization.Drawn cs (Files.png_file "flow" None)
       /\ ~ In Visualization.fallback_color cs.
Proof.
  split; [exists ops_workflow; reflexivity|]. split; [discriminate|].
  destruct (visualize_graph_colours (run ops_workflow NX.empty) "flow" None)
    as [_ H].
  - exists ops_workflow; reflexivity.
  - destruct H as (cs & E & _ & _ & N & _); [discriminate|].
    exists cs. split; [exact E | exact N].
Defined.

(** X26: node B of the workflow graph after an update, a removal of
    another node and a rejected second [add_node] *)
Lemma node_type_is_fixed_witness :
  reachable (run ops_workflow NX.empty)
  /\ NX.has_node (run ops_workflow NX.empty) "B" = true
  /\ get "node_type"
       (StateGraph.node_data_of
          (run [UpdateNode "B" (Some "choose") (Some 1%Z) None None;
                RemoveNode "A";
                AddNode "B" "action" None None None None]
               (run ops_workflow NX.empty)) "B")
     = Some (VStr "decision").
Proof.
  split; [exists ops_workflow; reflexivity|]. split; [reflexivity|].
  destruct (node_type_is_fixed (run ops_workflow NX.empty)
              [UpdateNode "B" (Some "choose") (Some 1%Z) None None;
               RemoveNode "A";
               AddNode "B" "action" None None None None] "B") as [_ H].
  - exists ops_workflow; reflexivity.
  - reflexivity.
  - intros o [<-|[<-|[<-|[]]]]; discriminate.
  - rewrite H. reflexivity.
Defined.
